(** * Central (perspective) camera model of the machine vision toolbox

    A shallow embedding of [machinevisiontoolbox/Camera.py]: the
    constructor and [move], the intrinsic matrix [K], the projection matrix
    [C], the projection of points and conics, back-projection to rays,
    calibration (DLT estimation and decomposition), the plane homography,
    the essential and fundamental matrices, the choice among the poses of
    an essential matrix and the point-feature image Jacobian.

    Numbers.  The program computes on IEEE-754 doubles.  A double is
    modelled as an exact rational or one of the three special values
    (plus infinity, minus infinity, not-a-number); the special values obey
    the IEEE rules the program relies on (a quotient by zero is an infinity
    or NaN, every comparison with NaN is false, NaN propagates).  Rounding,
    overflow and the sign of zero are not modelled.

    Arrays.  A numpy array of fixed shape is a record; an array with one
    column per point is a list of columns. *)

From Stdlib Require Import QArith Qabs Arith Lia Lra Psatz QNsatz List String Bool.
Import ListNotations.
Open Scope Q_scope.

(* ================================================================= *)
(** ** Double-precision values *)

Inductive fl : Type :=
| Fin (q : Q)
| PInf
| NInf
| NaN.

Declare Scope fl_scope.
Delimit Scope fl_scope with fl.
Bind Scope fl_scope with fl.

Definition fzero : fl := Fin 0.
Definition fone : fl := Fin 1.

(** Sign of a rational as a comparison with zero. *)
Definition Qsign (q : Q) : comparison := q ?= 0.

Definition fopp (x : fl) : fl :=
  match x with
  | Fin q => Fin (- q)
  | PInf => NInf
  | NInf => PInf
  | NaN => NaN
  end.

Definition fadd (x y : fl) : fl :=
  match x, y with
  | NaN, _ | _, NaN => NaN
  | PInf, NInf | NInf, PInf => NaN
  | PInf, _ | _, PInf => PInf
  | NInf, _ | _, NInf => NInf
  | Fin a, Fin b => Fin (a + b)
  end.

Definition fsub (x y : fl) : fl := fadd x (fopp y).

(** An infinity scaled by a finite factor: NaN for a zero factor. *)
Definition inf_times (positive : bool) (q : Q) : fl :=
  match Qsign q with
  | Eq => NaN
  | Gt => if positive then PInf else NInf
  | Lt => if positive then NInf else PInf
  end.

Definition fmul (x y : fl) : fl :=
  match x, y with
  | NaN, _ | _, NaN => NaN
  | Fin a, Fin b => Fin (a * b)
  | Fin a, PInf | PInf, Fin a => inf_times true a
  | Fin a, NInf | NInf, Fin a => inf_times false a
  | PInf, PInf | NInf, NInf => PInf
  | PInf, NInf | NInf, PInf => NInf
  end.

(** numpy's true division: no exception, a zero divisor gives an infinity
    (for a nonzero dividend) or NaN (for a zero one). *)
Definition fdiv (x y : fl) : fl :=
  match x, y with
  | NaN, _ | _, NaN => NaN
  | Fin a, Fin b =>
      match Qsign b with
      | Eq => match Qsign a with
              | Eq => NaN
              | Gt => PInf
              | Lt => NInf
              end
      | _ => Fin (a / b)
      end
  | Fin _, PInf | Fin _, NInf => Fin 0
  | PInf, Fin b => match Qsign b with Lt => NInf | _ => PInf end
  | NInf, Fin b => match Qsign b with Lt => PInf | _ => NInf end
  | PInf, PInf | PInf, NInf | NInf, PInf | NInf, NInf => NaN
  end.

(** [x < y]; false as soon as one side is NaN. *)
Definition fltb (x y : fl) : bool :=
  match x, y with
  | NaN, _ | _, NaN => false
  | Fin a, Fin b => match a ?= b with Lt => true | _ => false end
  | NInf, Fin _ | NInf, PInf | Fin _, PInf => true
  | _, _ => false
  end.

(** [x <= y]; false as soon as one side is NaN. *)
Definition fleb (x y : fl) : bool :=
  match x, y with
  | NaN, _ | _, NaN => false
  | Fin a, Fin b => match a ?= b with Gt => false | _ => true end
  | NInf, _ | _, PInf => true
  | _, _ => false
  end.

(** [x >= y]. *)
Definition fgeb (x y : fl) : bool := fleb y x.

(** [np.isnan]. *)
Definition isnan (x : fl) : bool :=
  match x with NaN => true | _ => false end.

(** [np.sign]: -1, 0 or 1, and NaN for NaN. *)
Definition sign (x : fl) : fl :=
  match x with
  | Fin q => match Qsign q with
             | Lt => Fin (-1)
             | Eq => Fin 0
             | Gt => Fin 1
             end
  | PInf => Fin 1
  | NInf => Fin (-1)
  | NaN => NaN
  end.

(** [np.isclose(a, b)] with its default tolerances:
    [|a - b| <= atol + rtol * |b|], [rtol = 1e-5], [atol = 1e-8];
    equal infinities are close, NaN is close to nothing. *)
Definition rtol : Q := 1 # 100000.
Definition atol : Q := 1 # 100000000.

Definition isclose (a b : fl) : bool :=
  match a, b with
  | Fin x, Fin y =>
      match Qabs (x - y) ?= atol + rtol * Qabs y with
      | Gt => false
      | _ => true
      end
  | PInf, PInf | NInf, NInf => true
  | _, _ => false
  end.

(** The value a double stands for, as an equivalence: rationals are compared
    by [Qeq], the special values only equal themselves. *)
Definition feq (x y : fl) : Prop :=
  match x, y with
  | Fin a, Fin b => a == b
  | PInf, PInf | NInf, NInf | NaN, NaN => True
  | _, _ => False
  end.

Definition is_fin (x : fl) : Prop :=
  match x with Fin _ => True | _ => False end.

Infix "+" := fadd : fl_scope.
Infix "-" := fsub : fl_scope.
Infix "*" := fmul : fl_scope.
Infix "/" := fdiv : fl_scope.
Notation "- x" := (fopp x) : fl_scope.
Infix "=~" := feq (at level 70, no associativity).

(* ================================================================= *)
(** ** Exceptions *)

Inductive exn : Type :=
| ValueError
| RuntimeError
| LinAlgError
| ZeroDivisionError.

Inductive result (A : Type) : Type :=
| Ok (a : A)
| Raise (e : exn).
Arguments Ok {A} a.
Arguments Raise {A} e.

Definition bind {A B : Type} (r : result A) (k : A -> result B) : result B :=
  match r with
  | Ok a => k a
  | Raise e => Raise e
  end.

Notation "x <- r ;; k" := (bind r (fun x => k))
  (at level 61, r at next level, right associativity).

(* ================================================================= *)
(** ** Arrays of fixed shape *)

Record vec2 : Type := V2 { e0 : fl; e1 : fl }.
Record vec3 : Type := V3 { vx : fl; vy : fl; vz : fl }.
Record vec4 : Type := V4 { hx : fl; hy : fl; hz : fl; hw : fl }.
Record vec6 : Type := V6 { j0 : fl; j1 : fl; j2 : fl; j3 : fl; j4 : fl; j5 : fl }.

(** Matrices are stored by rows. *)
Record mat22 : Type := M22 { a_0 : vec2; a_1 : vec2 }.
Record mat26 : Type := M26 { l_0 : vec6; l_1 : vec6 }.
Record mat33 : Type := M33 { r_0 : vec3; r_1 : vec3; r_2 : vec3 }.
Record mat34 : Type := M34 { c_0 : vec4; c_1 : vec4; c_2 : vec4 }.
Record mat44 : Type := M44 { t_0 : vec4; t_1 : vec4; t_2 : vec4; t_3 : vec4 }.

Local Open Scope fl_scope.

Definition dot2 (a b : vec2) : fl := e0 a * e0 b + e1 a * e1 b.
Definition dot3 (a b : vec3) : fl := vx a * vx b + vy a * vy b + vz a * vz b.
Definition dot4 (a b : vec4) : fl :=
  hx a * hx b + hy a * hy b + hz a * hz b + hw a * hw b.

Definition col0 (m : mat33) : vec3 := V3 (vx (r_0 m)) (vx (r_1 m)) (vx (r_2 m)).
Definition col1 (m : mat33) : vec3 := V3 (vy (r_0 m)) (vy (r_1 m)) (vy (r_2 m)).
Definition col2 (m : mat33) : vec3 := V3 (vz (r_0 m)) (vz (r_1 m)) (vz (r_2 m)).

(** [m.T] *)
Definition transpose (m : mat33) : mat33 := M33 (col0 m) (col1 m) (col2 m).

(** [m @ v] *)
Definition mat33_vec (m : mat33) (v : vec3) : vec3 :=
  V3 (dot3 (r_0 m) v) (dot3 (r_1 m) v) (dot3 (r_2 m) v).

Definition vec_mat33 (v : vec3) (m : mat33) : vec3 :=
  V3 (dot3 v (col0 m)) (dot3 v (col1 m)) (dot3 v (col2 m)).

(** [a @ b] for 3x3 matrices *)
Definition matmul (a b : mat33) : mat33 :=
  M33 (vec_mat33 (r_0 a) b) (vec_mat33 (r_1 a) b) (vec_mat33 (r_2 a) b).

Definition c34_0 (m : mat34) : vec3 := V3 (hx (c_0 m)) (hx (c_1 m)) (hx (c_2 m)).
Definition c34_1 (m : mat34) : vec3 := V3 (hy (c_0 m)) (hy (c_1 m)) (hy (c_2 m)).
Definition c34_2 (m : mat34) : vec3 := V3 (hz (c_0 m)) (hz (c_1 m)) (hz (c_2 m)).
Definition c34_3 (m : mat34) : vec3 := V3 (hw (c_0 m)) (hw (c_1 m)) (hw (c_2 m)).

Definition vec3_mat34 (v : vec3) (m : mat34) : vec4 :=
  V4 (dot3 v (c34_0 m)) (dot3 v (c34_1 m)) (dot3 v (c34_2 m)) (dot3 v (c34_3 m)).

(** [a @ b] for a 3x3 and a 3x4 matrix *)
Definition mat33_mat34 (a : mat33) (b : mat34) : mat34 :=
  M34 (vec3_mat34 (r_0 a) b) (vec3_mat34 (r_1 a) b) (vec3_mat34 (r_2 a) b).

Definition c44_0 (m : mat44) : vec4 :=
  V4 (hx (t_0 m)) (hx (t_1 m)) (hx (t_2 m)) (hx (t_3 m)).
Definition c44_1 (m : mat44) : vec4 :=
  V4 (hy (t_0 m)) (hy (t_1 m)) (hy (t_2 m)) (hy (t_3 m)).
Definition c44_2 (m : mat44) : vec4 :=
  V4 (hz (t_0 m)) (hz (t_1 m)) (hz (t_2 m)) (hz (t_3 m)).
Definition c44_3 (m : mat44) : vec4 :=
  V4 (hw (t_0 m)) (hw (t_1 m)) (hw (t_2 m)) (hw (t_3 m)).

Definition vec4_mat44 (v : vec4) (m : mat44) : vec4 :=
  V4 (dot4 v (c44_0 m)) (dot4 v (c44_1 m)) (dot4 v (c44_2 m)) (dot4 v (c44_3 m)).

(** [a @ b] for a 3x4 and a 4x4 matrix *)
Definition mat34_mat44 (a : mat34) (b : mat44) : mat34 :=
  M34 (vec4_mat44 (c_0 a) b) (vec4_mat44 (c_1 a) b) (vec4_mat44 (c_2 a) b).

(** [m @ v] for a 3x4 matrix and a homogeneous point *)
Definition mat34_vec (m : mat34) (v : vec4) : vec3 :=
  V3 (dot4 (c_0 m) v) (dot4 (c_1 m) v) (dot4 (c_2 m) v).

(** [m @ v] for a 4x4 matrix and a homogeneous point *)
Definition mat44_vec (m : mat44) (v : vec4) : vec4 :=
  V4 (dot4 (t_0 m) v) (dot4 (t_1 m) v) (dot4 (t_2 m) v) (dot4 (t_3 m) v).

(** [np.eye(3)] and [np.eye(3, 4)] *)
Definition eye3 : mat33 :=
  M33 (V3 fone fzero fzero) (V3 fzero fone fzero) (V3 fzero fzero fone).
Definition eye34 : mat34 :=
  M34 (V4 fone fzero fzero fzero) (V4 fzero fone fzero fzero)
      (V4 fzero fzero fone fzero).

Definition vscale (s : fl) (v : vec3) : vec3 := V3 (s * vx v) (s * vy v) (s * vz v).
Definition vmap (f : fl -> fl) (v : vec3) : vec3 := V3 (f (vx v)) (f (vy v)) (f (vz v)).
Definition mmap (f : fl -> fl) (m : mat33) : mat33 :=
  M33 (vmap f (r_0 m)) (vmap f (r_1 m)) (vmap f (r_2 m)).

(** [np.linalg.det] of a 3x3 matrix, by expansion along the first row
    (numpy goes through an LU factorisation; the two agree on numbers). *)
Definition det (m : mat33) : fl :=
  let '(M33 (V3 a b c) (V3 d e f) (V3 g h i)) := m in
  a * (e * i - f * h) - b * (d * i - f * g) + c * (d * h - e * g).

(** [np.linalg.inv] of a 3x3 matrix: the adjugate over the determinant;
    a singular matrix raises [LinAlgError].  A matrix holding an infinity or
    NaN has no finite determinant; its inverse is taken to be all NaN. *)
Definition inv (m : mat33) : result mat33 :=
  let '(M33 (V3 a b c) (V3 d e f) (V3 g h i)) := m in
  let dt := det m in
  match dt with
  | Fin q =>
      match Qsign q with
      | Eq => Raise LinAlgError
      | _ =>
          Ok (M33 (V3 ((e * i - f * h) / dt) ((c * h - b * i) / dt) ((b * f - c * e) / dt))
                  (V3 ((f * g - d * i) / dt) ((a * i - c * g) / dt) ((c * d - a * f) / dt))
                  (V3 ((d * h - e * g) / dt) ((b * g - a * h) / dt) ((a * e - b * d) / dt)))
      end
  | _ => Ok (mmap (fun _ => NaN) m)
  end.

(** [base.skew]: the cross-product matrix of a 3-vector. *)
Definition skew (v : vec3) : mat33 :=
  M33 (V3 fzero (- vz v) (vy v))
      (V3 (vz v) fzero (- vx v))
      (V3 (- vy v) (vx v) fzero).

(** [base.e2h] of a column: append a one. *)
Definition e2h (p : vec3) : vec4 := V4 (vx p) (vy p) (vz p) fone.
Definition e2h2 (p : vec2) : vec3 := V3 (e0 p) (e1 p) fone.

(** [base.h2e] of a column: divide by the last coordinate and drop it. *)
Definition h2e (x : vec3) : vec2 := V2 (vx x / vz x) (vy x / vz x).

(* ================================================================= *)
(** ** Rigid-body motions ([spatialmath.SE3]) *)

Record SE3 : Type := Rt { SE3_R : mat33; SE3_t : vec3 }.

(** [SE3()]: the identity. *)
Definition SE3_identity : SE3 := Rt eye3 (V3 fzero fzero fzero).

(** [T.A]: the 4x4 homogeneous matrix. *)
Definition SE3_A (T : SE3) : mat44 :=
  let R := SE3_R T in
  let t := SE3_t T in
  M44 (V4 (vx (r_0 R)) (vy (r_0 R)) (vz (r_0 R)) (vx t))
      (V4 (vx (r_1 R)) (vy (r_1 R)) (vz (r_1 R)) (vy t))
      (V4 (vx (r_2 R)) (vy (r_2 R)) (vz (r_2 R)) (vz t))
      (V4 fzero fzero fzero fone).

(** [T.inv()]: rotation [R.T], translation [-R.T @ t]. *)
Definition SE3_inv (T : SE3) : SE3 :=
  let Rt' := transpose (SE3_R T) in
  Rt Rt' (mat33_vec (mmap fopp Rt') (SE3_t T)).

(** [T1 * T2]: the product of the two 4x4 matrices. *)
Definition mat44_mat44 (a b : mat44) : mat44 :=
  M44 (vec4_mat44 (t_0 a) b) (vec4_mat44 (t_1 a) b)
      (vec4_mat44 (t_2 a) b) (vec4_mat44 (t_3 a) b).

Definition SE3_of_A (m : mat44) : SE3 :=
  Rt (M33 (V3 (hx (t_0 m)) (hy (t_0 m)) (hz (t_0 m)))
          (V3 (hx (t_1 m)) (hy (t_1 m)) (hz (t_1 m)))
          (V3 (hx (t_2 m)) (hy (t_2 m)) (hz (t_2 m))))
     (V3 (hw (t_0 m)) (hw (t_1 m)) (hw (t_2 m))).

Definition SE3_mul (T1 T2 : SE3) : SE3 :=
  SE3_of_A (mat44_mat44 (SE3_A T1) (SE3_A T2)).

(* ================================================================= *)
(** ** The camera object *)

(** The attributes of a [CentralCamera] the operations below read:
    focal lengths, pixel sizes, principal point, image size, the standard
    deviation of the pixel noise and the pose of the camera frame. *)
Record camera : Type := Camera {
  name : string;
  fu : fl;
  fv : fl;
  rhou : fl;
  rhov : fl;
  u0 : fl;
  v0 : fl;
  nu : fl;
  nv : fl;
  noise : option fl;
  pose : SE3
}.

(** [width] and [height] are the two entries of [imagesize], as [nu], [nv]. *)
Definition width (c : camera) : fl := nu c.
Definition height (c : camera) : fl := nv c.

(** How the second view of a pair is given to [E] and [F]. *)
Inductive view : Type :=
| ViewCamera (other : camera)
| ViewSE3 (T : SE3)
| ViewArray (F : mat33)
| ViewOther.

(** The points handed to [project_point]: a 3xN or a 4xN array. *)
Inductive points : Type :=
| Cartesian (cols : list vec3)
| Homogeneous (cols : list vec4).

(** What [project_point] returns: the image points, and with
    [visibility=True] also one boolean per point. *)
Inductive projection : Type :=
| Image (x : list vec2)
| ImageVisible (x : list vec2) (visible : list bool).

(** The numpy and scipy routines the calibration code calls.
    [svd c] is the triple [u, s, vh] of [np.linalg.svd];
    [qr s] the pair [Q, R] of [np.linalg.qr];
    [lstsq a b] the solution vector of [scipy.linalg.lstsq]. *)
Record linalg : Type := Linalg {
  svd : mat34 -> mat33 * vec3 * mat44;
  qr : mat33 -> mat33 * mat33;
  lstsq : list (list fl) -> list fl -> result (list fl)
}.

Module CentralCamera.

(** [Camera.__init__] followed by the [f] setter of [CentralCamera.__init__]:
    [rho], [imagesize] and [f] are 1- or 2-element vectors, the principal
    point defaults to the image centre, the pose to the identity. *)
Definition init (name : string) (f rho imagesize : list fl) (pp : option vec2)
    (noise : option fl) (pose : option SE3) : result camera :=
  rho2 <- match rho with
          | [r] => Ok (r, r)
          | [ru; rv] => Ok (ru, rv)
          | _ => Raise ValueError
          end ;;
  size2 <- match imagesize with
           | [n] => Ok (n, n)
           | [n; m] => Ok (n, m)
           | _ => Raise ValueError
           end ;;
  let pp2 := match pp with
             | Some p => p
             | None => V2 (fst size2 / Fin 2) (snd size2 / Fin 2)
             end in
  let T := match pose with
           | Some T => T
           | None => SE3_identity
           end in
  f2 <- match f with
        | [f0] => Ok (f0, f0)
        | [f0; f1] => Ok (f0, f1)
        | _ => Raise ValueError
        end ;;
  Ok (Camera name (fst f2) (snd f2) (fst rho2) (snd rho2) (e0 pp2) (e1 pp2)
             (fst size2) (snd size2) noise T).

Definition default_imagesize : list fl := [Fin 1024; Fin 1024].

(** [K]: the intrinsic matrix. *)
Definition K (self : camera) : mat33 :=
  M33 (V3 (fu self / rhou self) fzero (u0 self))
      (V3 fzero (fv self / rhov self) (v0 self))
      (V3 fzero fzero fone).

(** [C(T)]: the projection matrix [K @ P0 @ T.inv().A]. *)
Definition C (self : camera) (T : option SE3) : mat34 :=
  let P0 := eye34 in
  let T := match T with
           | Some T => T
           | None => pose self
           end in
  mat34_mat44 (mat33_mat34 (K self) P0) (SE3_A (SE3_inv T)).

(** [add_noise_distortion]: [rng i] is the pair of normal variates drawn for
    column [i] when the camera has a noise level. *)
Fixpoint add_noise_from (rng : nat -> vec2) (i : nat) (uv : list vec2) : list vec2 :=
  match uv with
  | [] => []
  | p :: rest =>
      V2 (e0 p + e0 (rng i)) (e1 p + e1 (rng i)) :: add_noise_from rng (S i) rest
  end.

Definition add_noise_distortion (self : camera) (rng : nat -> vec2)
    (uv : list vec2) : list vec2 :=
  match noise self with
  | Some _ => add_noise_from rng 0 uv
  | None => uv
  end.

(** [x[2, x[2, :] < 0] = np.nan] on one column. *)
Definition mark_behind (x : vec3) : vec3 :=
  if fltb (vz x) fzero then V3 (vx x) (vy x) NaN else x.

(** The visibility test of one image point. *)
Definition visible_point (self : camera) (x : vec2) : bool :=
  negb (isnan (e0 x))
  && fgeb (e0 x) fzero
  && fgeb (e1 x) fzero
  && fltb (e0 x) (nu self)
  && fltb (e1 x) (nv self).

(** The homogeneous world points after the optional [objpose]. *)
Definition world_points (P : points) (objpose : option SE3) : list vec4 :=
  let Ph := match P with
            | Cartesian cols => map e2h cols
            | Homogeneous cols => cols
            end in
  match objpose with
  | Some T => map (mat44_vec (SE3_A T)) Ph
  | None => Ph
  end.

(** [project_point(P, pose, objpose, behind, visibility)]. *)
Definition project_point (self : camera) (rng : nat -> vec2) (P : points)
    (pose' objpose : option SE3) (behind visibility : bool) : projection :=
  let pose' := match pose' with
               | Some T => T
               | None => pose self
               end in
  let C := C self (Some pose') in
  let P := world_points P objpose in
  let x := map (mat34_vec C) P in
  let x := if behind then map mark_behind x else x in
  let x := map h2e x in
  let x := add_noise_distortion self rng x in
  if visibility then ImageVisible x (map (visible_point self) x) else Image x.

(** [points2C(P, p)]: the 2N x 11 system of the direct linear transform,
    its least-squares solution reshaped to 3x4, and the residual. *)
Definition dlt_rows (uv : vec2) (X : vec3) : list (list fl) :=
  let u := e0 uv in
  let v := e1 uv in
  [ [vx X; vy X; vz X; fone; fzero; fzero; fzero; fzero;
     (- u) * vx X; (- u) * vy X; (- u) * vz X];
    [fzero; fzero; fzero; fzero; vx X; vy X; vz X; fone;
     (- v) * vx X; (- v) * vy X; (- v) * vz X] ].

Fixpoint dlt_system (p : list vec2) (P : list vec3) : list (list fl) * list fl :=
  match p, P with
  | uv :: p', X :: P' =>
      let (A, b) := dlt_system p' P' in
      (dlt_rows uv X ++ A, e0 uv :: e1 uv :: b)
  | _, _ => ([], [])
  end.

Fixpoint dotl (a b : list fl) : fl :=
  match a, b with
  | x :: a', y :: b' => x * y + dotl a' b'
  | _, _ => fzero
  end.

Fixpoint residual (A : list (list fl)) (c b : list fl) : list fl :=
  match A, b with
  | row :: A', bi :: b' => (dotl row c - bi) :: residual A' c b'
  | _, _ => []
  end.

(** [c.reshape((3, 4))]: defined for exactly twelve entries. *)
Definition reshape34 (c : list fl) : result mat34 :=
  match c with
  | [a; b; c; d; e; f; g; h; i; j; k; l] =>
      Ok (M34 (V4 a b c d) (V4 e f g h) (V4 i j k l))
  | _ => Raise ValueError
  end.

Definition points2C (la : linalg) (P : list vec3) (p : list vec2)
    : result (mat34 * list fl) :=
  let (A, b) := dlt_system p P in
  c <- lstsq la A b ;;
  let r := residual A c b in
  let c := c ++ [fone] in
  C <- reshape34 c ;;
  Ok (C, r).

(** The local function [rq] of [decomposeC], after [vgg_rq]: like [qr]
    but the other way around, [S = U @ Q] with [U] upper triangular. *)
Definition flip (m : mat33) : mat33 :=
  let '(M33 (V3 a b c) (V3 d e f) (V3 g h i)) := m in
  M33 (V3 i h g) (V3 f e d) (V3 c b a).

Definition neg_col0 (m : mat33) : mat33 :=
  let '(M33 (V3 a b c) (V3 d e f) (V3 g h i)) := m in
  M33 (V3 (- a) b c) (V3 (- d) e f) (V3 (- g) h i).

Definition neg_row0 (m : mat33) : mat33 :=
  let '(M33 (V3 a b c) r1 r2) := m in
  M33 (V3 (- a) (- b) (- c)) r1 r2.

Definition rq (la : linalg) (S : mat33) : mat33 * mat33 :=
  let S := transpose S in
  let (Q, U) := qr la (flip S) in
  let Q := transpose Q in
  let Q := flip Q in
  let U := transpose U in
  let U := flip U in
  if fltb (det Q) fzero then (neg_col0 U, neg_row0 Q) else (U, Q).

(** [np.diag(np.sign(np.diag(K)))] *)
Definition sign_matrix (Km : mat33) : mat33 :=
  M33 (V3 (sign (vx (r_0 Km))) fzero fzero)
      (V3 fzero (sign (vy (r_1 Km))) fzero)
      (V3 fzero fzero (sign (vz (r_2 Km)))).

(** Lines 1467-1473: the camera centre is the last right-singular vector
    divided by its fourth component. *)
Definition camera_centre (la : linalg) (Cm : mat34) : vec3 :=
  let '(_, _, vh) := svd la Cm in
  let t := t_3 vh in
  V3 (hx t / hw t) (hy t / hw t) (hz t / hw t).

(** [C[:3, :3]] *)
Definition leading33 (Cm : mat34) : mat33 :=
  M33 (V3 (hx (c_0 Cm)) (hy (c_0 Cm)) (hz (c_0 Cm)))
      (V3 (hx (c_1 Cm)) (hy (c_1 Cm)) (hz (c_1 Cm)))
      (V3 (hx (c_2 Cm)) (hy (c_2 Cm)) (hz (c_2 Cm))).

(** [decomposeC(C)].  The shape test on [C] is the type of [Cm].  The pose
    is made by [SE3.Rt(R.T, t)], taken here as the plain constructor: the
    rotation handed to it is a product of the orthogonal factor of [rq] and
    of a diagonal sign matrix. *)
Definition decomposeC (la : linalg) (Cm : mat34) : result camera :=
  let t := camera_centre la Cm in
  let M := leading33 Cm in
  let (Km, R) := rq la M in
  let Cs := sign_matrix Km in
  if negb (isclose (det Cs) fone) then Raise RuntimeError
  else
    let Km := matmul Km Cs in
    let R := matmul (transpose Cs) R in
    let k22 := vz (r_2 Km) in
    let Km := mmap (fun k => k / k22) Km in
    let f := vx (r_0 Km) in
    let s := [fone; vy (r_1 Km) / vx (r_0 Km)] in
    init "invC"%string [f] s default_imagesize
         (Some (V2 (vz (r_0 Km)) (vz (r_1 Km)))) None
         (Some (Rt (transpose R) t)).

(** Python's [x / d] on floats: a zero divisor raises. *)
Definition py_div (x d : fl) : result fl :=
  match d with
  | Fin q => match Qsign q with
             | Eq => Raise ZeroDivisionError
             | _ => Ok (x / d)
             end
  | _ => Ok (x / d)
  end.

(** [H(T, N, d)]: the homography induced by a plane. *)
Definition H (self : camera) (T : SE3) (N : vec3) (d : fl) : result mat33 :=
  if fltb d fzero then Raise ValueError
  else if fltb (vz N) fzero then Raise ValueError
  else
    let T := SE3_inv T in
    s <- py_div fone d ;;
    let w := dot3 (vscale s (SE3_t T)) N in
    let HH := mmap (fun r => r + w) (SE3_R T) in
    Kinv <- inv (K self) ;;
    let HH := matmul (matmul (K self) HH) Kinv in
    Ok (mmap (fun h => h / vz (r_2 HH)) HH).

(** [E(other)]: the essential matrix. *)
Definition E (self : camera) (other : view) : result mat33 :=
  match other with
  | ViewArray Fm => Ok (matmul (matmul (transpose (K self)) Fm) (K self))
  | ViewCamera o =>
      let T21 := SE3_mul (SE3_inv (pose o)) (pose self) in
      Ok (matmul (skew (SE3_t T21)) (SE3_R T21))
  | ViewSE3 T =>
      let T21 := SE3_inv T in
      Ok (matmul (skew (SE3_t T21)) (SE3_R T21))
  | ViewOther => Raise ValueError
  end.

(** [F(other)]: the fundamental matrix. *)
Definition F (self : camera) (other : view) : result mat33 :=
  match other with
  | ViewSE3 _ =>
      Em <- E self other ;;
      let Km := K self in
      Ka <- inv Km ;;
      Kb <- inv Km ;;
      Ok (matmul (matmul (transpose Ka) Em) Kb)
  | ViewCamera o =>
      Em <- E self other ;;
      let K1 := K self in
      let K2 := K o in
      K2inv <- inv K2 ;;
      K1inv <- inv K1 ;;
      Ok (matmul (matmul (transpose K2inv) Em) K1inv)
  | _ => Raise ValueError
  end.

(** [K[:2, :2]] *)
Definition K22 (Km : mat33) : mat22 :=
  M22 (V2 (vx (r_0 Km)) (vy (r_0 Km))) (V2 (vx (r_1 Km)) (vy (r_1 Km))).

(** [a @ b] for a 2x2 and a 2x6 matrix *)
Definition mat22_mat26 (a : mat22) (b : mat26) : mat26 :=
  let col (f : vec6 -> fl) := V2 (f (l_0 b)) (f (l_1 b)) in
  let row (r : vec2) :=
    V6 (dot2 r (col j0)) (dot2 r (col j1)) (dot2 r (col j2))
       (dot2 r (col j3)) (dot2 r (col j4)) (dot2 r (col j5)) in
  M26 (row (a_0 a)) (row (a_1 a)).

(** The body of the loop of [visjac_p]: the 2x6 Jacobian of one point. *)
Definition point_jacobian (Km Kinv : mat33) (z : fl) (p : vec2) : mat26 :=
  let xy := mat33_vec Kinv (e2h2 p) in
  let x := vx xy in
  let y := vy xy in
  mat22_mat26 (K22 Km)
    (M26 (V6 (Fin (-1) / z) fzero (x / z) (x * y) (- (fone + x * x)) y)
         (V6 fzero (Fin (-1) / z) (y / z) (fone + y * y) ((- x) * y) (- x))).

(** [for z, p in zip(Z, uv.T): ... L = np.vstack([L, Lp])] *)
Fixpoint stack_jacobians (Km Kinv : mat33) (Z : list fl) (uv : list vec2)
    : list vec6 :=
  match Z, uv with
  | z :: Z', p :: uv' =>
      let Lp := point_jacobian Km Kinv z p in
      l_0 Lp :: l_1 Lp :: stack_jacobians Km Kinv Z' uv'
  | _, _ => []
  end.

(** [visjac_p(uv, Z)]: [uv] holds one column per point, [Z] is the vector
    [base.getvector] makes of the depth argument (one entry for a scalar). *)
Definition visjac_p (self : camera) (uv : list vec2) (Z : list fl)
    : result (list vec6) :=
  Z <- (if Nat.eqb (List.length Z) 1 then Ok (repeat (hd fzero Z) (List.length uv))
        else if negb (Nat.eqb (List.length Z) (List.length uv)) then Raise ValueError
        else Ok Z) ;;
  let Km := K self in
  Kinv <- inv Km ;;
  Ok (stack_jacobians Km Kinv Z uv).

(** [move(T, name)]: a copy of the camera at pose [T]; without a name the
    copy is called after the original. *)
Definition move (self : camera) (T : SE3) (name' : option string) : camera :=
  let newname := match name' with
                 | Some n => n
                 | None => (name self ++ "-moved")%string
                 end in
  Camera newname (fu self) (fv self) (rhou self) (rhov self)
         (u0 self) (v0 self) (nu self) (nv self) (noise self) T.

(** [a @ b.T] for two 3x4 matrices *)
Definition mat34_mat43 (a b : mat34) : mat33 :=
  let row (r : vec4) := V3 (dot4 r (c_0 b)) (dot4 r (c_1 b)) (dot4 r (c_2 b)) in
  M33 (row (c_0 a)) (row (c_1 a)) (row (c_2 a)).

(** [project_conic(conic)]: [C @ A @ C.T]; [None] stands for an argument
    that is not a 4x4 matrix. *)
Definition project_conic (self : camera) (conic : option mat44) : result mat33 :=
  match conic with
  | None => Raise ValueError
  | Some A => Ok (mat34_mat43 (mat34_mat44 (C self None) A) (C self None))
  end.

(** [plucker(points)]: for each image point the pair of arguments handed to
    [Line3.PointDir], a point of the ray and its direction. *)
Definition plucker (self : camera) (pts : list vec2) : result (list (vec3 * vec3)) :=
  let Cm := C self None in
  Mi <- inv (leading33 Cm) ;;
  let v := c34_3 Cm in
  Ok (map (fun point => (mat33_vec (mmap fopp Mi) v, mat33_vec Mi (e2h2 point))) pts).

(** [np.isnan(p[0])] for the result of [project_point] on one point: the
    first row of the 2x1 array. *)
Definition first_image_coordinate_is_nan (p : projection) : bool :=
  match p with
  | Image [x] => isnan (e0 x)
  | ImageVisible [x] _ => isnan (e0 x)
  | _ => true
  end.

(** The loop of [decomposeE]: the candidates are tried in order, and the
    first whose camera does not image [P] as NaN is returned; call [j] of
    [project_point] draws its noise after the calls before it.  [SE3.Rt] is
    taken as the plain constructor. *)
Fixpoint first_pose_in_front (self : camera) (rng : nat -> vec2) (P : vec3) (j : nat)
    (possibles : list (mat33 * vec3)) : option SE3 :=
  match possibles with
  | [] => None
  | (R, t) :: rest =>
      let pose := SE3_inv (Rt R t) in
      let p := project_point self (fun i => rng (j + i)%nat) (Cartesian [P])
                             (Some pose) None true false in
      if negb (first_image_coordinate_is_nan p) then Some pose
      else first_pose_in_front self rng P (S j) rest
  end.

(** [decomposeE(E, P)] with a world point [P].  [decompose] stands for
    [cv.decomposeEssentialMat], which returns two rotations and a
    translation; without a candidate that passes, the function ends without
    a value. *)
Definition possibles (decompose : mat33 -> mat33 * mat33 * vec3) (Em : mat33)
    : list (mat33 * vec3) :=
  let '(R1, R2, t) := decompose Em in
  [(R1, t); (R1, vmap fopp t); (R2, t); (R2, vmap fopp t)].

Definition decomposeE (decompose : mat33 -> mat33 * mat33 * vec3)
    (self : camera) (rng : nat -> vec2) (Em : mat33) (P : vec3) : option SE3 :=
  first_pose_in_front self rng P 0 (possibles decompose Em).

End CentralCamera.

(* ================================================================= *)
(** ** Equality of values and finiteness of arrays *)

Definition veq2 (a b : vec2) : Prop := e0 a =~ e0 b /\ e1 a =~ e1 b.
Definition veq3 (a b : vec3) : Prop := vx a =~ vx b /\ vy a =~ vy b /\ vz a =~ vz b.
Definition veq4 (a b : vec4) : Prop :=
  hx a =~ hx b /\ hy a =~ hy b /\ hz a =~ hz b /\ hw a =~ hw b.
Definition meq (a b : mat33) : Prop :=
  veq3 (r_0 a) (r_0 b) /\ veq3 (r_1 a) (r_1 b) /\ veq3 (r_2 a) (r_2 b).
Definition meq34 (a b : mat34) : Prop :=
  veq4 (c_0 a) (c_0 b) /\ veq4 (c_1 a) (c_1 b) /\ veq4 (c_2 a) (c_2 b).

Definition req {A : Type} (eqA : A -> A -> Prop) (x y : result A) : Prop :=
  match x, y with
  | Ok a, Ok b => eqA a b
  | Raise e, Raise e' => e = e'
  | _, _ => False
  end.

Definition fin3 (v : vec3) : Prop := is_fin (vx v) /\ is_fin (vy v) /\ is_fin (vz v).
Definition fin4 (v : vec4) : Prop :=
  is_fin (hx v) /\ is_fin (hy v) /\ is_fin (hz v) /\ is_fin (hw v).
Definition fin33 (m : mat33) : Prop := fin3 (r_0 m) /\ fin3 (r_1 m) /\ fin3 (r_2 m).
Definition fin34 (m : mat34) : Prop := fin4 (c_0 m) /\ fin4 (c_1 m) /\ fin4 (c_2 m).
Definition finSE3 (T : SE3) : Prop := fin33 (SE3_R T) /\ fin3 (SE3_t T).

(** Depth of a homogeneous world point in the frame of a camera at pose [T]:
    the third coordinate of [T.inv().A @ P]. *)
Definition camera_frame (T : SE3) (Pw : vec4) : vec4 :=
  mat44_vec (SE3_A (SE3_inv T)) Pw.
Definition depth (T : SE3) (Pw : vec4) : fl := hz (camera_frame T Pw).

Definition image_of (r : projection) : list vec2 :=
  match r with
  | Image x => x
  | ImageVisible x _ => x
  end.

Definition visible_of (r : projection) : list bool :=
  match r with
  | Image _ => []
  | ImageVisible _ v => v
  end.

(** The pose [project_point] works with. *)
Definition pose_used (self : camera) (pose' : option SE3) : SE3 :=
  match pose' with
  | Some T => T
  | None => pose self
  end.

(** An image point that is a number in both coordinates and lies in
    [[0, width) x [0, height)]. *)
Definition in_image (self : camera) (x : vec2) : Prop :=
  isnan (e0 x) = false /\ isnan (e1 x) = false /\
  fleb fzero (e0 x) = true /\ fltb (e0 x) (width self) = true /\
  fleb fzero (e1 x) = true /\ fltb (e1 x) (height self) = true.

Definition is_inf (x : fl) : Prop := x = PInf \/ x = NInf.

(* ================================================================= *)
(** ** Sample inputs *)

(** [CentralCamera()]: focal length 8 mm, 10 micron pixels, a 1024 x 1024
    image with the principal point at its centre, at the world origin. *)
Definition default_camera : camera :=
  Camera "perspective" (Fin (8 # 1000)) (Fin (8 # 1000))
         (Fin (10 # 1000000)) (Fin (10 # 1000000))
         (Fin 512) (Fin 512) (Fin 1024) (Fin 1024) None SE3_identity.

(** A source of noise that draws zero every time. *)
Definition no_draw : nat -> vec2 := fun _ => V2 fzero fzero.

Definition origin : vec3 := V3 fzero fzero fzero.

(** A quarter turn about the optical axis followed by a unit step along x. *)
Definition quarter_turn : mat33 :=
  M33 (V3 fzero (Fin (-1)) fzero) (V3 fone fzero fzero) (V3 fzero fzero fone).
Definition turn_and_step : SE3 := Rt quarter_turn (V3 fone fzero fzero).

Definition veq6 (a b : vec6) : Prop :=
  j0 a =~ j0 b /\ j1 a =~ j1 b /\ j2 a =~ j2 b /\
  j3 a =~ j3 b /\ j4 a =~ j4 b /\ j5 a =~ j5 b.

(** The depth that goes with point [i]: the scalar for a one-element [Z],
    entry [i] otherwise. *)
Definition depth_for (Z : list fl) (i : nat) : option fl :=
  match Z with
  | [z] => Some z
  | _ => nth_error Z i
  end.

(** The closed form of the point-feature Jacobian as the specification
    writes it: [K[:2,:2]] times the 2x6 matrix in the normalized coordinates
    [(x, y) = inv(K) @ [u; v; 1]]. *)
Definition closed_form_jacobian (Km Kinv : mat33) (z : fl) (p : vec2) : mat26 :=
  let xy := mat33_vec Kinv (V3 (e0 p) (e1 p) fone) in
  let x := vx xy in
  let y := vy xy in
  CentralCamera.mat22_mat26 (CentralCamera.K22 Km)
    (M26 (V6 (- (fone / z)) fzero (x / z) (x * y) (- (fone + x * x)) y)
         (V6 fzero (- (fone / z)) (y / z) (fone + y * y) (- (x * y)) (- x))).

(* ================================================================= *)
(** ** What the linear-algebra routines promise *)

(** Column [j] of a matrix given by rows. *)
Definition column (j : nat) (A : list (list fl)) : list fl :=
  map (fun row => nth j row fzero) A.

(** [c] is the answer of [lstsq] for the system [A c = b]: it satisfies the
    normal equations [A.T @ (A @ c - b) = 0] (it minimises the residual) and
    lies in the row space of [A] (it has the least norm among the
    minimisers). *)
Definition normal_equations (A : list (list fl)) (b c : list fl) : Prop :=
  Forall (fun j => CentralCamera.dotl (column j A) (CentralCamera.residual A c b) =~ fzero)
         (seq 0 (List.length c)).

Definition in_row_space (A : list (list fl)) (c : list fl) : Prop :=
  exists y,
    List.length y = List.length A /\
    Forall (fun j => nth j c fzero =~ CentralCamera.dotl (column j A) y)
           (seq 0 (List.length c)).

Definition lstsq_answer (A : list (list fl)) (b c : list fl) : Prop :=
  normal_equations A b c /\ in_row_space A c.

(** One correspondence: the world origin seen at pixel (3, 5). *)
Definition one_world_point : list vec3 := [origin].
Definition one_image_point : list vec2 := [V2 (Fin 3) (Fin 5)].
Definition one_pair_solution : list fl :=
  [fzero; fzero; fzero; Fin 3; fzero; fzero; fzero; Fin 5; fzero; fzero; fzero].

(** A backend that answers the system of that correspondence. *)
Definition one_pair_backend : linalg :=
  Linalg (fun _ => (eye3, V3 fone fone fone,
                    M44 (V4 fone fzero fzero fzero) (V4 fzero fone fzero fzero)
                        (V4 fzero fzero fone fzero) (V4 fzero fzero fzero fone)))
         (fun s => (eye3, s))
         (fun _ _ => Ok one_pair_solution).

(** A finite, strictly positive value. *)
Definition positive (x : fl) : Prop :=
  match x with
  | Fin q => 0 < q
  | _ => False
  end.

Definition positive_diagonal (m : mat33) : Prop :=
  positive (vx (r_0 m)) /\ positive (vy (r_1 m)) /\ positive (vz (r_2 m)).

(** An orthogonal matrix: finite, with [Q.T @ Q] the identity. *)
Definition orthogonal (Qm : mat33) : Prop :=
  fin33 Qm /\ meq (matmul (transpose Qm) Qm) eye3.

(** A rotation: orthogonal with determinant +1. *)
Definition rotation (Rm : mat33) : Prop := orthogonal Rm /\ det Rm =~ fone.


Definition upper_triangular (U : mat33) : Prop :=
  fin33 U /\ vx (r_1 U) =~ fzero /\ vx (r_2 U) =~ fzero /\ vy (r_2 U) =~ fzero.

(** [np.linalg.qr] at the matrix [S]: [S = Q @ R] with [Q] orthogonal and
    [R] upper triangular. *)
Definition qr_contract (la : linalg) (S : mat33) : Prop :=
  let (Qm, U) := qr la S in
  orthogonal Qm /\ upper_triangular U /\ meq (matmul Qm U) S.

(** [np.linalg.svd] at the 3x4 matrix [Cm]: the last row of [vh] is a unit
    vector that [Cm] sends to zero. *)
Definition svd_contract (la : linalg) (Cm : mat34) : Prop :=
  let '(_, _, vh) := svd la Cm in
  let v := t_3 vh in
  fin4 v /\
  veq3 (mat34_vec Cm v) (V3 fzero fzero fzero) /\
  dot4 v v =~ fone.

(** The matrix [qr] is called on inside [rq] when [decomposeC] is given [Cm]. *)
Definition qr_argument (Cm : mat34) : mat33 :=
  CentralCamera.flip (transpose (CentralCamera.leading33 Cm)).

(** The two routines behave as promised on the calls [decomposeC Cm] makes. *)
Definition backend_ok (la : linalg) (Cm : mat34) : Prop :=
  svd_contract la Cm /\ qr_contract la (qr_argument Cm).

(** The intrinsic matrix with focal lengths [a] and [b] in pixels and
    principal point [(u, v)]. *)
Definition intrinsic (a b u v : Q) : mat33 :=
  M33 (V3 (Fin a) fzero (Fin u)) (V3 fzero (Fin b) (Fin v)) (V3 fzero fzero fone).

(** The camera [decomposeC] builds from the RQ factors [Km], [R] and the
    centre [t] once the sign check has passed. *)
Definition decomposed_camera (Km R : mat33) (t : vec3) : camera :=
  let Cs := CentralCamera.sign_matrix Km in
  let K1 := matmul Km Cs in
  let R1 := matmul (transpose Cs) R in
  let k22 := vz (r_2 K1) in
  let K2 := mmap (fun k => k / k22) K1 in
  Camera "invC" (vx (r_0 K2)) (vx (r_0 K2)) fone (vy (r_1 K2) / vx (r_0 K2))
         (vz (r_0 K2)) (vz (r_1 K2)) (Fin 1024) (Fin 1024) None
         (Rt (transpose R1) t).


(** A value that is NaN or an infinity. *)
Definition not_a_finite_number (x : fl) : Prop := x = NaN \/ is_inf x.



(** A camera with pixels twice as tall as wide: [f = 1], [rho = (1, 2)],
    principal point at the origin, placed at x = 3/4 without rotation.
    Its intrinsic matrix is [diag(1, 1/2, 1)]. *)
Definition tall_pixel_camera : camera :=
  Camera "tall" fone fone fone (Fin 2) fzero fzero (Fin 1024) (Fin 1024) None
         (Rt eye3 (V3 (Fin (3 # 4)) fzero fzero)).

(** The factors numpy returns for the matrix of that camera: singular values
    5/4, 1 and 1/2, null vector (3/5, 0, 0, 4/5), and a [qr] that finds its
    argument already upper triangular. *)
Definition tall_pixel_backend : linalg :=
  Linalg (fun _ => (M33 (V3 fone fzero fzero) (V3 fzero fzero fone) (V3 fzero fone fzero),
                    V3 (Fin (5 # 4)) fone (Fin (1 # 2)),
                    M44 (V4 (Fin (4 # 5)) fzero fzero (Fin (- 3 # 5)))
                        (V4 fzero fzero fone fzero)
                        (V4 fzero fone fzero fzero)
                        (V4 (Fin (3 # 5)) fzero fzero (Fin (4 # 5)))))
         (fun s => (eye3, s))
         (fun _ _ => Raise LinAlgError).

(** A projection matrix built with the reflection [diag(1, 1, -1)] in place
    of a rotation (identity intrinsics, centre at the origin), and the
    factors numpy returns for it. *)
Definition mirror_matrix : mat34 :=
  M34 (V4 fone fzero fzero fzero) (V4 fzero fone fzero fzero)
      (V4 fzero fzero (Fin (-1)) fzero).

Definition mirror_backend : linalg :=
  Linalg (fun _ => (M33 (V3 fone fzero fzero) (V3 fzero fone fzero) (V3 fzero fzero (Fin (-1))),
                    V3 fone fone fone,
                    M44 (V4 fone fzero fzero fzero) (V4 fzero fone fzero fzero)
                        (V4 fzero fzero fone fzero) (V4 fzero fzero fzero fone)))
         (fun s => (eye3, s))
         (fun _ _ => Raise LinAlgError).

(** A point one unit behind the default camera, and one beside it in the
    plane of zero depth. *)
Definition point_behind : vec3 := V3 fzero fzero (Fin (-1)).
Definition point_beside : vec3 := V3 fone fzero fzero.

(** The default camera described with other units (16 mm, 20 micron pixels)
    and moved: the intrinsic matrix is the same. *)
Definition second_view : camera :=
  Camera "second" (Fin (16 # 1000)) (Fin (16 # 1000))
         (Fin (20 # 1000000)) (Fin (20 # 1000000))
         (Fin 512) (Fin 512) (Fin 1024) (Fin 1024) None turn_and_step.

(** Two image points and their depths. *)
Definition two_image_points : list vec2 :=
  [V2 (Fin 512) (Fin 512); V2 (Fin 612) (Fin 412)].
Definition two_depths : list fl := [Fin 2; Fin 4].

Definition vadd (a b : vec3) : vec3 :=
  V3 (vx a + vx b) (vy a + vy b) (vz a + vz b).

(** A point three units in front of the second view. *)
Definition point_in_front : vec3 := V3 (Fin 2) (Fin 1) (Fin 3).

Definition fin44 (m : mat44) : Prop :=
  fin4 (t_0 m) /\ fin4 (t_1 m) /\ fin4 (t_2 m) /\ fin4 (t_3 m).

(** [l.T @ a @ l] for a 3x3 matrix and [v.T @ A @ v] for a 4x4 matrix. *)
Definition quadratic_form3 (a : mat33) (l : vec3) : fl := dot3 l (mat33_vec a l).
Definition quadratic_form4 (A : mat44) (v : vec4) : fl := dot4 v (mat44_vec A v).

Definition symmetric33 (a : mat33) : Prop := meq a (transpose a).
Definition symmetric44 (A : mat44) : Prop :=
  veq4 (t_0 A) (c44_0 A) /\ veq4 (t_1 A) (c44_1 A) /\
  veq4 (t_2 A) (c44_2 A) /\ veq4 (t_3 A) (c44_3 A).

(** The matrix of the quadric [x^2 + y^2 + (z - 5)^2 = 1], a sphere in front
    of the default camera. *)
Definition sphere : mat44 :=
  M44 (V4 fone fzero fzero fzero)
      (V4 fzero fone fzero fzero)
      (V4 fzero fzero fone (Fin (-5)))
      (V4 fzero fzero (Fin (-5)) (Fin 24)).

(** Factors within the contracts for the matrix of the default camera, whose
    centre is the origin: the null vector is [(0, 0, 0, 1)] and the matrix
    handed to [qr] is already upper triangular.  [decomposeC] reads nothing
    else of the SVD. *)
Definition default_backend : linalg :=
  Linalg (fun _ => (eye3, V3 fone fone fone,
                    M44 (V4 fone fzero fzero fzero) (V4 fzero fone fzero fzero)
                        (V4 fzero fzero fone fzero) (V4 fzero fzero fzero fone)))
         (fun s => (eye3, s))
         (fun _ _ => Raise LinAlgError).

(** The first eleven entries of a 3x4 matrix, row by row: the unknowns of
    the system of [points2C]. *)
Definition entries11 (Cm : mat34) : list fl :=
  [hx (c_0 Cm); hy (c_0 Cm); hz (c_0 Cm); hw (c_0 Cm);
   hx (c_1 Cm); hy (c_1 Cm); hz (c_1 Cm); hw (c_1 Cm);
   hx (c_2 Cm); hy (c_2 Cm); hz (c_2 Cm)].

(** The matrix of a camera with identity intrinsics one unit behind the
    origin, looking along z; its last entry is 1.  Seven points in general
    position, and a backend whose [lstsq] answers with the entries of the
    matrix. *)
Definition unit_camera_matrix : mat34 :=
  M34 (V4 fone fzero fzero fzero) (V4 fzero fone fzero fzero)
      (V4 fzero fzero fone fone).

Definition calibration_target : list vec3 :=
  [V3 fzero fzero fzero; V3 fone fzero fzero; V3 fzero fone fzero;
   V3 fzero fzero fone; V3 fone fone fzero; V3 fone fzero fone;
   V3 (Fin 2) fone (Fin 3)].

Definition exact_backend : linalg :=
  Linalg (fun _ => (eye3, V3 fone fone fone,
                    M44 (V4 fone fzero fzero fzero) (V4 fzero fone fzero fzero)
                        (V4 fzero fzero fone fzero) (V4 fzero fzero fzero fone)))
         (fun s => (eye3, s))
         (fun _ _ => Ok (entries11 unit_camera_matrix)).

(** A quarter turn about the optical axis, without translation, and the
    plane [z = 1]. *)
Definition quarter_roll : SE3 := Rt quarter_turn origin.
Definition facing_plane : vec3 := V3 fzero fzero fone.

(** A homogeneous point multiplied by a number: the same point of space. *)
Definition scale4 (k : fl) (p : vec4) : vec4 :=
  V4 (k * hx p) (k * hy p) (k * hz p) (k * hw p).

(** An answer of [cv.decomposeEssentialMat]: no rotation, a quarter turn, and
    a step along the optical axis. *)
Definition sample_decompose : mat33 -> mat33 * mat33 * vec3 :=
  fun _ => (eye3, quarter_turn, V3 fzero fzero fone).

(** The same camera without pixel noise. *)
Definition noise_free (self : camera) : camera :=
  Camera (name self) (fu self) (fv self) (rhou self) (rhov self)
         (u0 self) (v0 self) (nu self) (nv self) None (pose self).

(** The default camera with a noise level, and the draws [(1, -1)],
    [(2, -2)], ... *)
Definition noisy_camera : camera :=
  Camera "noisy" (Fin (8 # 1000)) (Fin (8 # 1000))
         (Fin (10 # 1000000)) (Fin (10 # 1000000))
         (Fin 512) (Fin 512) (Fin 1024) (Fin 1024) (Some (Fin (1 # 2))) SE3_identity.

Definition counting_draw : nat -> vec2 :=
  fun i => V2 (Fin (inject_Z (Z.of_nat (S i)))) (Fin (- inject_Z (Z.of_nat (S i)))).

(* ***************************************************************** *)
(** * Properties *)

(* ================================================================= *)
(** ** Arithmetic of doubles *)

Ltac fin_destruct :=
  repeat match goal with
         | H : is_fin ?x |- _ =>
             is_var x; destruct x; simpl in H; [clear H | contradiction ..]
         end.

Ltac la_unfold :=
  cbv [ CentralCamera.C CentralCamera.K depth camera_frame pose_used
        mat34_mat44 mat33_mat34 mat34_vec mat44_vec mat44_mat44 mat33_vec
        vec4_mat44 vec3_mat34 vec_mat33 matmul transpose
        SE3_A SE3_inv SE3_mul SE3_of_A SE3_R SE3_t SE3_identity
        c44_0 c44_1 c44_2 c44_3 c34_0 c34_1 c34_2 c34_3 col0 col1 col2
        dot4 dot3 dot2 mmap vmap vscale skew eye34 eye3 e2h e2h2
        veq2 veq3 veq4 meq meq34 fin3 fin4 fin33 fin34 finSE3
        r_0 r_1 r_2 c_0 c_1 c_2 t_0 t_1 t_2 t_3
        vx vy vz hx hy hz hw e0 e1
        fadd fmul fsub fopp fzero fone feq is_fin ] in *.

Lemma feq_refl (x : fl) : x =~ x.
Proof. destruct x; simpl; auto. reflexivity. Qed.

Lemma feq_sym (x y : fl) : x =~ y -> y =~ x.
Proof. destruct x, y; simpl; auto. intros H; symmetry; exact H. Qed.

Lemma feq_trans (x y z : fl) : x =~ y -> y =~ z -> x =~ z.
Proof.
  destruct x, y, z; simpl; auto; try contradiction.
  intros H1 H2; rewrite H1; exact H2.
Qed.

Lemma Qsign_eq (a b : Q) : a == b -> Qsign a = Qsign b.
Proof. intros H; unfold Qsign; rewrite H; reflexivity. Qed.

Lemma Qsign_Eq (a : Q) : Qsign a = Eq <-> a == 0.
Proof. unfold Qsign; symmetry; apply Qeq_alt. Qed.

Lemma Qsign_Lt (a : Q) : Qsign a = Lt <-> a < 0.
Proof. unfold Qsign; symmetry; apply Qlt_alt. Qed.

Lemma Qsign_Gt (a : Q) : Qsign a = Gt <-> 0 < a.
Proof. unfold Qsign; symmetry; apply Qgt_alt. Qed.

Lemma fltb_feq_l (x y z : fl) : x =~ y -> fltb x z = fltb y z.
Proof.
  destruct x, y, z; simpl; try contradiction; auto.
  intros H; rewrite H; reflexivity.
Qed.

Lemma fdiv_nan_r (x : fl) : x / NaN = NaN.
Proof. destruct x; reflexivity. Qed.

Lemma fadd_nan_l (x : fl) : NaN + x = NaN.
Proof. destruct x; reflexivity. Qed.

Lemma fdiv_fin (a b : Q) : ~ b == 0 -> Fin a / Fin b = Fin (a / b).
Proof.
  intros Hb; simpl.
  destruct (Qsign b) eqn:Hs; auto.
  apply Qsign_Eq in Hs; contradiction.
Qed.

(* ================================================================= *)
(** ** Projection of points *)

Lemma nth_error_add_noise_from (rng : nat -> vec2) (uv : list vec2) :
  forall k i,
    nth_error (CentralCamera.add_noise_from rng k uv) i =
    option_map (fun p => V2 (e0 p + e0 (rng (k + i)%nat)) (e1 p + e1 (rng (k + i)%nat)))
               (nth_error uv i).
Proof.
  induction uv as [|p uv IH]; intros k i.
  - destruct i; reflexivity.
  - destruct i as [|i]; simpl.
    + rewrite Nat.add_0_r; reflexivity.
    + rewrite IH. replace (S k + i)%nat with (k + S i)%nat by lia. reflexivity.
Qed.

(** The third homogeneous coordinate of [C @ P] is the depth of the point
    in the camera frame, whatever the intrinsic parameters are. *)
Lemma third_coordinate_is_depth (self : camera) (T : SE3) (Pw : vec4) :
  finSE3 T -> fin4 Pw ->
  vz (mat34_vec (CentralCamera.C self (Some T)) Pw) =~ depth T Pw.
Proof.
  intros HT HP.
  destruct T as [[[a b c] [d e f] [g h i]] [tx ty tz]].
  destruct Pw as [X Y Z W].
  cbv [finSE3 fin33 fin3 fin4 SE3_R SE3_t r_0 r_1 r_2 vx vy vz hx hy hz hw] in HT, HP.
  destruct HT as [[[? [? ?]] [[? [? ?]] [? [? ?]]]] [? [? ?]]].
  destruct HP as [? [? [? ?]]].
  fin_destruct.
  la_unfold. ring.
Qed.

Lemma visible_point_spec (self : camera) (x : vec2) :
  CentralCamera.visible_point self x = true <-> in_image self x.
Proof.
  unfold CentralCamera.visible_point, in_image, fgeb, width, height.
  rewrite !andb_true_iff, negb_true_iff.
  split.
  - intros [[[[H1 H2] H3] H4] H5]. repeat split; auto.
    destruct (e1 x); simpl in *; auto; discriminate.
  - intros (H1 & _ & H2 & H3 & H4 & H5). repeat split; auto.
Qed.

Lemma behind_column (x : vec3) :
  fltb (vz x) fzero = true -> h2e (CentralCamera.mark_behind x) = V2 NaN NaN.
Proof.
  intros H. unfold CentralCamera.mark_behind. rewrite H.
  unfold h2e; simpl. rewrite !fdiv_nan_r. reflexivity.
Qed.

Lemma nth_error_add_noise (self : camera) (rng : nat -> vec2) (uv : list vec2) (i : nat) :
  nth_error uv i = Some (V2 NaN NaN) ->
  nth_error (CentralCamera.add_noise_distortion self rng uv) i = Some (V2 NaN NaN).
Proof.
  intros H. unfold CentralCamera.add_noise_distortion.
  destruct (noise self); auto.
  rewrite nth_error_add_noise_from, H. reflexivity.
Qed.

Lemma project_point_image (self : camera) (rng : nat -> vec2) (P : points)
    (pose' objpose : option SE3) (behind visibility : bool) :
  image_of (CentralCamera.project_point self rng P pose' objpose behind visibility) =
  CentralCamera.add_noise_distortion self rng
    (map h2e
       (let x := map (mat34_vec (CentralCamera.C self (Some (pose_used self pose'))))
                     (CentralCamera.world_points P objpose) in
        if behind then map CentralCamera.mark_behind x else x)).
Proof.
  unfold CentralCamera.project_point, pose_used.
  destruct visibility; reflexivity.
Qed.

Lemma project_point_visible (self : camera) (rng : nat -> vec2) (P : points)
    (pose' objpose : option SE3) (behind : bool) :
  visible_of (CentralCamera.project_point self rng P pose' objpose behind true) =
  map (CentralCamera.visible_point self)
      (image_of (CentralCamera.project_point self rng P pose' objpose behind true)).
Proof. reflexivity. Qed.

(** C2.  A point whose depth in the camera frame is negative projects, with
    the behind check on, to NaN in both coordinates and is reported not
    visible; and the boolean of any point is true exactly when its image
    point is a number inside [[0, width) x [0, height)]. *)
Theorem project_point_behind_sentinel :
  (forall (self : camera) (rng : nat -> vec2) (P : points)
          (pose' objpose : option SE3) (visibility : bool) (i : nat) (Pw : vec4),
      finSE3 (pose_used self pose') ->
      fin4 Pw ->
      nth_error (CentralCamera.world_points P objpose) i = Some Pw ->
      fltb (depth (pose_used self pose') Pw) fzero = true ->
      nth_error (image_of (CentralCamera.project_point
                             self rng P pose' objpose true visibility)) i
        = Some (V2 NaN NaN)
      /\ nth_error (visible_of (CentralCamera.project_point
                                  self rng P pose' objpose true true)) i
        = Some false)
  /\
  (forall (self : camera) (rng : nat -> vec2) (P : points)
          (pose' objpose : option SE3) (behind : bool) (i : nat),
      let r := CentralCamera.project_point self rng P pose' objpose behind true in
      match nth_error (image_of r) i, nth_error (visible_of r) i with
      | Some x, Some b => b = true <-> in_image self x
      | None, None => True
      | _, _ => False
      end).
Proof.
  split.
  - intros self rng P pose' objpose visibility i Pw HT HP Hi Hd.
    assert (Himg : forall vis,
               nth_error (image_of (CentralCamera.project_point
                                      self rng P pose' objpose true vis)) i
               = Some (V2 NaN NaN)).
    { intros vis. rewrite project_point_image. cbv zeta.
      apply nth_error_add_noise.
      rewrite !nth_error_map, Hi. simpl. f_equal.
      apply behind_column.
      rewrite (fltb_feq_l _ _ _ (third_coordinate_is_depth self _ Pw HT HP)).
      exact Hd. }
    split; [apply Himg|].
    rewrite project_point_visible, nth_error_map, Himg. reflexivity.
  - intros self rng P pose' objpose behind i r. subst r.
    rewrite project_point_visible, nth_error_map.
    destruct (nth_error _ i) as [x|]; simpl; auto.
    apply visible_point_spec.
Qed.

Lemma C_finite (self : camera) (T : SE3) :
  fin33 (CentralCamera.K self) -> finSE3 T -> fin34 (CentralCamera.C self (Some T)).
Proof.
  unfold CentralCamera.C. generalize (CentralCamera.K self) as Km.
  intros Km HK HT.
  destruct Km as [[a b c] [d e f] [g h i]].
  destruct T as [[[ra rb rc] [rd re rf] [rg rh ri]] [tx ty tz]].
  cbv [finSE3 fin33 fin3 SE3_R SE3_t r_0 r_1 r_2 vx vy vz] in HK, HT.
  destruct HK as [[? [? ?]] [[? [? ?]] [? [? ?]]]].
  destruct HT as [[[? [? ?]] [[? [? ?]] [? [? ?]]]] [? [? ?]]].
  fin_destruct. la_unfold. tauto.
Qed.

Lemma mat34_vec_finite (Cm : mat34) (Pw : vec4) :
  fin34 Cm -> fin4 Pw -> fin3 (mat34_vec Cm Pw).
Proof.
  intros HC HP.
  destruct Cm as [[a b c d] [e f g h] [i j k l]]. destruct Pw as [X Y Z W].
  cbv [fin34 fin4 c_0 c_1 c_2 hx hy hz hw] in HC, HP.
  destruct HC as [[? [? [? ?]]] [[? [? [? ?]]] [? [? [? ?]]]]].
  destruct HP as [? [? [? ?]]].
  fin_destruct. la_unfold. tauto.
Qed.

Lemma fdiv_by_zero (a c : Q) :
  c == 0 ->
  (a == 0 -> Fin a / Fin c = NaN) /\ (~ a == 0 -> is_inf (Fin a / Fin c)).
Proof.
  intros Hc. apply Qsign_Eq in Hc. simpl. rewrite Hc.
  split; intros Ha.
  - apply Qsign_Eq in Ha. rewrite Ha. reflexivity.
  - destruct (Qsign a) eqn:Hs.
    + apply Qsign_Eq in Hs. contradiction.
    + right; reflexivity.
    + left; reflexivity.
Qed.

Lemma fadd_fin_r (x y : fl) :
  is_fin y -> (x = NaN -> x + y = NaN) /\ (is_inf x -> is_inf (x + y)).
Proof.
  intros Hy. destruct y; simpl in Hy; try contradiction.
  split.
  - intros ->. reflexivity.
  - intros [-> | ->]; [left | right]; reflexivity.
Qed.

(** C10 as the code has it.  A point at depth exactly zero is not marked
    by the behind check; the division by the zero third coordinate makes a
    coordinate infinite when the matching homogeneous coordinate of [C @ P]
    is not zero, and NaN when it is zero. *)
Theorem project_point_zero_depth :
  forall (self : camera) (rng : nat -> vec2) (P : points)
         (pose' objpose : option SE3) (visibility : bool) (i : nat) (Pw : vec4),
    finSE3 (pose_used self pose') ->
    fin33 (CentralCamera.K self) ->
    fin4 Pw ->
    (forall k, is_fin (e0 (rng k)) /\ is_fin (e1 (rng k))) ->
    nth_error (CentralCamera.world_points P objpose) i = Some Pw ->
    depth (pose_used self pose') Pw =~ fzero ->
    let x := mat34_vec (CentralCamera.C self (Some (pose_used self pose'))) Pw in
    CentralCamera.mark_behind x = x /\
    exists y,
      nth_error (image_of (CentralCamera.project_point
                             self rng P pose' objpose true visibility)) i = Some y /\
      (vx x =~ fzero -> e0 y = NaN) /\ (~ vx x =~ fzero -> is_inf (e0 y)) /\
      (vy x =~ fzero -> e1 y = NaN) /\ (~ vy x =~ fzero -> is_inf (e1 y)).
Proof.
  intros self rng P pose' objpose visibility i Pw HT HK HP Hrng Hi Hd x.
  pose proof (third_coordinate_is_depth self _ Pw HT HP) as Hz.
  pose proof (mat34_vec_finite _ Pw (C_finite self _ HK HT) HP) as Hx.
  fold x in Hz, Hx.
  rewrite project_point_image. cbv zeta. fold x.
  assert (Hth : nth_error
                  (map h2e
                     (map CentralCamera.mark_behind
                        (map (mat34_vec (CentralCamera.C self (Some (pose_used self pose'))))
                           (CentralCamera.world_points P objpose)))) i
                = Some (h2e (CentralCamera.mark_behind x))).
  { rewrite !nth_error_map, Hi. reflexivity. }
  clearbody x.
  destruct x as [a b c]. destruct Hx as [Ha [Hb Hc]].
  cbv [vx vy vz] in *.
  destruct a as [qa| | |], b as [qb| | |], c as [qc| | |];
    simpl in Ha, Hb, Hc; try contradiction.
  assert (Hc0 : qc == 0).
  { apply feq_trans with (1 := Hz) in Hd. exact Hd. }
  assert (Hmark : CentralCamera.mark_behind (V3 (Fin qa) (Fin qb) (Fin qc))
                  = V3 (Fin qa) (Fin qb) (Fin qc)).
  { unfold CentralCamera.mark_behind. cbv [vz fltb fzero].
    apply Qeq_alt in Hc0. rewrite Hc0. reflexivity. }
  split; [exact Hmark|].
  rewrite Hmark in Hth.
  change (h2e (V3 (Fin qa) (Fin qb) (Fin qc)))
    with (V2 (Fin qa / Fin qc) (Fin qb / Fin qc)) in Hth.
  destruct (fdiv_by_zero qa qc Hc0) as [Hu0 Hu1].
  destruct (fdiv_by_zero qb qc Hc0) as [Hv0 Hv1].
  unfold CentralCamera.add_noise_distortion.
  destruct (noise self).
  - rewrite nth_error_add_noise_from, Hth. simpl option_map.
    eexists; split; [reflexivity|]. cbv [e0 e1 feq fzero].
    destruct (Hrng (0 + i)%nat) as [Hr0 Hr1].
    destruct (fadd_fin_r (Fin qa / Fin qc) _ Hr0) as [Hn0 Hi0].
    destruct (fadd_fin_r (Fin qb / Fin qc) _ Hr1) as [Hn1 Hi1].
    repeat split; intros; auto.
  - rewrite Hth. eexists; split; [reflexivity|]. cbv [e0 e1 feq fzero].
    repeat split; intros; auto.
Qed.

(** C10, counterexample.  The camera centre has depth zero and projects to
    NaN in both coordinates, not to an infinity. *)
Lemma project_point_zero_depth_nan :
  depth (pose default_camera) (e2h origin) =~ fzero /\
  CentralCamera.project_point default_camera no_draw (Cartesian [origin])
                              None None true false
  = Image [V2 NaN NaN].
Proof. split; vm_compute; reflexivity. Qed.

(* ================================================================= *)
(** ** Essential and fundamental matrices *)

Lemma fopp_compat (x x' : fl) : x =~ x' -> - x =~ - x'.
Proof.
  destruct x, x'; simpl; try contradiction; auto.
  intros H; rewrite H; reflexivity.
Qed.

Lemma fadd_compat (x x' y y' : fl) : x =~ x' -> y =~ y' -> x + y =~ x' + y'.
Proof.
  destruct x, x', y, y'; simpl; try contradiction; auto.
  intros H1 H2; rewrite H1, H2; reflexivity.
Qed.

Lemma fsub_compat (x x' y y' : fl) : x =~ x' -> y =~ y' -> x - y =~ x' - y'.
Proof. intros H1 H2. apply fadd_compat; [exact H1 | apply fopp_compat; exact H2]. Qed.

Lemma inf_times_compat (s : bool) (a a' : Q) :
  a == a' -> inf_times s a =~ inf_times s a'.
Proof.
  intros H. unfold inf_times. rewrite (Qsign_eq a a' H). apply feq_refl.
Qed.

Lemma fmul_compat (x x' y y' : fl) : x =~ x' -> y =~ y' -> x * y =~ x' * y'.
Proof.
  destruct x, x', y, y'; simpl; try contradiction; auto;
    try (intros; apply inf_times_compat; assumption).
  intros H1 H2; rewrite H1, H2; reflexivity.
Qed.

Lemma fdiv_compat (x x' y y' : fl) : x =~ x' -> y =~ y' -> x / y =~ x' / y'.
Proof.
  destruct x as [a| | |], x' as [a'| | |], y as [b| | |], y' as [b'| | |];
    simpl; try contradiction; auto; try reflexivity.
  - intros H1 H2. rewrite (Qsign_eq a a' H1), (Qsign_eq b b' H2).
    destruct (Qsign b') eqn:Hb.
    + apply feq_refl.
    + simpl. rewrite H1, H2. reflexivity.
    + simpl. rewrite H1, H2. reflexivity.
  - intros _ H2. rewrite (Qsign_eq b b' H2). apply feq_refl.
  - intros _ H2. rewrite (Qsign_eq b b' H2). apply feq_refl.
Qed.

Ltac feq_auto :=
  repeat first
    [ assumption
    | apply feq_refl
    | apply fadd_compat
    | apply fsub_compat
    | apply fmul_compat
    | apply fdiv_compat
    | apply fopp_compat ].

Ltac open_meq :=
  repeat match goal with
         | H : meq _ _ |- _ =>
             cbv [meq veq3 r_0 r_1 r_2 vx vy vz] in H;
             destruct H as [[? [? ?]] [[? [? ?]] [? [? ?]]]]
         end.

Lemma meq_refl (a : mat33) : meq a a.
Proof. repeat split; apply feq_refl. Qed.

Lemma matmul_compat (a a' b b' : mat33) :
  meq a a' -> meq b b' -> meq (matmul a b) (matmul a' b').
Proof.
  intros Ha Hb.
  destruct a as [[? ? ?] [? ? ?] [? ? ?]], a' as [[? ? ?] [? ? ?] [? ? ?]].
  destruct b as [[? ? ?] [? ? ?] [? ? ?]], b' as [[? ? ?] [? ? ?] [? ? ?]].
  open_meq.
  cbv [meq veq3 matmul vec_mat33 dot3 col0 col1 col2 r_0 r_1 r_2 vx vy vz].
  repeat split; feq_auto.
Qed.

Lemma transpose_compat (a a' : mat33) : meq a a' -> meq (transpose a) (transpose a').
Proof.
  intros Ha.
  destruct a as [[? ? ?] [? ? ?] [? ? ?]], a' as [[? ? ?] [? ? ?] [? ? ?]].
  open_meq.
  cbv [meq veq3 transpose col0 col1 col2 r_0 r_1 r_2 vx vy vz].
  repeat split; assumption.
Qed.

Lemma det_compat (a a' : mat33) : meq a a' -> det a =~ det a'.
Proof.
  intros Ha.
  destruct a as [[? ? ?] [? ? ?] [? ? ?]], a' as [[? ? ?] [? ? ?] [? ? ?]].
  open_meq. unfold det. feq_auto.
Qed.

Lemma inv_compat (a a' : mat33) : meq a a' -> req meq (inv a) (inv a').
Proof.
  intros Ha. pose proof (det_compat a a' Ha) as Hd.
  destruct a as [[a b c] [d e f] [g h i]], a' as [[a' b' c'] [d' e' f'] [g' h' i']].
  unfold inv.
  destruct (det (M33 (V3 a b c) (V3 d e f) (V3 g h i))) as [q| | |] eqn:E1;
    destruct (det (M33 (V3 a' b' c') (V3 d' e' f') (V3 g' h' i'))) as [q'| | |] eqn:E2;
    simpl in Hd; try contradiction;
    try (simpl; repeat split; exact I).
  rewrite (Qsign_eq q q' Hd).
  open_meq.
  destruct (Qsign q'); simpl req; auto;
    cbv [meq veq3 r_0 r_1 r_2 vx vy vz]; repeat split; feq_auto.
Qed.

(** C8.  For two views with the same intrinsic matrix, [C1.F(C2)] is
    [inv(K).T @ E @ inv(K)] with [E = C1.E(C2)]. *)
Theorem F_is_E_between_inverse_intrinsics :
  forall (c1 c2 : camera),
    meq (CentralCamera.K c1) (CentralCamera.K c2) ->
    req meq
        (CentralCamera.F c1 (ViewCamera c2))
        (Em <- CentralCamera.E c1 (ViewCamera c2) ;;
         Kinv <- inv (CentralCamera.K c1) ;;
         Ok (matmul (matmul (transpose Kinv) Em) Kinv)).
Proof.
  intros c1 c2 HK.
  unfold CentralCamera.F, CentralCamera.E.
  pose proof (inv_compat _ _ HK) as Hinv.
  generalize dependent (CentralCamera.K c2).
  generalize dependent (CentralCamera.K c1).
  intros K1 K2 HK Hinv. cbv [bind].
  destruct (inv K1) as [k1|e1]; destruct (inv K2) as [k2|e2];
    cbv [req] in Hinv |- *; try contradiction.
  - apply matmul_compat; [apply matmul_compat|].
    + apply transpose_compat.
      destruct k1 as [[? ? ?] [? ? ?] [? ? ?]], k2 as [[? ? ?] [? ? ?] [? ? ?]].
      open_meq. cbv [meq veq3 r_0 r_1 r_2 vx vy vz].
      repeat split; apply feq_sym; assumption.
    + apply meq_refl.
    + apply meq_refl.
  - congruence.
Qed.

(* ================================================================= *)
(** ** Homography of a plane *)

(** The guard of [H] as written: a negative distance or a normal with a
    negative third component is refused. *)
Lemma H_guard (self : camera) (T : SE3) (N : vec3) (d : fl) :
  fltb d fzero = true \/ fltb (vz N) fzero = true ->
  CentralCamera.H self T N d = Raise ValueError.
Proof.
  unfold CentralCamera.H. intros [Hd | HN].
  - rewrite Hd. reflexivity.
  - rewrite HN. destruct (fltb d fzero); reflexivity.
Qed.

(** A zero distance passes the guard, whose test is [d < 0], and reaches
    the division [1.0 / d]. *)
Lemma H_zero_distance (self : camera) (T : SE3) (N : vec3) :
  fltb (vz N) fzero = false ->
  CentralCamera.H self T N (Fin 0) = Raise ZeroDivisionError.
Proof.
  intros HN. unfold CentralCamera.H. rewrite HN. reflexivity.
Qed.

(** C7 at [d = 0]: for the default camera, no motion and a plane facing the
    camera, the guard lets the call through and the division by [d] is what
    fails. *)
Theorem H_zero_distance_is_divided_by :
  CentralCamera.H default_camera SE3_identity (V3 fzero fzero fone) (Fin 0)
  = Raise ZeroDivisionError.
Proof. reflexivity. Qed.

(* ================================================================= *)
(** ** Image Jacobian *)

Lemma Qsign_opp (a : Q) : Qsign (- a) = CompOpp (Qsign a).
Proof.
  destruct (Qsign a) eqn:Ha; simpl.
  - apply (proj1 (Qsign_Eq a)) in Ha. apply Qsign_Eq. rewrite Ha. ring.
  - apply (proj1 (Qsign_Lt a)) in Ha. apply Qsign_Gt. lra.
  - apply (proj1 (Qsign_Gt a)) in Ha. apply Qsign_Lt. lra.
Qed.

Lemma inf_times_neg (s : bool) (a : Q) : inf_times s (- a) = - inf_times s a.
Proof.
  unfold inf_times. rewrite Qsign_opp.
  destruct (Qsign a), s; reflexivity.
Qed.

Lemma fopp_fmul_l (x y : fl) : (- x) * y =~ - (x * y).
Proof.
  destruct x as [a| | |], y as [b| | |]; cbv [fopp fmul]; fold fopp;
    try rewrite inf_times_neg; try apply feq_refl.
  - simpl. ring.
  - unfold inf_times. destruct (Qsign b); simpl; auto.
  - unfold inf_times. destruct (Qsign b); simpl; auto.
Qed.

Lemma minus_one_over (z : fl) : Fin (-1) / z =~ - (fone / z).
Proof.
  destruct z as [c| | |]; try (simpl; auto; reflexivity).
  cbv [fdiv fone].
  replace (Qsign (-1)) with Lt by reflexivity.
  replace (Qsign 1) with Gt by reflexivity.
  destruct (Qsign c) eqn:Hc; simpl; auto.
  - field. intros H. apply Qsign_Eq in H. congruence.
  - field. intros H. apply Qsign_Eq in H. congruence.
Qed.

Lemma point_jacobian_closed_form (Km Kinv : mat33) (z : fl) (p : vec2) :
  veq6 (l_0 (CentralCamera.point_jacobian Km Kinv z p))
       (l_0 (closed_form_jacobian Km Kinv z p)) /\
  veq6 (l_1 (CentralCamera.point_jacobian Km Kinv z p))
       (l_1 (closed_form_jacobian Km Kinv z p)).
Proof.
  unfold CentralCamera.point_jacobian, closed_form_jacobian, e2h2.
  cbv zeta.
  generalize (vx (mat33_vec Kinv (V3 (e0 p) (e1 p) fone))) as x.
  generalize (vy (mat33_vec Kinv (V3 (e0 p) (e1 p) fone))) as y.
  intros y x.
  cbv [CentralCamera.mat22_mat26 veq6 l_0 l_1 j0 j1 j2 j3 j4 j5 dot2 e0 e1].
  pose proof (minus_one_over z). pose proof (fopp_fmul_l x y).
  repeat split; feq_auto.
Qed.

Lemma stack_jacobians_length (Km Kinv : mat33) (Z : list fl) :
  forall uv, List.length Z = List.length uv ->
    List.length (CentralCamera.stack_jacobians Km Kinv Z uv) = (2 * List.length uv)%nat.
Proof.
  induction Z as [|z Z IH]; intros [|p uv] Hlen; simpl in *; try lia.
  rewrite IH by lia. lia.
Qed.

Lemma stack_jacobians_nth (Km Kinv : mat33) (Z : list fl) :
  forall uv i z p,
    nth_error Z i = Some z -> nth_error uv i = Some p ->
    nth_error (CentralCamera.stack_jacobians Km Kinv Z uv) (2 * i)
      = Some (l_0 (CentralCamera.point_jacobian Km Kinv z p)) /\
    nth_error (CentralCamera.stack_jacobians Km Kinv Z uv) (2 * i + 1)
      = Some (l_1 (CentralCamera.point_jacobian Km Kinv z p)).
Proof.
  induction Z as [|z0 Z IH]; intros uv i z p Hz Hp.
  - destruct i; discriminate.
  - destruct uv as [|p0 uv]; [destruct i; discriminate|].
    destruct i as [|i].
    + simpl in Hz, Hp. injection Hz as ->. injection Hp as ->.
      split; reflexivity.
    + simpl in Hz, Hp.
      destruct (IH uv i z p Hz Hp) as [H0 H1].
      replace (2 * S i)%nat with (S (S (2 * i))) by lia.
      replace (S (S (2 * i)) + 1)%nat with (S (S (2 * i + 1))) by lia.
      simpl CentralCamera.stack_jacobians.
      split; simpl nth_error; assumption.
Qed.

Lemma nth_error_repeat {A : Type} (a : A) (n i : nat) :
  (i < n)%nat -> nth_error (repeat a n) i = Some a.
Proof.
  revert i; induction n as [|n IH]; intros i Hi; [lia|].
  destruct i as [|i]; simpl; auto. apply IH. lia.
Qed.

(** C9.  [visjac_p] fails when the depth vector has neither one entry nor
    one entry per point.  Otherwise (for an invertible [K]) it returns [2N]
    rows of six entries, and rows [2i] and [2i+1] are the two rows of the
    closed-form Jacobian of point [i] at its depth. *)
Theorem visjac_p_contract :
  forall (self : camera) (uv : list vec2) (Z : list fl),
    (List.length Z <> 1%nat /\ List.length Z <> List.length uv ->
     CentralCamera.visjac_p self uv Z = Raise ValueError)
    /\
    (List.length Z = 1%nat \/ List.length Z = List.length uv ->
     forall Kinv, inv (CentralCamera.K self) = Ok Kinv ->
       exists L,
         CentralCamera.visjac_p self uv Z = Ok L /\
         List.length L = (2 * List.length uv)%nat /\
         forall i p, nth_error uv i = Some p ->
           exists z r0 r1,
             depth_for Z i = Some z /\
             nth_error L (2 * i) = Some r0 /\
             nth_error L (2 * i + 1) = Some r1 /\
             veq6 r0 (l_0 (closed_form_jacobian (CentralCamera.K self) Kinv z p)) /\
             veq6 r1 (l_1 (closed_form_jacobian (CentralCamera.K self) Kinv z p))).
Proof.
  intros self uv Z. unfold CentralCamera.visjac_p. split.
  - intros [H1 HN].
    apply Nat.eqb_neq in H1. apply Nat.eqb_neq in HN.
    rewrite H1, HN. reflexivity.
  - intros Hlen Kinv HK.
    set (Km := CentralCamera.K self) in *.
    assert (HZ : exists Z',
               (if Nat.eqb (List.length Z) 1
                then Ok (repeat (hd fzero Z) (List.length uv))
                else if negb (Nat.eqb (List.length Z) (List.length uv))
                     then Raise ValueError else Ok Z) = Ok Z' /\
               List.length Z' = List.length uv /\
               forall i, (i < List.length uv)%nat -> nth_error Z' i = depth_for Z i).
    { destruct (Nat.eqb (List.length Z) 1) eqn:E1.
      - apply Nat.eqb_eq in E1.
        destruct Z as [|z [|z' Z]]; try discriminate E1.
        exists (repeat z (List.length uv)). simpl hd.
        split; [reflexivity|]. split; [apply repeat_length|].
        intros i Hi. simpl. apply nth_error_repeat. exact Hi.
      - apply Nat.eqb_neq in E1.
        destruct Hlen as [Hlen|Hlen]; [contradiction|].
        rewrite (proj2 (Nat.eqb_eq _ _) Hlen). simpl.
        exists Z. split; [reflexivity|]. split; [exact Hlen|].
        intros i _. unfold depth_for.
        destruct Z as [|z [|z' Z]]; try reflexivity.
        simpl in E1. congruence. }
    destruct HZ as (Z' & -> & HlenZ & Hnth).
    cbv [bind]. rewrite HK.
    eexists. split; [reflexivity|].
    split; [apply stack_jacobians_length; exact HlenZ|].
    intros i p Hp.
    assert (Hi : (i < List.length uv)%nat).
    { apply nth_error_Some. congruence. }
    destruct (nth_error Z' i) as [z|] eqn:Hz.
    2:{ apply nth_error_None in Hz. lia. }
    destruct (stack_jacobians_nth Km Kinv Z' uv i z p Hz Hp) as [H0 H1].
    destruct (point_jacobian_closed_form Km Kinv z p) as [C0 C1].
    exists z, (l_0 (CentralCamera.point_jacobian Km Kinv z p)),
      (l_1 (CentralCamera.point_jacobian Km Kinv z p)).
    rewrite <- Hnth by exact Hi.
    repeat (split; [assumption|]); assumption.
Qed.

(* ================================================================= *)
(** ** Calibration from points *)

Lemma dlt_system_rows (p : list vec2) :
  forall P,
    List.length (fst (CentralCamera.dlt_system p P))
    = (2 * Nat.min (List.length p) (List.length P))%nat.
Proof.
  induction p as [|uv p IH]; intros [|X P]; simpl; auto.
  specialize (IH P).
  destruct (CentralCamera.dlt_system p P) as [A b]. simpl in *. lia.
Qed.

(** C6 as the code has it.  [points2C] does not look at the number of
    correspondences: the system has two rows per pair, and whenever the
    least-squares routine returns eleven coefficients the call returns the
    3x4 matrix made of them and a final 1, together with the residual. *)
Theorem points2C_returns_whenever_lstsq_does :
  forall (la : linalg) (P : list vec3) (p : list vec2) (c : list fl),
    let A := fst (CentralCamera.dlt_system p P) in
    let b := snd (CentralCamera.dlt_system p P) in
    lstsq la A b = Ok c ->
    List.length c = 11%nat ->
    List.length A = (2 * Nat.min (List.length p) (List.length P))%nat /\
    exists Cm,
      CentralCamera.reshape34 (c ++ [fone]) = Ok Cm /\
      hw (c_2 Cm) = fone /\
      CentralCamera.points2C la P p = Ok (Cm, CentralCamera.residual A c b).
Proof.
  intros la P p c A b Hc Hlen. subst A b.
  split; [apply dlt_system_rows|].
  unfold CentralCamera.points2C.
  destruct (CentralCamera.dlt_system p P) as [A b]. simpl in Hc |- *.
  rewrite Hc. cbv [bind].
  do 11 (destruct c as [|? c]; [discriminate Hlen|]).
  destruct c; [|discriminate Hlen].
  simpl. eexists. split; [reflexivity|]. split; reflexivity.
Qed.

(** C6, counterexample.  With a single correspondence the solver's answer
    is the least-norm solution of the 2 x 11 system, and [points2C] returns
    a 3x4 matrix. *)
Lemma points2C_accepts_one_pair :
  (List.length one_world_point < 6)%nat /\
  lstsq_answer (fst (CentralCamera.dlt_system one_image_point one_world_point))
               (snd (CentralCamera.dlt_system one_image_point one_world_point))
               one_pair_solution /\
  CentralCamera.points2C one_pair_backend one_world_point one_image_point
  = Ok (M34 (V4 fzero fzero fzero (Fin 3))
            (V4 fzero fzero fzero (Fin 5))
            (V4 fzero fzero fzero fone),
        CentralCamera.residual
          (fst (CentralCamera.dlt_system one_image_point one_world_point))
          one_pair_solution
          (snd (CentralCamera.dlt_system one_image_point one_world_point))).
Proof.
  split; [simpl; lia|]. split.
  - split.
    + unfold normal_equations. vm_compute.
      repeat (constructor; [reflexivity|]). constructor.
    + exists [Fin 3; Fin 5]. split; [reflexivity|].
      vm_compute. repeat (constructor; [reflexivity|]). constructor.
  - reflexivity.
Qed.

(* ================================================================= *)
(** ** Decomposition of the projection matrix *)

Lemma sign_matrix_close (a b c : Q) (k01 k02 k10 k12 k20 k21 : fl) :
  let Km := M33 (V3 (Fin a) k01 k02) (V3 k10 (Fin b) k12) (V3 k20 k21 (Fin c)) in
  isclose (det (CentralCamera.sign_matrix Km)) fone = true <->
  det (CentralCamera.sign_matrix Km) =~ fone.
Proof.
  intros Km. subst Km.
  cbv [CentralCamera.sign_matrix r_0 r_1 r_2 vx vy vz sign].
  destruct (Qsign a), (Qsign b), (Qsign c); vm_compute; split; intros H; try discriminate H; auto.
Qed.

Lemma Qdiv_pos (a b : Q) : (0 < a)%Q -> (0 < b)%Q -> (0 < a / b)%Q.
Proof.
  intros Ha Hb. apply Qlt_shift_div_l; [exact Hb|]. lra.
Qed.

Lemma pos_nonzero (q : Q) : (0 < q)%Q -> ~ (q == 0)%Q.
Proof. intros H E. rewrite E in H. apply (Qlt_irrefl 0). exact H. Qed.

Ltac sign_facts :=
  repeat match goal with
         | H : Qsign ?x = Lt |- _ => apply (proj1 (Qsign_Lt x)) in H
         | H : Qsign ?x = Gt |- _ => apply (proj1 (Qsign_Gt x)) in H
         | H : Qsign ?x = Eq |- _ => apply (proj1 (Qsign_Eq x)) in H
         end.

Ltac pos_solve := repeat apply Qdiv_pos; lra.

Lemma decomposeC_unfold (la : linalg) (Cm : mat34) (Km R : mat33) :
  CentralCamera.rq la (CentralCamera.leading33 Cm) = (Km, R) ->
  CentralCamera.decomposeC la Cm =
  (let t := CentralCamera.camera_centre la Cm in
   let Cs := CentralCamera.sign_matrix Km in
   if negb (isclose (det Cs) fone) then Raise RuntimeError
   else
     let Km := matmul Km Cs in
     let R := matmul (transpose Cs) R in
     let k22 := vz (r_2 Km) in
     let Km := mmap (fun k => k / k22) Km in
     let f := vx (r_0 Km) in
     let s := [fone; vy (r_1 Km) / vx (r_0 Km)] in
     CentralCamera.init "invC"%string [f] s CentralCamera.default_imagesize
          (Some (V2 (vz (r_0 Km)) (vz (r_1 Km)))) None
          (Some (Rt (transpose R) t))).
Proof.
  intros H. unfold CentralCamera.decomposeC. rewrite H. reflexivity.
Qed.

(** C5.  When the sign-correction matrix built from the diagonal of the RQ
    factor [K] has a determinant other than +1, [decomposeC] raises the
    decomposition error; when the determinant is +1 a camera is returned and
    the diagonal of its intrinsic matrix is positive. *)
Theorem decomposeC_sign_correction :
  forall (la : linalg) (Cm : mat34) (Km R : mat33),
    CentralCamera.rq la (CentralCamera.leading33 Cm) = (Km, R) ->
    fin33 Km ->
    (~ det (CentralCamera.sign_matrix Km) =~ fone ->
     CentralCamera.decomposeC la Cm = Raise RuntimeError)
    /\
    (det (CentralCamera.sign_matrix Km) =~ fone ->
     exists cam,
       CentralCamera.decomposeC la Cm = Ok cam /\
       positive_diagonal (CentralCamera.K cam)).
Proof.
  intros la Cm Km R Hrq HK.
  rewrite (decomposeC_unfold la Cm Km R Hrq). cbv zeta.
  destruct Km as [[a b c] [d e f] [g h i]].
  cbv [fin33 fin3 r_0 r_1 r_2 vx vy vz] in HK.
  destruct HK as [[? [? ?]] [[? [? ?]] [? [? ?]]]].
  destruct a as [a| | |]; try contradiction.
  destruct b as [b| | |]; try contradiction.
  destruct c as [c| | |]; try contradiction.
  destruct d as [d| | |]; try contradiction.
  destruct e as [e| | |]; try contradiction.
  destruct f as [f| | |]; try contradiction.
  destruct g as [g| | |]; try contradiction.
  destruct h as [h| | |]; try contradiction.
  destruct i as [i| | |]; try contradiction.
  pose proof (sign_matrix_close a e i (Fin b) (Fin c) (Fin d) (Fin f) (Fin g) (Fin h)) as Hclose.
  cbv zeta in Hclose.
  split; intros Hdet.
  - destruct (isclose _ fone); [|reflexivity].
    exfalso. apply Hdet. apply Hclose. reflexivity.
  - rewrite (proj2 Hclose Hdet). cbv [negb].
    clear Hclose.
    cbv [CentralCamera.sign_matrix r_0 r_1 r_2 vx vy vz sign] in Hdet |- *.
    destruct (Qsign a) eqn:Ha, (Qsign e) eqn:He, (Qsign i) eqn:Hi;
      try (exfalso; vm_compute in Hdet; discriminate Hdet).
    all: sign_facts.
    all: cbv [matmul vec_mat33 dot3 col0 col1 col2 mmap vmap transpose
                r_0 r_1 r_2 vx vy vz fmul fadd fzero fone].
    all: rewrite !fdiv_fin by (apply pos_nonzero; pos_solve).
    all: cbv [CentralCamera.init bind CentralCamera.default_imagesize fst snd e0 e1].
    all: eexists; (split; [reflexivity|]).
    all: cbv [CentralCamera.K positive_diagonal positive fu fv rhou rhov u0 v0
                r_0 r_1 r_2 vx vy vz fone].
    all: rewrite !fdiv_fin by (apply pos_nonzero; pos_solve).
    all: repeat split; pos_solve.
Qed.

Ltac open_fin33 M H :=
  destruct M as [[? ? ?] [? ? ?] [? ? ?]];
  cbv [fin33 fin3 r_0 r_1 r_2 vx vy vz] in H;
  destruct H as [[? [? ?]] [[? [? ?]] [? [? ?]]]];
  fin_destruct.

Ltac q_goals :=
  cbv [orthogonal upper_triangular fin33 fin3 meq veq3 matmul vec_mat33 transpose
       CentralCamera.flip CentralCamera.neg_col0 CentralCamera.neg_row0
       mat33_vec dot3 col0 col1 col2 eye3 det
       r_0 r_1 r_2 vx vy vz fadd fmul fsub fopp fzero fone feq is_fin] in *.

Lemma fltb_fin (a b : Q) : fltb (Fin a) (Fin b) = true <-> (a < b)%Q.
Proof.
  simpl. destruct (Qcompare_spec a b) as [H|H|H]; split; intros H'; try discriminate; auto.
  - rewrite H in H'. exfalso. apply (Qlt_irrefl b H').
  - exfalso. apply (Qlt_irrefl a). apply Qlt_trans with b; assumption.
Qed.

Lemma square_one (p : Q) : (p * p == 1)%Q -> (p == 1)%Q \/ (p + 1 == 0)%Q.
Proof.
  intros H.
  assert (H' : ((p - 1) * (p + 1) == 0)%Q) by nsatz.
  apply Qmult_integral in H'. destruct H' as [H'|H']; [left|right]; lra.
Qed.

Ltac split_all :=
  repeat match goal with
         | H : _ /\ _ |- _ => destruct H
         end.

Lemma rq_spec (la : linalg) (M : mat33) :
  fin33 M ->
  qr_contract la (CentralCamera.flip (transpose M)) ->
  exists Km R,
    CentralCamera.rq la M = (Km, R) /\
    upper_triangular Km /\ orthogonal R /\ det R =~ fone /\
    meq (matmul Km R) M.
Proof.
  intros HM Hc. unfold qr_contract in Hc. unfold CentralCamera.rq.
  destruct (qr la (CentralCamera.flip (transpose M))) as [Qm Um].
  destruct Hc as [[HQf HQ] [[HUf HU] HQU]].
  open_fin33 M HM. open_fin33 Qm HQf. open_fin33 Um HUf.
  cbv [transpose CentralCamera.flip col0 col1 col2 r_0 r_1 r_2 vx vy vz].
  match goal with
  | |- context [fltb (det ?m) fzero] =>
      assert (Hsq : exists d, det m = Fin d /\ (d * d == 1)%Q)
  end.
  { eexists. split; [reflexivity|]. q_goals. split_all. nsatz. }
  destruct Hsq as (d & Hdet & Hsq). rewrite Hdet.
  destruct (fltb (Fin d) fzero) eqn:Hd.
  - apply fltb_fin in Hd.
    destruct (square_one d Hsq) as [H1|H1]; [lra|].
    eexists. eexists. split; [reflexivity|].
    injection Hdet as Hdet.
    match type of Hdet with
    | ?l = ?r => assert (Hdq : (l == r)%Q) by (rewrite Hdet; reflexivity)
    end.
    clear Hdet.
    q_goals.
    split; [|split; [|split]].
    + destruct HU as (? & ? & ?). repeat split; try exact I; lra.
    + clear HQU HU Hdq. split_all. repeat split; try exact I; nsatz.
    + clear HQ HQU HU. nsatz.
    + clear HQ Hdq. split_all. repeat split; nsatz.
  - assert (Hd' : ~ (d < 0)%Q).
    { intros H. apply fltb_fin in H. unfold fzero in Hd. congruence. }
    destruct (square_one d Hsq) as [H1|H1]; [|lra].
    eexists. eexists. split; [reflexivity|].
    injection Hdet as Hdet.
    match type of Hdet with
    | ?l = ?r => assert (Hdq : (l == r)%Q) by (rewrite Hdet; reflexivity)
    end.
    clear Hdet.
    q_goals.
    split; [|split; [|split]].
    + destruct HU as (? & ? & ?). repeat split; try exact I; lra.
    + clear HQU HU Hdq. split_all. repeat split; try exact I; nsatz.
    + clear HQ HQU HU. nsatz.
    + clear HQ Hdq. split_all. repeat split; nsatz.
Qed.

(* ================================================================= *)
(** ** Uniqueness of the RQ factorisation, on rationals *)

Section Orthogonal.
Variables r00 r01 r02 r10 r11 r12 r20 r21 r22 : Q.
Hypothesis C00 : (r00 * r00 + r10 * r10 + r20 * r20 == 1)%Q.
Hypothesis C01 : (r00 * r01 + r10 * r11 + r20 * r21 == 0)%Q.
Hypothesis C02 : (r00 * r02 + r10 * r12 + r20 * r22 == 0)%Q.
Hypothesis C11 : (r01 * r01 + r11 * r11 + r21 * r21 == 1)%Q.
Hypothesis C12 : (r01 * r02 + r11 * r12 + r21 * r22 == 0)%Q.
Hypothesis C22 : (r02 * r02 + r12 * r12 + r22 * r22 == 1)%Q.

(** Orthonormal columns make orthonormal rows. *)
Lemma orthonormal_rows :
  (r00 * r00 + r01 * r01 + r02 * r02 == 1 /\
   r00 * r10 + r01 * r11 + r02 * r12 == 0 /\
   r00 * r20 + r01 * r21 + r02 * r22 == 0 /\
   r10 * r10 + r11 * r11 + r12 * r12 == 1 /\
   r10 * r20 + r11 * r21 + r12 * r22 == 0 /\
   r20 * r20 + r21 * r21 + r22 * r22 == 1)%Q.
Proof. repeat split; nsatz. Qed.
End Orthogonal.

Section RQ_uniqueness.
Variables r00 r01 r02 r10 r11 r12 r20 r21 r22 : Q.
Variables w00 w01 w02 w10 w11 w12 w20 w21 w22 : Q.
Variables x0 x1 x2 y1 y2 z2 a b u v : Q.

Hypothesis R00 : (r00 * r00 + r01 * r01 + r02 * r02 == 1)%Q.
Hypothesis R01 : (r00 * r10 + r01 * r11 + r02 * r12 == 0)%Q.
Hypothesis R02 : (r00 * r20 + r01 * r21 + r02 * r22 == 0)%Q.
Hypothesis R11 : (r10 * r10 + r11 * r11 + r12 * r12 == 1)%Q.
Hypothesis R12 : (r10 * r20 + r11 * r21 + r12 * r22 == 0)%Q.
Hypothesis R22 : (r20 * r20 + r21 * r21 + r22 * r22 == 1)%Q.

Hypothesis W00 : (w00 * w00 + w01 * w01 + w02 * w02 == 1)%Q.
Hypothesis W01 : (w00 * w10 + w01 * w11 + w02 * w12 == 0)%Q.
Hypothesis W02 : (w00 * w20 + w01 * w21 + w02 * w22 == 0)%Q.
Hypothesis W11 : (w10 * w10 + w11 * w11 + w12 * w12 == 1)%Q.
Hypothesis W12 : (w10 * w20 + w11 * w21 + w12 * w22 == 0)%Q.
Hypothesis W22 : (w20 * w20 + w21 * w21 + w22 * w22 == 1)%Q.

(** [Km @ R = K0 @ W] with [Km] upper triangular and
    [K0 = [[a, 0, u], [0, b, v], [0, 0, 1]]]. *)
Hypothesis E00 : (x0 * r00 + x1 * r10 + x2 * r20 == a * w00 + u * w20)%Q.
Hypothesis E01 : (x0 * r01 + x1 * r11 + x2 * r21 == a * w01 + u * w21)%Q.
Hypothesis E02 : (x0 * r02 + x1 * r12 + x2 * r22 == a * w02 + u * w22)%Q.
Hypothesis E10 : (y1 * r10 + y2 * r20 == b * w10 + v * w20)%Q.
Hypothesis E11 : (y1 * r11 + y2 * r21 == b * w11 + v * w21)%Q.
Hypothesis E12 : (y1 * r12 + y2 * r22 == b * w12 + v * w22)%Q.
Hypothesis E20 : (z2 * r20 == w20)%Q.
Hypothesis E21 : (z2 * r21 == w21)%Q.
Hypothesis E22 : (z2 * r22 == w22)%Q.

Hypothesis a_pos : (0 < a)%Q.
Hypothesis b_pos : (0 < b)%Q.

Let detR : Q :=
  (r00 * (r11 * r22 - r12 * r21) - r01 * (r10 * r22 - r12 * r20)
   + r02 * (r10 * r21 - r11 * r20))%Q.
Let detW : Q :=
  (w00 * (w11 * w22 - w12 * w21) - w01 * (w10 * w22 - w12 * w20)
   + w02 * (w10 * w21 - w11 * w20))%Q.

Lemma rq_last_row : (z2 * z2 == 1)%Q.
Proof. nsatz. Qed.

Lemma rq_last_column : (x2 == u * z2 /\ y2 == v * z2)%Q.
Proof. split; nsatz. Qed.

Lemma rq_middle : (y1 * y1 == b * b)%Q.
Proof. nsatz. Qed.

Lemma rq_no_skew : (x1 == 0)%Q.
Proof.
  assert (H : (x1 * y1 == 0)%Q) by nsatz.
  apply Qmult_integral in H. destruct H as [H|H]; [exact H|].
  pose proof rq_middle as Hm. rewrite H in Hm. nra.
Qed.

Lemma rq_first : (x0 * x0 == a * a)%Q.
Proof.
  assert (H : (x0 * x0 + x1 * x1 == a * a)%Q) by nsatz.
  rewrite rq_no_skew in H. lra.
Qed.

Lemma rq_determinant : (x0 * y1 * z2 * detR == a * b * detW)%Q.
Proof. unfold detR, detW. nsatz. Qed.

(** The rows of [R] are the rows of [W] up to the signs of the diagonal. *)
Lemma rq_rotation_rows :
  (x0 * r00 == a * w00 /\ x0 * r01 == a * w01 /\ x0 * r02 == a * w02 /\
   y1 * r10 == b * w10 /\ y1 * r11 == b * w11 /\ y1 * r12 == b * w12)%Q.
Proof.
  pose proof rq_no_skew as Hs. pose proof rq_last_column as [Hx Hy].
  repeat split.
  - rewrite Hs, Hx in E00. rewrite <- E20 in E00. lra.
  - rewrite Hs, Hx in E01. rewrite <- E21 in E01. lra.
  - rewrite Hs, Hx in E02. rewrite <- E22 in E02. lra.
  - rewrite Hy in E10. rewrite <- E20 in E10. lra.
  - rewrite Hy in E11. rewrite <- E21 in E11. lra.
  - rewrite Hy in E12. rewrite <- E22 in E12. lra.
Qed.

(** All of it at once. *)
Lemma rq_unique :
  (z2 * z2 == 1 /\ x2 == u * z2 /\ y2 == v * z2 /\ y1 * y1 == b * b /\
   x1 == 0 /\ x0 * x0 == a * a /\
   x0 * y1 * z2 *
     (r00 * (r11 * r22 - r12 * r21) - r01 * (r10 * r22 - r12 * r20)
      + r02 * (r10 * r21 - r11 * r20))
   == a * b *
     (w00 * (w11 * w22 - w12 * w21) - w01 * (w10 * w22 - w12 * w20)
      + w02 * (w10 * w21 - w11 * w20)) /\
   x0 * r00 == a * w00 /\ x0 * r01 == a * w01 /\ x0 * r02 == a * w02 /\
   y1 * r10 == b * w10 /\ y1 * r11 == b * w11 /\ y1 * r12 == b * w12)%Q.
Proof using All.
  pose proof rq_last_column as [? ?].
  pose proof rq_rotation_rows as (? & ? & ? & ? & ? & ?).
  repeat split; auto using rq_last_row, rq_middle, rq_no_skew, rq_first.
  apply rq_determinant.
Qed.

End RQ_uniqueness.

Section NullVector.
Variables m00 m01 m02 m03 m10 m11 m12 m13 m20 m21 m22 m23 : Q.
Variables s0 s1 s2 s3 : Q.

Hypothesis S0 : (m00 * s0 + m01 * s1 + m02 * s2 + m03 * s3 == 0)%Q.
Hypothesis S1 : (m10 * s0 + m11 * s1 + m12 * s2 + m13 * s3 == 0)%Q.
Hypothesis S2 : (m20 * s0 + m21 * s1 + m22 * s2 + m23 * s3 == 0)%Q.
Hypothesis unit : (s0 * s0 + s1 * s1 + s2 * s2 + s3 * s3 == 1)%Q.

(** A unit null vector with a zero last component makes the leading 3x3
    block singular. *)
Lemma null_vector_at_infinity :
  (s3 == 0)%Q ->
  (m00 * (m11 * m22 - m12 * m21) - m01 * (m10 * m22 - m12 * m20)
   + m02 * (m10 * m21 - m11 * m20) == 0)%Q.
Proof using All.
  intros H3.
  set (detM := (m00 * (m11 * m22 - m12 * m21) - m01 * (m10 * m22 - m12 * m20)
                + m02 * (m10 * m21 - m11 * m20))%Q).
  assert (H0 : (detM * s0 == 0)%Q) by (unfold detM; clear unit; nsatz).
  assert (H1 : (detM * s1 == 0)%Q) by (unfold detM; clear unit; nsatz).
  assert (H2 : (detM * s2 == 0)%Q) by (unfold detM; clear unit; nsatz).
  apply Qmult_integral in H0, H1, H2.
  destruct H0 as [H0|H0]; [exact H0|].
  destruct H1 as [H1|H1]; [exact H1|].
  destruct H2 as [H2|H2]; [exact H2|].
  exfalso. rewrite H0, H1, H2, H3 in unit. lra.
Qed.

Variables tx ty tz : Q.
Hypothesis T0 : (m00 * tx + m01 * ty + m02 * tz + m03 * 1 == 0)%Q.
Hypothesis T1 : (m10 * tx + m11 * ty + m12 * tz + m13 * 1 == 0)%Q.
Hypothesis T2 : (m20 * tx + m21 * ty + m22 * tz + m23 * 1 == 0)%Q.
Hypothesis regular :
  ~ (m00 * (m11 * m22 - m12 * m21) - m01 * (m10 * m22 - m12 * m20)
     + m02 * (m10 * m21 - m11 * m20) == 0)%Q.

(** With a regular leading block the null vector is the homogeneous
    camera centre. *)
Lemma null_vector_is_centre :
  ~ (s3 == 0)%Q /\ (s0 == tx * s3)%Q /\ (s1 == ty * s3)%Q /\ (s2 == tz * s3)%Q.
Proof using All.
  set (detM := (m00 * (m11 * m22 - m12 * m21) - m01 * (m10 * m22 - m12 * m20)
                + m02 * (m10 * m21 - m11 * m20))%Q) in *.
  assert (H0 : (detM * (s0 - tx * s3) == 0)%Q) by (unfold detM; clear unit; nsatz).
  assert (H1 : (detM * (s1 - ty * s3) == 0)%Q) by (unfold detM; clear unit; nsatz).
  assert (H2 : (detM * (s2 - tz * s3) == 0)%Q) by (unfold detM; clear unit; nsatz).
  apply Qmult_integral in H0, H1, H2.
  destruct H0 as [H0|H0]; [contradiction|].
  destruct H1 as [H1|H1]; [contradiction|].
  destruct H2 as [H2|H2]; [contradiction|].
  split.
  - intros H3. apply regular. apply null_vector_at_infinity. exact H3.
  - repeat split; lra.
Qed.

End NullVector.

Ltac fin_as x := destruct x as [x| | |]; [| contradiction ..].

Ltac open33 M H a b c d e f g h i :=
  destruct M as [[a b c] [d e f] [g h i]];
  cbv [fin33 fin3 r_0 r_1 r_2 vx vy vz] in H;
  destruct H as [[? [? ?]] [[? [? ?]] [? [? ?]]]];
  fin_as a; fin_as b; fin_as c; fin_as d; fin_as e; fin_as f;
  fin_as g; fin_as h; fin_as i.

Ltac open3 v H a b c :=
  destruct v as [a b c];
  cbv [fin3 vx vy vz] in H;
  destruct H as [? [? ?]];
  fin_as a; fin_as b; fin_as c.

Ltac open4 v H a b c d :=
  destruct v as [a b c d];
  cbv [fin4 hx hy hz hw] in H;
  destruct H as [? [? [? ?]]];
  fin_as a; fin_as b; fin_as c; fin_as d.

Ltac q_in H :=
  cbv [orthogonal upper_triangular fin33 fin3 meq veq3 matmul vec_mat33 transpose
       CentralCamera.leading33 intrinsic e2h mat34_vec dot4
       c_0 c_1 c_2 hx hy hz hw
       mat33_vec dot3 col0 col1 col2 eye3 det
       r_0 r_1 r_2 vx vy vz fadd fmul fsub fopp fzero fone feq is_fin] in H.

(** Discharge the premises of [H] one after the other with [tac]. *)
Ltac feed H tac :=
  repeat match type of H with
         | ?P -> _ =>
             let F := fresh in
             assert (F : P); [ tac | specialize (H F); clear F ]
         end.

Ltac clear_trivial :=
  repeat match goal with
         | H : is_fin (Fin _) |- _ => clear H
         | H : True |- _ => clear H
         end.

Lemma square_eq (p q : Q) : (p * p == q * q)%Q -> (p == q)%Q \/ (p == - q)%Q.
Proof.
  intros H.
  assert (H' : ((p - q) * (p + q) == 0)%Q) by nsatz.
  apply Qmult_integral in H'. destruct H' as [H'|H']; [left|right]; lra.
Qed.

Lemma Qsign_of_pos (x c : Q) : (x == c)%Q -> (0 < c)%Q -> Qsign x = Gt.
Proof. intros H Hc. apply Qsign_Gt. lra. Qed.

Lemma Qsign_of_neg (x c : Q) : (x == - c)%Q -> (0 < c)%Q -> Qsign x = Lt.
Proof. intros H Hc. apply Qsign_Lt. lra. Qed.

Lemma fdiv_to (n k p : Q) : (n == p)%Q -> (k == 1)%Q -> Fin n / Fin k =~ Fin p.
Proof.
  intros Hn Hk. rewrite fdiv_fin by (rewrite Hk; discriminate).
  simpl. rewrite Hn, Hk. field.
Qed.

Lemma cancel_pos (a p q x : Q) :
  (0 < a)%Q -> (x == a)%Q -> (x * p == a * q)%Q -> (p == q)%Q.
Proof.
  intros Ha Hx H. rewrite Hx in H.
  assert (H' : (a * (p - q) == 0)%Q) by lra.
  apply Qmult_integral in H'. destruct H' as [H'|H']; lra.
Qed.

Lemma cancel_neg (a p q x : Q) :
  (0 < a)%Q -> (x == - a)%Q -> (x * p == a * q)%Q -> (- p == q)%Q.
Proof.
  intros Ha Hx H. rewrite Hx in H.
  assert (H' : (a * (p + q) == 0)%Q) by lra.
  apply Qmult_integral in H'. destruct H' as [H'|H']; lra.
Qed.

Lemma decomposeC_computes (la : linalg) (Cm : mat34) (Km R : mat33) :
  CentralCamera.rq la (CentralCamera.leading33 Cm) = (Km, R) ->
  CentralCamera.decomposeC la Cm =
  if negb (isclose (det (CentralCamera.sign_matrix Km)) fone)
  then Raise RuntimeError
  else Ok (decomposed_camera Km R (CentralCamera.camera_centre la Cm)).
Proof.
  intros H. rewrite (decomposeC_unfold la Cm Km R H). reflexivity.
Qed.

Lemma decomposeC_of_projection (la : linalg) (Cm : mat34)
    (a b u v : Q) (W : mat33) (t0 : vec3) :
  (0 < a)%Q -> (0 < b)%Q ->
  orthogonal W -> fin3 t0 -> fin34 Cm ->
  meq (CentralCamera.leading33 Cm) (matmul (intrinsic a b u v) W) ->
  veq3 (mat34_vec Cm (e2h t0)) (V3 fzero fzero fzero) ->
  backend_ok la Cm ->
  (det W =~ Fin (-1) -> CentralCamera.decomposeC la Cm = Raise RuntimeError)
  /\
  (det W =~ fone ->
   exists cam,
     CentralCamera.decomposeC la Cm = Ok cam /\
     fu cam =~ Fin a /\ fv cam =~ Fin a /\
     rhou cam = fone /\ rhov cam =~ Fin (b / a) /\
     u0 cam =~ Fin u /\ v0 cam =~ Fin v /\
     meq (SE3_R (pose cam)) (transpose W) /\
     veq3 (SE3_t (pose cam)) t0).
Proof.
  intros Ha Hb [HWf HW] Ht0 HCf HM Hcentre [Hsvd Hqr].
  assert (HMf : fin33 (CentralCamera.leading33 Cm)).
  { destruct Cm as [[n00 n01 n02 n03] [n10 n11 n12 n13] [n20 n21 n22 n23]].
    cbv [fin34 fin4 c_0 c_1 c_2 hx hy hz hw] in HCf.
    cbv [CentralCamera.leading33 fin33 fin3 c_0 c_1 c_2 hx hy hz hw r_0 r_1 r_2 vx vy vz].
    tauto. }
  destruct (rq_spec la _ HMf Hqr) as (Km & R & Hrq & [HKf HUT] & [HRf HR] & HdetR & HKR).
  rewrite (decomposeC_computes la Cm Km R Hrq).
  unfold svd_contract in Hsvd. unfold CentralCamera.camera_centre.
  destruct (svd la Cm) as [[sU sS] vh].
  destruct vh as [vh0 vh1 vh2 vv]. cbv [t_3] in Hsvd |- *.
  destruct Hsvd as (Hvf & Hv0 & Hvn).
  open33 Km HKf x0 x1 x2 y0 y1 y2 z0 z1 z2.
  open33 R HRf r00 r01 r02 r10 r11 r12 r20 r21 r22.
  open33 W HWf w00 w01 w02 w10 w11 w12 w20 w21 w22.
  open3 t0 Ht0 tx ty tz.
  open4 vv Hvf s0 s1 s2 s3.
  destruct Cm as [[m00 m01 m02 m03] [m10 m11 m12 m13] [m20 m21 m22 m23]].
  cbv [fin34 fin4 c_0 c_1 c_2 hx hy hz hw] in HCf.
  destruct HCf as [[? [? [? ?]]] [[? [? [? ?]]] [? [? [? ?]]]]].
  fin_as m00; fin_as m01; fin_as m02; fin_as m03.
  fin_as m10; fin_as m11; fin_as m12; fin_as m13.
  fin_as m20; fin_as m21; fin_as m22; fin_as m23.
  clear_trivial.
  clear HMf.
  q_in HW; q_in HM; q_in Hcentre; q_in Hv0; q_in Hvn; q_in HUT; q_in HR;
    q_in HdetR; q_in HKR.
  destruct HUT as (Hy0 & Hz0 & Hz1).
  rewrite Hy0, Hz0, Hz1 in HKR.
  destruct HW as [[W00 [W01 W02]] [[_ [W11 W12]] [_ [_ W22]]]].
  destruct HR as [[R00 [R01 R02]] [[_ [R11 R12]] [_ [_ R22]]]].
  pose proof (orthonormal_rows _ _ _ _ _ _ _ _ _ W00 W01 W02 W11 W12 W22)
    as (W00' & W01' & W02' & W11' & W12' & W22').
  pose proof (orthonormal_rows _ _ _ _ _ _ _ _ _ R00 R01 R02 R11 R12 R22)
    as (R00' & R01' & R02' & R11' & R12' & R22').
  destruct HKR as [[E00 [E01 E02]] [[E10 [E11 E12]] [E20 [E21 E22]]]].
  destruct HM as [[F00 [F01 F02]] [[F10 [F11 F12]] [F20 [F21 F22]]]].
  pose proof (rq_unique r00 r01 r02 r10 r11 r12 r20 r21 r22
                        w00 w01 w02 w10 w11 w12 w20 w21 w22
                        x0 x1 x2 y1 y2 z2 a b u v) as Huniq.
  feed Huniq ltac:(first [assumption | lra]).
  destruct Huniq as (Hz2 & Hx2 & Hy2 & Hy1 & Hx1 & Hx0 & Hdet &
                     Hr00 & Hr01 & Hr02 & Hr10 & Hr11 & Hr12).
  assert (Hprod : (x0 * y1 * z2
                   == a * b * (w00 * (w11 * w22 - w12 * w21)
                               - w01 * (w10 * w22 - w12 * w20)
                               + w02 * (w10 * w21 - w11 * w20)))%Q).
  { clear - Hdet HdetR. nsatz. }
  assert (HdetM : (m00 * (m11 * m22 - m12 * m21) - m01 * (m10 * m22 - m12 * m20)
                   + m02 * (m10 * m21 - m11 * m20)
                   == a * b * (w00 * (w11 * w22 - w12 * w21)
                               - w01 * (w10 * w22 - w12 * w20)
                               + w02 * (w10 * w21 - w11 * w20)))%Q).
  { clear - F00 F01 F02 F10 F11 F12 F20 F21 F22. nsatz. }
  assert (Hab : (0 < a * b)%Q) by (apply Qmult_lt_0_compat; assumption).
  assert (Hz2' : (z2 * z2 == 1 * 1)%Q) by lra.
  apply square_eq in Hx0, Hy1, Hz2'.
  cbv [decomposed_camera CentralCamera.sign_matrix sign r_0 r_1 r_2 vx vy vz].
  split; intros HdW; q_in HdW.
  - assert (HdW' : (w00 * (w11 * w22 - w12 * w21) - w01 * (w10 * w22 - w12 * w20)
                    + w02 * (w10 * w21 - w11 * w20) == -(1))%Q) by lra.
    rewrite HdW' in Hprod.
    destruct Hx0 as [Hx0|Hx0], Hy1 as [Hy1|Hy1], Hz2' as [Hz2'|Hz2'];
      try (exfalso;
           assert (Hp : (x0 * y1 * z2 == a * b)%Q)
             by (clear - Hx0 Hy1 Hz2'; nsatz);
           clear - Hp Hprod Hab; lra).
    all: try rewrite (Qsign_of_pos x0 a Hx0 Ha).
    all: try rewrite (Qsign_of_neg x0 a Hx0 Ha).
    all: try rewrite (Qsign_of_pos y1 b Hy1 Hb).
    all: try rewrite (Qsign_of_neg y1 b Hy1 Hb).
    all: try rewrite (Qsign_of_pos z2 1 Hz2' eq_refl).
    all: try rewrite (Qsign_of_neg z2 1 Hz2' eq_refl).
    all: reflexivity.
  - assert (HdW' : (w00 * (w11 * w22 - w12 * w21) - w01 * (w10 * w22 - w12 * w20)
                    + w02 * (w10 * w21 - w11 * w20) == 1)%Q) by lra.
    rewrite HdW' in Hprod, HdetM.
    assert (Hreg : ~ (m00 * (m11 * m22 - m12 * m21) - m01 * (m10 * m22 - m12 * m20)
                      + m02 * (m10 * m21 - m11 * m20) == 0)%Q).
    { rewrite HdetM. lra. }
    destruct Hcentre as (T0 & T1 & T2). destruct Hv0 as (S0 & S1 & S2).
    destruct (null_vector_is_centre m00 m01 m02 m03 m10 m11 m12 m13 m20 m21 m22 m23
                s0 s1 s2 s3 S0 S1 S2 Hvn tx ty tz T0 T1 T2 Hreg)
      as (Hs3 & Hs0 & Hs1 & Hs2).
    destruct Hx0 as [Hx0|Hx0], Hy1 as [Hy1|Hy1], Hz2' as [Hz2'|Hz2'];
      try (exfalso;
           assert (Hp : (x0 * y1 * z2 == - (a * b))%Q)
             by (clear - Hx0 Hy1 Hz2'; nsatz);
           clear - Hp Hprod Hab; lra).
    all: try rewrite !(Qsign_of_pos x0 a Hx0 Ha).
    all: try rewrite !(Qsign_of_neg x0 a Hx0 Ha).
    all: try rewrite !(Qsign_of_pos y1 b Hy1 Hb).
    all: try rewrite !(Qsign_of_neg y1 b Hy1 Hb).
    all: try rewrite !(Qsign_of_pos z2 1 Hz2' eq_refl).
    all: try rewrite !(Qsign_of_neg z2 1 Hz2' eq_refl).
    all: match goal with
         | |- context [isclose ?d fone] =>
             replace (isclose d fone) with true by reflexivity
         end.
    all: cbv [negb].
    all: eexists; (split; [reflexivity|]).
    all: rewrite Hz2' in Hx2, Hy2, E20, E21, E22.
    all: cbv [fu fv rhou rhov u0 v0 pose SE3_R SE3_t
              matmul vec_mat33 dot3 col0 col1 col2 mmap vmap transpose
              r_0 r_1 r_2 vx vy vz fmul fadd fzero fone].
    all: match goal with
         | |- ?A =~ Fin _ /\ _ =>
             assert (K00 : A =~ Fin a) by (apply fdiv_to; lra)
         end.
    all: match goal with
         | |- _ /\ _ /\ _ /\ (?B / _ =~ _) /\ _ =>
             assert (K11 : B =~ Fin b) by (apply fdiv_to; lra)
         end.
    all: first [ pose proof (cancel_pos a r00 w00 x0 Ha Hx0 Hr00) as Q00;
                 pose proof (cancel_pos a r01 w01 x0 Ha Hx0 Hr01) as Q01;
                 pose proof (cancel_pos a r02 w02 x0 Ha Hx0 Hr02) as Q02
               | pose proof (cancel_neg a r00 w00 x0 Ha Hx0 Hr00) as Q00;
                 pose proof (cancel_neg a r01 w01 x0 Ha Hx0 Hr01) as Q01;
                 pose proof (cancel_neg a r02 w02 x0 Ha Hx0 Hr02) as Q02 ].
    all: first [ pose proof (cancel_pos b r10 w10 y1 Hb Hy1 Hr10) as Q10;
                 pose proof (cancel_pos b r11 w11 y1 Hb Hy1 Hr11) as Q11;
                 pose proof (cancel_pos b r12 w12 y1 Hb Hy1 Hr12) as Q12
               | pose proof (cancel_neg b r10 w10 y1 Hb Hy1 Hr10) as Q10;
                 pose proof (cancel_neg b r11 w11 y1 Hb Hy1 Hr11) as Q11;
                 pose proof (cancel_neg b r12 w12 y1 Hb Hy1 Hr12) as Q12 ].
    all: split; [exact K00|].
    all: split; [exact K00|].
    all: split; [reflexivity|].
    all: split;
      [ apply feq_trans with (Fin b / Fin a);
        [ apply fdiv_compat; assumption
        | rewrite fdiv_fin by lra; apply feq_refl ] |].
    all: split; [apply fdiv_to; lra|].
    all: split; [apply fdiv_to; lra|].
    all: split;
      [ cbv [meq veq3 r_0 r_1 r_2 vx vy vz feq]; repeat split; lra
      | cbv [veq3 hx hy hz hw vx vy vz];
        rewrite !fdiv_fin by exact Hs3; cbv [feq];
        repeat split;
        [ rewrite Hs0 | rewrite Hs1 | rewrite Hs2 ]; field; exact Hs3 ].
Qed.


Lemma fdiv_zero_not_finite (p q : Q) : (q == 0)%Q -> not_a_finite_number (Fin p / Fin q).
Proof.
  intros Hq. destruct (fdiv_by_zero p q Hq) as [H0 H1].
  destruct (Qeq_dec p 0) as [Hp|Hp].
  - left. apply H0. exact Hp.
  - right. apply H1. exact Hp.
Qed.

Section Singular.
Variables x0 x1 x2 y1 y2 z2 : Q.
Variables r00 r01 r02 r10 r11 r12 r20 r21 r22 : Q.
Variables m00 m01 m02 m10 m11 m12 m20 m21 m22 : Q.
Hypothesis E00 : (x0 * r00 + x1 * r10 + x2 * r20 == m00)%Q.
Hypothesis E01 : (x0 * r01 + x1 * r11 + x2 * r21 == m01)%Q.
Hypothesis E02 : (x0 * r02 + x1 * r12 + x2 * r22 == m02)%Q.
Hypothesis E10 : (0 * r00 + y1 * r10 + y2 * r20 == m10)%Q.
Hypothesis E11 : (0 * r01 + y1 * r11 + y2 * r21 == m11)%Q.
Hypothesis E12 : (0 * r02 + y1 * r12 + y2 * r22 == m12)%Q.
Hypothesis E20 : (0 * r00 + 0 * r10 + z2 * r20 == m20)%Q.
Hypothesis E21 : (0 * r01 + 0 * r11 + z2 * r21 == m21)%Q.
Hypothesis E22 : (0 * r02 + 0 * r12 + z2 * r22 == m22)%Q.
Hypothesis detR :
  (r00 * (r11 * r22 + - (r12 * r21)) + - (r01 * (r10 * r22 + - (r12 * r20)))
   + r02 * (r10 * r21 + - (r11 * r20)) == 1)%Q.
Hypothesis detM :
  (m00 * (m11 * m22 - m12 * m21) - m01 * (m10 * m22 - m12 * m20)
   + m02 * (m10 * m21 - m11 * m20) == 0)%Q.

End Singular.




(* ================================================================= *)
(** ** Decomposing the matrix of a camera *)

Lemma feq_fin_l (x : fl) (q : Q) : x =~ Fin q -> exists p, x = Fin p /\ (p == q)%Q.
Proof.
  destruct x as [p| | |]; simpl; try contradiction.
  intros H. exists p. split; [reflexivity | exact H].
Qed.

(** The matrix [C] of a camera with finite intrinsics and pose: its leading
    block is [K @ R.T] and it sends the camera position to zero. *)
Lemma C_is_projection (self : camera) (T : SE3) (a b u v : Q) :
  meq (CentralCamera.K self) (intrinsic a b u v) ->
  finSE3 T ->
  let Cm := CentralCamera.C self (Some T) in
  fin34 Cm /\
  meq (CentralCamera.leading33 Cm)
      (matmul (intrinsic a b u v) (transpose (SE3_R T))) /\
  veq3 (mat34_vec Cm (e2h (SE3_t T))) (V3 fzero fzero fzero).
Proof.
  unfold CentralCamera.C. generalize (CentralCamera.K self) as Km.
  intros Km HK [HRf Htf].
  destruct T as [R t]. cbv [SE3_R SE3_t] in *.
  open33 R HRf r00 r01 r02 r10 r11 r12 r20 r21 r22.
  open3 t Htf tx ty tz. clear_trivial.
  destruct Km as [[k00 k01 k02] [k10 k11 k12] [k20 k21 k22]].
  cbv [meq veq3 intrinsic r_0 r_1 r_2 vx vy vz fzero fone] in HK.
  destruct HK as [[H00 [H01 H02]] [[H10 [H11 H12]] [H20 [H21 H22]]]].
  apply feq_fin_l in H00, H01, H02, H10, H11, H12, H20, H21, H22.
  destruct H00 as (q00 & -> & H00), H01 as (q01 & -> & H01), H02 as (q02 & -> & H02).
  destruct H10 as (q10 & -> & H10), H11 as (q11 & -> & H11), H12 as (q12 & -> & H12).
  destruct H20 as (q20 & -> & H20), H21 as (q21 & -> & H21), H22 as (q22 & -> & H22).
  cbv [CentralCamera.leading33 intrinsic fin34 fin4 c_0 c_1 c_2 hx hy hz hw].
  la_unfold.
  split; [tauto|].
  rewrite H00, H01, H02, H10, H11, H12, H20, H21, H22.
  split; repeat split; ring.
Qed.

Lemma rotation_transpose (R : mat33) : rotation R -> rotation (transpose R).
Proof.
  intros [[HRf HR] Hd].
  open33 R HRf r00 r01 r02 r10 r11 r12 r20 r21 r22.
  q_in HR. q_in Hd.
  destruct HR as [[R00 [R01 R02]] [[_ [R11 R12]] [_ [_ R22]]]].
  pose proof (orthonormal_rows _ _ _ _ _ _ _ _ _ R00 R01 R02 R11 R12 R22)
    as (R00' & R01' & R02' & R11' & R12' & R22').
  unfold rotation, orthogonal.
  cbv [fin33 fin3 meq veq3 matmul vec_mat33 transpose
       dot3 col0 col1 col2 eye3 det
       r_0 r_1 r_2 vx vy vz fadd fmul fsub fopp fzero fone feq is_fin].
  repeat split; lra.
Qed.

(** What [decomposeC] makes of the matrix of a camera whose intrinsic matrix
    is [[a, 0, u], [0, b, v], [0, 0, 1]]: the pose is recovered, and so are
    [a], [u] and [v], but the second focal length comes back as [a * a / b]. *)
Lemma decomposeC_after_C (la : linalg) (self : camera) (a b u v : Q) :
  (0 < a)%Q -> (0 < b)%Q ->
  meq (CentralCamera.K self) (intrinsic a b u v) ->
  finSE3 (pose self) ->
  rotation (SE3_R (pose self)) ->
  backend_ok la (CentralCamera.C self None) ->
  exists cam,
    CentralCamera.decomposeC la (CentralCamera.C self None) = Ok cam /\
    meq (CentralCamera.K cam) (intrinsic a (a * a / b) u v) /\
    meq (SE3_R (pose cam)) (SE3_R (pose self)) /\
    veq3 (SE3_t (pose cam)) (SE3_t (pose self)).
Proof.
  intros Ha Hb HK HTf Hrot Hla.
  change (CentralCamera.C self None) with (CentralCamera.C self (Some (pose self))) in *.
  destruct (C_is_projection self (pose self) a b u v HK HTf) as (HCf & HM & Hc).
  destruct (rotation_transpose _ Hrot) as [HWo HWd].
  destruct HTf as [_ Htf].
  destruct (decomposeC_of_projection la _ a b u v _ _ Ha Hb HWo Htf HCf HM Hc Hla)
    as [_ Hgood].
  destruct (Hgood HWd) as (cam & Hdec & Hfu & Hfv & Hru & Hrv & Hu & Hv & HR & Ht).
  exists cam. split; [exact Hdec|]. split; [|split].
  - unfold CentralCamera.K. rewrite Hru.
    apply feq_fin_l in Hfu, Hfv, Hrv, Hu, Hv.
    destruct Hfu as (p1 & -> & Hfu), Hfv as (p2 & -> & Hfv), Hrv as (p3 & -> & Hrv).
    destruct Hu as (p4 & -> & Hu), Hv as (p5 & -> & Hv).
    assert (Hp3 : ~ (p3 == 0)%Q).
    { rewrite Hrv. intros E. apply (pos_nonzero (b / a)); [apply Qdiv_pos; assumption | exact E]. }
    cbv [fone]. rewrite !fdiv_fin by (first [exact Hp3 | discriminate]).
    cbv [meq veq3 intrinsic r_0 r_1 r_2 vx vy vz feq fzero fone].
    repeat split; try reflexivity; try assumption.
    + rewrite Hfu. field.
    + rewrite Hfv, Hrv. field. split; lra.
  - destruct (SE3_R (pose self)) as [[? ? ?] [? ? ?] [? ? ?]]. exact HR.
  - exact Ht.
Qed.

Lemma meq_sym (a b : mat33) : meq a b -> meq b a.
Proof.
  destruct a as [[a00 a01 a02] [a10 a11 a12] [a20 a21 a22]].
  destruct b as [[b00 b01 b02] [b10 b11 b12] [b20 b21 b22]].
  cbv [meq veq3 r_0 r_1 r_2 vx vy vz].
  intros [[? [? ?]] [[? [? ?]] [? [? ?]]]].
  repeat split; apply feq_sym; assumption.
Qed.

Lemma meq_trans (a b c : mat33) : meq a b -> meq b c -> meq a c.
Proof.
  destruct a as [[a00 a01 a02] [a10 a11 a12] [a20 a21 a22]].
  destruct b as [[b00 b01 b02] [b10 b11 b12] [b20 b21 b22]].
  destruct c as [[c00 c01 c02] [c10 c11 c12] [c20 c21 c22]].
  cbv [meq veq3 r_0 r_1 r_2 vx vy vz].
  intros [[? [? ?]] [[? [? ?]] [? [? ?]]]] [[? [? ?]] [[? [? ?]] [? [? ?]]]].
  repeat split; eapply feq_trans; eassumption.
Qed.

Lemma intrinsic_compat (a a' b b' u u' v v' : Q) :
  (a == a')%Q -> (b == b')%Q -> (u == u')%Q -> (v == v')%Q ->
  meq (intrinsic a b u v) (intrinsic a' b' u' v').
Proof.
  intros. cbv [meq veq3 intrinsic r_0 r_1 r_2 vx vy vz feq fzero fone].
  repeat split; auto; reflexivity.
Qed.


(** C1 at a camera with non-square pixels.  For the camera with intrinsic
    matrix [diag(1, 1/2, 1)] placed at x = 3/4, whatever factors the SVD and
    QR routines return within their contracts, [decomposeC] of [C()] returns
    a camera with the same pose, the same first focal length and the same
    principal point, but whose second focal length in pixels is 2 where the
    original has 1/2. *)
Theorem decomposeC_round_trip_tall_pixels :
  forall (la : linalg),
    backend_ok la (CentralCamera.C tall_pixel_camera None) ->
    exists cam,
      CentralCamera.decomposeC la (CentralCamera.C tall_pixel_camera None) = Ok cam /\
      meq (CentralCamera.K tall_pixel_camera) (intrinsic 1 (1 # 2) 0 0) /\
      meq (CentralCamera.K cam) (intrinsic 1 2 0 0) /\
      ~ meq (CentralCamera.K cam) (CentralCamera.K tall_pixel_camera) /\
      meq (SE3_R (pose cam)) (SE3_R (pose tall_pixel_camera)) /\
      veq3 (SE3_t (pose cam)) (SE3_t (pose tall_pixel_camera)).
Proof.
  intros la Hla.
  assert (HK : meq (CentralCamera.K tall_pixel_camera) (intrinsic 1 (1 # 2) 0 0)).
  { vm_compute. repeat split; reflexivity. }
  assert (HTf : finSE3 (pose tall_pixel_camera)).
  { vm_compute. tauto. }
  assert (Hrot : rotation (SE3_R (pose tall_pixel_camera))).
  { vm_compute. repeat split; reflexivity. }
  destruct (decomposeC_after_C la tall_pixel_camera 1 (1 # 2) 0 0
              eq_refl eq_refl HK HTf Hrot Hla) as (cam & Hdec & HK' & HR & Ht).
  exists cam. split; [exact Hdec|]. split; [exact HK|].
  assert (HK2 : meq (CentralCamera.K cam) (intrinsic 1 2 0 0)).
  { apply meq_trans with (1 := HK').
    apply intrinsic_compat; reflexivity. }
  split; [exact HK2|]. split; [|split; assumption].
  intros Hsame.
  pose proof (meq_trans _ _ _ (meq_sym _ _ HK2) (meq_trans _ _ _ Hsame HK)) as Hbad.
  vm_compute in Hbad.
  destruct Hbad as [_ [[_ [Hbad _]] _]]. discriminate Hbad.
Qed.

(** The factors numpy computes for that camera are within the contracts. *)
Lemma decomposeC_round_trip_tall_pixels_witness :
  backend_ok tall_pixel_backend (CentralCamera.C tall_pixel_camera None) /\
  exists cam,
    CentralCamera.decomposeC tall_pixel_backend
                             (CentralCamera.C tall_pixel_camera None) = Ok cam /\
    meq (CentralCamera.K tall_pixel_camera) (intrinsic 1 (1 # 2) 0 0) /\
    meq (CentralCamera.K cam) (intrinsic 1 2 0 0) /\
    ~ meq (CentralCamera.K cam) (CentralCamera.K tall_pixel_camera) /\
    meq (SE3_R (pose cam)) (SE3_R (pose tall_pixel_camera)) /\
    veq3 (SE3_t (pose cam)) (SE3_t (pose tall_pixel_camera)).
Proof.
  assert (H : backend_ok tall_pixel_backend (CentralCamera.C tall_pixel_camera None)).
  { split; vm_compute; repeat split; reflexivity. }
  split; [exact H|].
  apply (decomposeC_round_trip_tall_pixels tall_pixel_backend). exact H.
Defined.


(* ================================================================= *)
(** ** Essential matrix of a relative motion *)

Lemma skew_compat (a b : vec3) : veq3 a b -> meq (skew a) (skew b).
Proof.
  destruct a as [a0 a1 a2], b as [b0 b1 b2].
  cbv [veq3 vx vy vz]. intros (H0 & H1 & H2).
  cbv [meq veq3 skew r_0 r_1 r_2 vx vy vz].
  repeat split; feq_auto.
Qed.

(** For rigid poses [(Pose1.inv() * Pose2).inv()] is [Pose2.inv() * Pose1]. *)
Lemma relative_pose_inverse (T1 T2 : SE3) :
  finSE3 T1 -> finSE3 T2 -> orthogonal (SE3_R T1) ->
  meq (SE3_R (SE3_mul (SE3_inv T2) T1))
      (SE3_R (SE3_inv (SE3_mul (SE3_inv T1) T2))) /\
  veq3 (SE3_t (SE3_mul (SE3_inv T2) T1))
       (SE3_t (SE3_inv (SE3_mul (SE3_inv T1) T2))).
Proof.
  intros [HR1 Ht1] [HR2 Ht2] [_ HO].
  destruct T1 as [R1 t1], T2 as [R2 t2].
  cbv [SE3_R SE3_t] in HR1, Ht1, HR2, Ht2, HO.
  open33 R1 HR1 a00 a01 a02 a10 a11 a12 a20 a21 a22.
  open33 R2 HR2 b00 b01 b02 b10 b11 b12 b20 b21 b22.
  open3 t1 Ht1 p0 p1 p2. open3 t2 Ht2 q0 q1 q2.
  clear_trivial.
  q_in HO.
  destruct HO as [[R00 [R01 R02]] [[_ [R11 R12]] [_ [_ R22]]]].
  pose proof (orthonormal_rows _ _ _ _ _ _ _ _ _ R00 R01 R02 R11 R12 R22)
    as (R00' & R01' & R02' & R11' & R12' & R22').
  clear R00 R01 R02 R11 R12 R22.
  la_unfold.
  split; [repeat split; ring|].
  repeat split; nsatz.
Qed.

(** X10.  The two ways of giving the second view agree: for rigid poses, the
    essential matrix of a pair of cameras is the one [E] computes for the
    motion [Pose1.inv() * Pose2] that takes the first view to the second.
    The inversion inside [E] is what makes them agree. *)
Lemma E_of_camera_is_E_of_relative_motion (c1 c2 : camera) :
  finSE3 (pose c1) -> finSE3 (pose c2) ->
  orthogonal (SE3_R (pose c1)) ->
  req meq (CentralCamera.E c1 (ViewCamera c2))
          (CentralCamera.E c1 (ViewSE3 (SE3_mul (SE3_inv (pose c1)) (pose c2)))).
Proof.
  intros H1 H2 HO.
  destruct (relative_pose_inverse (pose c1) (pose c2) H1 H2 HO) as [HR Ht].
  unfold CentralCamera.E, req.
  apply matmul_compat; [apply skew_compat; exact Ht | exact HR].
Qed.

(** For a rigid motion the matrix [E] returns is [-R.T @ skew(t)]. *)
Lemma E_of_rigid_motion (self : camera) (T : SE3) :
  finSE3 T -> rotation (SE3_R T) ->
  req meq (CentralCamera.E self (ViewSE3 T))
          (Ok (mmap fopp (matmul (transpose (SE3_R T)) (skew (SE3_t T))))).
Proof.
  intros [HRf Htf] [[_ HO] Hd].
  unfold CentralCamera.E, req.
  destruct T as [R t]. cbv [SE3_R SE3_t] in *.
  open33 R HRf r00 r01 r02 r10 r11 r12 r20 r21 r22.
  open3 t Htf tx ty tz. clear_trivial.
  q_in HO. q_in Hd.
  destruct HO as [[R00 [R01 R02]] [[_ [R11 R12]] [_ [_ R22]]]].
  la_unfold.
  repeat split; nsatz.
Qed.

(** C3 as the code has it.  For a relative motion [T] with rotation [R] and
    translation [t], [E(T)] is built from the inverse of [T]: it is the
    cross-product matrix of [-R.T @ t] times [R.T], which for a rigid motion
    is [-R.T @ skew(t)]. *)
Theorem E_of_motion_uses_inverse :
  forall (self : camera) (T : SE3),
    CentralCamera.E self (ViewSE3 T)
    = Ok (matmul (skew (SE3_t (SE3_inv T))) (SE3_R (SE3_inv T)))
    /\ SE3_R (SE3_inv T) = transpose (SE3_R T)
    /\ SE3_t (SE3_inv T) = mat33_vec (mmap fopp (transpose (SE3_R T))) (SE3_t T)
    /\ (finSE3 T -> rotation (SE3_R T) ->
        req meq (CentralCamera.E self (ViewSE3 T))
                (Ok (mmap fopp (matmul (transpose (SE3_R T)) (skew (SE3_t T)))))).
Proof.
  intros self T.
  split; [reflexivity|]. split; [reflexivity|]. split; [reflexivity|].
  intros HT HR. apply E_of_rigid_motion; assumption.
Qed.

(** C3, counterexample.  For a quarter turn with a unit step the matrix
    returned differs from the cross-product matrix of [t] times [R]. *)
Lemma E_of_motion_not_direct :
  exists m,
    CentralCamera.E default_camera (ViewSE3 turn_and_step) = Ok m /\
    ~ meq m (matmul (skew (SE3_t turn_and_step)) (SE3_R turn_and_step)).
Proof.
  eexists; split; [reflexivity|].
  intros H. vm_compute in H.
  destruct H as [[_ [_ H]] _]. discriminate H.
Qed.

(* ================================================================= *)
(** ** The theorems at sample inputs *)

(** A point one unit behind the default camera. *)
Lemma project_point_behind_sentinel_witness :
  finSE3 (pose_used default_camera None) /\
  fin4 (e2h point_behind) /\
  fltb (depth (pose_used default_camera None) (e2h point_behind)) fzero = true /\
  nth_error (image_of (CentralCamera.project_point
                         default_camera no_draw (Cartesian [point_behind])
                         None None true true)) 0
    = Some (V2 NaN NaN) /\
  nth_error (visible_of (CentralCamera.project_point
                           default_camera no_draw (Cartesian [point_behind])
                           None None true true)) 0
    = Some false.
Proof.
  assert (H1 : finSE3 (pose_used default_camera None)) by (vm_compute; tauto).
  assert (H2 : fin4 (e2h point_behind)) by (vm_compute; tauto).
  assert (H3 : fltb (depth (pose_used default_camera None) (e2h point_behind)) fzero
               = true) by reflexivity.
  split; [exact H1|]. split; [exact H2|]. split; [exact H3|].
  apply (proj1 project_point_behind_sentinel default_camera no_draw
               (Cartesian [point_behind]) None None true 0%nat (e2h point_behind)
               H1 H2 eq_refl H3).
Defined.

(** A point beside the default camera, at depth zero: the first image
    coordinate is infinite, the second is NaN. *)
Lemma project_point_zero_depth_witness :
  depth (pose_used default_camera None) (e2h point_beside) =~ fzero /\
  exists y,
    nth_error (image_of (CentralCamera.project_point
                           default_camera no_draw (Cartesian [point_beside])
                           None None true false)) 0 = Some y /\
    is_inf (e0 y) /\ e1 y = NaN.
Proof.
  assert (H1 : finSE3 (pose_used default_camera None)) by (vm_compute; tauto).
  assert (H2 : fin33 (CentralCamera.K default_camera)) by (vm_compute; tauto).
  assert (H3 : fin4 (e2h point_beside)) by (vm_compute; tauto).
  assert (H4 : forall k, is_fin (e0 (no_draw k)) /\ is_fin (e1 (no_draw k)))
    by (intros k; vm_compute; tauto).
  assert (H5 : depth (pose_used default_camera None) (e2h point_beside) =~ fzero)
    by (vm_compute; reflexivity).
  split; [exact H5|].
  destruct (project_point_zero_depth default_camera no_draw (Cartesian [point_beside])
              None None false 0%nat (e2h point_beside) H1 H2 H3 H4 eq_refl H5)
    as (_ & y & Hy & _ & Hu & Hv & _).
  exists y. split; [exact Hy|]. split.
  - apply Hu. vm_compute. discriminate.
  - apply Hv. vm_compute. reflexivity.
Defined.

(** Two views with the same intrinsic matrix written in different units. *)
Lemma F_is_E_between_inverse_intrinsics_witness :
  meq (CentralCamera.K default_camera) (CentralCamera.K second_view) /\
  req meq
      (CentralCamera.F default_camera (ViewCamera second_view))
      (Em <- CentralCamera.E default_camera (ViewCamera second_view) ;;
       Kinv <- inv (CentralCamera.K default_camera) ;;
       Ok (matmul (matmul (transpose Kinv) Em) Kinv)).
Proof.
  assert (H : meq (CentralCamera.K default_camera) (CentralCamera.K second_view))
    by (vm_compute; repeat split; reflexivity).
  split; [exact H|].
  apply (F_is_E_between_inverse_intrinsics default_camera second_view H).
Defined.

(** Two points with three depths are refused, with two depths they give
    four rows. *)
Lemma visjac_p_contract_witness :
  CentralCamera.visjac_p default_camera two_image_points [Fin 1; Fin 2; Fin 3]
  = Raise ValueError /\
  exists Kinv L,
    inv (CentralCamera.K default_camera) = Ok Kinv /\
    CentralCamera.visjac_p default_camera two_image_points two_depths = Ok L /\
    List.length L = 4%nat.
Proof.
  destruct (visjac_p_contract default_camera two_image_points [Fin 1; Fin 2; Fin 3])
    as [Hbad _].
  destruct (visjac_p_contract default_camera two_image_points two_depths)
    as [_ Hgood].
  split.
  - apply Hbad. split; discriminate.
  - destruct (inv (CentralCamera.K default_camera)) as [Kinv|e] eqn:HK;
      [|vm_compute in HK; discriminate HK].
    destruct (Hgood (or_intror eq_refl) Kinv eq_refl) as (L & HL & Hlen & _).
    exists Kinv, L. repeat split; assumption.
Defined.

(** A single correspondence. *)
Lemma points2C_returns_whenever_lstsq_does_witness :
  lstsq one_pair_backend
        (fst (CentralCamera.dlt_system one_image_point one_world_point))
        (snd (CentralCamera.dlt_system one_image_point one_world_point))
  = Ok one_pair_solution /\
  exists Cm,
    CentralCamera.points2C one_pair_backend one_world_point one_image_point
    = Ok (Cm, CentralCamera.residual
                (fst (CentralCamera.dlt_system one_image_point one_world_point))
                one_pair_solution
                (snd (CentralCamera.dlt_system one_image_point one_world_point))).
Proof.
  split; [reflexivity|].
  destruct (points2C_returns_whenever_lstsq_does one_pair_backend
              one_world_point one_image_point one_pair_solution eq_refl eq_refl)
    as (_ & Cm & _ & _ & H).
  exists Cm. exact H.
Defined.

(** The mirrored matrix is refused; the matrix of the camera with tall pixels
    passes the sign check. *)
Lemma decomposeC_sign_correction_witness :
  CentralCamera.decomposeC mirror_backend mirror_matrix = Raise RuntimeError /\
  exists cam,
    CentralCamera.decomposeC tall_pixel_backend
                             (CentralCamera.C tall_pixel_camera None) = Ok cam /\
    positive_diagonal (CentralCamera.K cam).
Proof.
  split.
  - refine (proj1 (decomposeC_sign_correction mirror_backend mirror_matrix
                     (M33 (V3 fone fzero fzero) (V3 fzero fone fzero)
                          (V3 fzero fzero (Fin (-1))))
                     eye3 eq_refl _) _).
    + vm_compute. tauto.
    + vm_compute. intros H. discriminate H.
  - refine (proj2 (decomposeC_sign_correction tall_pixel_backend
                     (CentralCamera.C tall_pixel_camera None)
                     (fst (CentralCamera.rq tall_pixel_backend
                             (CentralCamera.leading33
                                (CentralCamera.C tall_pixel_camera None))))
                     (snd (CentralCamera.rq tall_pixel_backend
                             (CentralCamera.leading33
                                (CentralCamera.C tall_pixel_camera None))))
                     _ _) _).
    + apply surjective_pairing.
    + vm_compute. tauto.
    + vm_compute. reflexivity.
Defined.


(** A quarter turn with a unit step. *)
Lemma E_of_motion_uses_inverse_witness :
  finSE3 turn_and_step /\
  rotation (SE3_R turn_and_step) /\
  req meq (CentralCamera.E default_camera (ViewSE3 turn_and_step))
          (Ok (mmap fopp (matmul (transpose (SE3_R turn_and_step))
                                 (skew (SE3_t turn_and_step))))).
Proof.
  assert (H1 : finSE3 turn_and_step) by (vm_compute; tauto).
  assert (H2 : rotation (SE3_R turn_and_step))
    by (vm_compute; repeat split; reflexivity).
  split; [exact H1|]. split; [exact H2|].
  destruct (E_of_motion_uses_inverse default_camera turn_and_step)
    as (_ & _ & _ & H).
  apply H; assumption.
Defined.

(* ================================================================= *)
(** ** Inverse of a finite matrix *)

Lemma det_finite (a b c d e f g h i : Q) :
  det (M33 (V3 (Fin a) (Fin b) (Fin c)) (V3 (Fin d) (Fin e) (Fin f))
           (V3 (Fin g) (Fin h) (Fin i)))
  = Fin (a * (e * i + - (f * h)) + - (b * (d * i + - (f * g)))
         + c * (d * h + - (e * g)))%Q.
Proof. reflexivity. Qed.

(** [np.linalg.inv] on a matrix of numbers: it fails exactly when the
    determinant is zero, and otherwise returns a two-sided inverse. *)
Lemma inv_finite (m : mat33) :
  fin33 m ->
  (det m =~ fzero -> inv m = Raise LinAlgError) /\
  (~ det m =~ fzero ->
   exists mi, inv m = Ok mi /\ fin33 mi /\
              meq (matmul mi m) eye3 /\ meq (matmul m mi) eye3).
Proof.
  intros Hm.
  open33 m Hm a b c d e f g h i. clear_trivial.
  unfold inv. rewrite det_finite.
  set (dt := (a * (e * i + - (f * h)) + - (b * (d * i + - (f * g)))
              + c * (d * h + - (e * g)))%Q).
  cbv [feq fzero].
  split.
  - intros Hd. apply Qsign_Eq in Hd. rewrite Hd. reflexivity.
  - intros Hd.
    assert (Hs : Qsign dt <> Eq).
    { intros E. apply Hd. apply Qsign_Eq. exact E. }
    eexists. split.
    { destruct (Qsign dt); [congruence | reflexivity | reflexivity]. }
    cbv [fsub fmul fadd fopp].
    rewrite !fdiv_fin by exact Hd.
    cbv [fin33 fin3 meq veq3 matmul vec_mat33 dot3 col0 col1 col2 eye3
         r_0 r_1 r_2 vx vy vz fadd fmul fzero fone feq is_fin].
    split; [tauto|].
    subst dt. split; repeat split; field; exact Hd.
Qed.

Lemma inv_finite_value (a b c d e f g h i : Q) :
  let dt := (a * (e * i + - (f * h)) + - (b * (d * i + - (f * g)))
             + c * (d * h + - (e * g)))%Q in
  ~ (dt == 0)%Q ->
  inv (M33 (V3 (Fin a) (Fin b) (Fin c)) (V3 (Fin d) (Fin e) (Fin f))
           (V3 (Fin g) (Fin h) (Fin i)))
  = Ok (M33 (V3 (Fin ((e * i + - (f * h)) / dt)) (Fin ((c * h + - (b * i)) / dt))
                (Fin ((b * f + - (c * e)) / dt)))
            (V3 (Fin ((f * g + - (d * i)) / dt)) (Fin ((a * i + - (c * g)) / dt))
                (Fin ((c * d + - (a * f)) / dt)))
            (V3 (Fin ((d * h + - (e * g)) / dt)) (Fin ((b * g + - (a * h)) / dt))
                (Fin ((a * e + - (b * d)) / dt)))).
Proof.
  intros dt Hd. unfold inv. rewrite det_finite. fold dt.
  assert (Hs : Qsign dt <> Eq).
  { intros E. apply Hd. apply Qsign_Eq. exact E. }
  cbv [fsub fmul fadd fopp].
  rewrite !fdiv_fin by exact Hd.
  destruct (Qsign dt); [congruence | reflexivity | reflexivity].
Qed.

(* ================================================================= *)
(** ** Back-projection of image points *)

Ltac open34 Cm H m00 m01 m02 m03 m10 m11 m12 m13 m20 m21 m22 m23 :=
  destruct Cm as [[m00 m01 m02 m03] [m10 m11 m12 m13] [m20 m21 m22 m23]];
  cbv [fin34 fin4 c_0 c_1 c_2 hx hy hz hw] in H;
  destruct H as [[? [? [? ?]]] [[? [? [? ?]]] [? [? [? ?]]]]];
  fin_as m00; fin_as m01; fin_as m02; fin_as m03;
  fin_as m10; fin_as m11; fin_as m12; fin_as m13;
  fin_as m20; fin_as m21; fin_as m22; fin_as m23.

(** X1.  A point strictly in front of the camera lies on the ray [plucker]
    returns for its image: it is the point of the ray plus its depth times
    the direction of the ray. *)
Theorem plucker_of_projection :
  forall (self : camera) (rng : nat -> vec2) (P : vec3),
    noise self = None ->
    fin34 (CentralCamera.C self None) ->
    ~ det (CentralCamera.leading33 (CentralCamera.C self None)) =~ fzero ->
    fin3 P ->
    let z := vz (mat34_vec (CentralCamera.C self None) (e2h P)) in
    fltb fzero z = true ->
    exists p c d,
      CentralCamera.project_point self rng (Cartesian [P]) None None true false
      = Image [p] /\
      CentralCamera.plucker self [p] = Ok [(c, d)] /\
      veq3 P (vadd c (vscale z d)).
Proof.
  intros self rng P Hnoise HCf Hreg HP z Hz. subst z.
  unfold CentralCamera.project_point, CentralCamera.plucker,
    CentralCamera.add_noise_distortion, CentralCamera.world_points.
  rewrite Hnoise.
  change (CentralCamera.C self (Some (pose self))) with (CentralCamera.C self None).
  generalize dependent (CentralCamera.C self None). intros Cm HCf Hreg Hz.
  open34 Cm HCf m00 m01 m02 m03 m10 m11 m12 m13 m20 m21 m22 m23.
  open3 P HP px py pz. clear_trivial.
  cbv [CentralCamera.leading33 c_0 c_1 c_2 hx hy hz hw] in Hreg |- *.
  rewrite det_finite in Hreg. cbv [feq fzero] in Hreg.
  rewrite (inv_finite_value _ _ _ _ _ _ _ _ _ Hreg).
  cbv [map mat34_vec e2h dot4 c_0 c_1 c_2 hx hy hz hw vx vy vz fmul fadd fone] in Hz |- *.
  set (x0 := (m00 * px + m01 * py + m02 * pz + m03 * 1)%Q) in *.
  set (x1 := (m10 * px + m11 * py + m12 * pz + m13 * 1)%Q) in *.
  set (x2 := (m20 * px + m21 * py + m22 * pz + m23 * 1)%Q) in *.
  apply fltb_fin in Hz.
  assert (Hx2 : ~ (x2 == 0)%Q) by lra.
  assert (Hmark : CentralCamera.mark_behind (V3 (Fin x0) (Fin x1) (Fin x2))
                  = V3 (Fin x0) (Fin x1) (Fin x2)).
  { unfold CentralCamera.mark_behind. cbv [vz].
    destruct (fltb (Fin x2) fzero) eqn:E; [|reflexivity].
    apply fltb_fin in E. lra. }
  rewrite Hmark. cbv [h2e vx vy vz]. rewrite !fdiv_fin by exact Hx2.
  eexists. eexists. eexists. split; [reflexivity|]. cbv [bind].
  split; [reflexivity|].
  cbv [veq3 vadd vscale mat33_vec mmap vmap e2h2 c34_3 dot3 e0 e1
       r_0 r_1 r_2 c_0 c_1 c_2 hx hy hz hw vx vy vz fadd fmul fopp fone feq].
  subst x0 x1 x2.
  repeat split; field; (split; [exact Hreg | lra]).
Qed.

(** A point in front of the second view, which is turned and moved. *)
Lemma plucker_of_projection_witness :
  noise second_view = None /\
  fin34 (CentralCamera.C second_view None) /\
  ~ det (CentralCamera.leading33 (CentralCamera.C second_view None)) =~ fzero /\
  fin3 point_in_front /\
  fltb fzero (vz (mat34_vec (CentralCamera.C second_view None) (e2h point_in_front)))
  = true /\
  exists p c d,
    CentralCamera.project_point second_view no_draw (Cartesian [point_in_front])
                                None None true false = Image [p] /\
    CentralCamera.plucker second_view [p] = Ok [(c, d)] /\
    veq3 point_in_front
         (vadd c (vscale (vz (mat34_vec (CentralCamera.C second_view None)
                                        (e2h point_in_front))) d)).
Proof.
  assert (H1 : fin34 (CentralCamera.C second_view None)) by (vm_compute; tauto).
  assert (H2 : ~ det (CentralCamera.leading33 (CentralCamera.C second_view None))
                 =~ fzero) by (vm_compute; discriminate).
  assert (H3 : fin3 point_in_front) by (vm_compute; tauto).
  assert (H4 : fltb fzero (vz (mat34_vec (CentralCamera.C second_view None)
                                         (e2h point_in_front))) = true)
    by reflexivity.
  split; [reflexivity|]. split; [exact H1|]. split; [exact H2|].
  split; [exact H3|]. split; [exact H4|].
  apply (plucker_of_projection second_view no_draw point_in_front eq_refl H1 H2 H3 H4).
Defined.

(** The determinant of the leading block of the matrix of a rigid camera:
    [fu/rhou * fv/rhov] up to the sign of [det R], so not zero. *)
Lemma rigid_leading_block_regular (M : mat33) (a b u v : Q) (R : mat33) :
  ~ (a == 0)%Q -> ~ (b == 0)%Q ->
  orthogonal R ->
  meq M (matmul (intrinsic a b u v) (transpose R)) ->
  ~ det M =~ fzero.
Proof.
  intros Ha Hb [HRf HO] HM Hd.
  apply det_compat in HM.
  apply feq_sym in HM. pose proof (feq_trans _ _ _ HM Hd) as H. clear HM Hd.
  open33 R HRf r00 r01 r02 r10 r11 r12 r20 r21 r22. clear_trivial.
  q_in HO. q_in H.
  destruct HO as [[R00 [R01 R02]] [[_ [R11 R12]] [_ [_ R22]]]].
  set (d := (r00 * (r11 * r22 - r12 * r21) - r01 * (r10 * r22 - r12 * r20)
             + r02 * (r10 * r21 - r11 * r20))%Q).
  assert (Hdd : (d * d == 1)%Q) by (subst d; nsatz).
  assert (Habd : (a * b * d == 0)%Q) by (subst d; rewrite <- H; ring).
  apply Qmult_integral in Habd. destruct Habd as [Hab | Hd0].
  - apply Qmult_integral in Hab. tauto.
  - rewrite Hd0 in Hdd. discriminate Hdd.
Qed.

Lemma leading33_finite (Cm : mat34) : fin34 Cm -> fin33 (CentralCamera.leading33 Cm).
Proof.
  destruct Cm as [[m00 m01 m02 m03] [m10 m11 m12 m13] [m20 m21 m22 m23]].
  cbv [fin34 fin4 fin33 fin3 CentralCamera.leading33
       c_0 c_1 c_2 hx hy hz hw r_0 r_1 r_2 vx vy vz]. tauto.
Qed.

(** The point of the rays of [plucker] solves [C @ (c, 1) = 0] whenever the
    leading block of [C] is regular. *)
Lemma plucker_point_solves (Cm : mat34) (Mi : mat33) (t : vec3) :
  fin34 Cm -> fin3 t ->
  inv (CentralCamera.leading33 Cm) = Ok Mi ->
  veq3 (mat34_vec Cm (e2h t)) (V3 fzero fzero fzero) ->
  veq3 (mat33_vec (mmap fopp Mi) (c34_3 Cm)) t.
Proof.
  intros HCf Ht Hinv Hc.
  open34 Cm HCf m00 m01 m02 m03 m10 m11 m12 m13 m20 m21 m22 m23.
  open3 t Ht tx ty tz. clear_trivial.
  cbv [CentralCamera.leading33 c_0 c_1 c_2 hx hy hz hw] in Hinv.
  q_in Hc. destruct Hc as (H0 & H1 & H2).
  assert (E0 : (m03 == - (m00 * tx + m01 * ty + m02 * tz))%Q) by lra.
  assert (E1 : (m13 == - (m10 * tx + m11 * ty + m12 * tz))%Q) by lra.
  assert (E2 : (m23 == - (m20 * tx + m21 * ty + m22 * tz))%Q) by lra.
  clear H0 H1 H2.
  set (dt := (m00 * (m11 * m22 + - (m12 * m21)) + - (m01 * (m10 * m22 + - (m12 * m20)))
              + m02 * (m10 * m21 + - (m11 * m20)))%Q).
  destruct (Qeq_dec dt 0) as [Hz | Hnz].
  - unfold inv in Hinv. rewrite det_finite in Hinv. fold dt in Hinv.
    simpl in Hinv. rewrite (Qsign_eq dt 0 Hz) in Hinv. discriminate Hinv.
  - rewrite (inv_finite_value _ _ _ _ _ _ _ _ _ Hnz) in Hinv.
    injection Hinv as <-.
    cbv [veq3 mat33_vec mmap vmap c34_3 dot3 r_0 r_1 r_2 c_0 c_1 c_2
         hx hy hz hw vx vy vz fadd fmul fopp feq].
    rewrite E0, E1, E2.
    split; [|split]; field; exact Hnz.
Qed.

(** X2.  Every ray [plucker] returns for a rigid camera starts at the position
    of the camera, and there is one ray per image point. *)
Theorem plucker_through_camera_position :
  forall (self : camera) (a b u v : Q) (pts : list vec2),
    ~ (a == 0)%Q -> ~ (b == 0)%Q ->
    meq (CentralCamera.K self) (intrinsic a b u v) ->
    finSE3 (pose self) ->
    orthogonal (SE3_R (pose self)) ->
    exists rays,
      CentralCamera.plucker self pts = Ok rays /\
      List.length rays = List.length pts /\
      forall c d, In (c, d) rays -> veq3 c (SE3_t (pose self)).
Proof.
  intros self a b u v pts Ha Hb HK HT HO.
  unfold CentralCamera.plucker.
  change (CentralCamera.C self None) with (CentralCamera.C self (Some (pose self))).
  destruct (C_is_projection self (pose self) a b u v HK HT) as (HCf & HM & Hc).
  set (Cm := CentralCamera.C self (Some (pose self))) in *.
  assert (HOt : orthogonal (transpose (transpose (SE3_R (pose self))))).
  { destruct (SE3_R (pose self)) as [[? ? ?] [? ? ?] [? ? ?]]. exact HO. }
  assert (Hfin : fin33 (CentralCamera.leading33 Cm)).
  { apply leading33_finite. exact HCf. }
  assert (Hreg : ~ det (CentralCamera.leading33 Cm) =~ fzero).
  { apply (rigid_leading_block_regular _ a b u v (SE3_R (pose self)) Ha Hb HO HM). }
  destruct (proj2 (inv_finite _ Hfin) Hreg) as (Mi & Hinv & _).
  rewrite Hinv. cbv [bind].
  eexists. split; [reflexivity|]. split; [apply length_map|].
  intros c d Hin. apply in_map_iff in Hin. destruct Hin as (p & Hp & _).
  injection Hp as <- _.
  apply (plucker_point_solves Cm Mi (SE3_t (pose self)) HCf (proj2 HT) Hinv Hc).
Qed.

(** The second view and two image points. *)
Lemma plucker_through_camera_position_witness :
  ~ (800 == 0)%Q /\
  meq (CentralCamera.K second_view) (intrinsic 800 800 512 512) /\
  finSE3 (pose second_view) /\
  orthogonal (SE3_R (pose second_view)) /\
  exists rays,
    CentralCamera.plucker second_view two_image_points = Ok rays /\
    List.length rays = List.length two_image_points /\
    forall c d, In (c, d) rays -> veq3 c (SE3_t (pose second_view)).
Proof.
  assert (H0 : ~ (800 == 0)%Q) by discriminate.
  assert (H1 : meq (CentralCamera.K second_view) (intrinsic 800 800 512 512))
    by (vm_compute; repeat split; reflexivity).
  assert (H2 : finSE3 (pose second_view)) by (vm_compute; tauto).
  assert (H3 : orthogonal (SE3_R (pose second_view)))
    by (vm_compute; repeat split; reflexivity).
  split; [discriminate|]. split; [exact H1|]. split; [exact H2|]. split; [exact H3|].
  apply (plucker_through_camera_position second_view 800 800 512 512
           two_image_points H0 H0 H1 H2 H3).
Defined.

(* ================================================================= *)
(** ** Projection of a conic *)

(** X3.  [project_conic] refuses what is not a 4x4 matrix; for a finite camera
    matrix and a finite 4x4 matrix [A] it returns the matrix [a] with
    [l.T @ a @ l = (C.T @ l).T @ A @ (C.T @ l)] for every image line [l],
    where [C.T @ l] is the plane through the camera centre and the line; and
    [a] is symmetric when [A] is. *)
Theorem project_conic_congruence :
  forall (self : camera) (A : mat44),
    fin34 (CentralCamera.C self None) -> fin44 A ->
    CentralCamera.project_conic self None = Raise ValueError /\
    exists a,
      CentralCamera.project_conic self (Some A) = Ok a /\
      fin33 a /\
      (forall l : vec3, fin3 l ->
         quadratic_form3 a l
         =~ quadratic_form4 A (vec3_mat34 l (CentralCamera.C self None))) /\
      (symmetric44 A -> symmetric33 a).
Proof.
  intros self A HCf HA.
  split; [reflexivity|].
  unfold CentralCamera.project_conic.
  generalize dependent (CentralCamera.C self None). intros Cm HCf.
  eexists. split; [reflexivity|].
  open34 Cm HCf m00 m01 m02 m03 m10 m11 m12 m13 m20 m21 m22 m23.
  destruct A as [A0 A1 A2 A3]. destruct HA as (HA0 & HA1 & HA2 & HA3).
  cbv [t_0 t_1 t_2 t_3] in HA0, HA1, HA2, HA3.
  open4 A0 HA0 a00 a01 a02 a03. open4 A1 HA1 a10 a11 a12 a13.
  open4 A2 HA2 a20 a21 a22 a23. open4 A3 HA3 a30 a31 a32 a33.
  clear_trivial.
  split; [|split].
  - cbv. tauto.
  - intros l Hl. open3 l Hl l0 l1 l2. clear_trivial.
    cbv [quadratic_form3 quadratic_form4 CentralCamera.mat34_mat43 mat34_mat44
         vec4_mat44 vec3_mat34 mat33_vec mat44_vec dot3 dot4
         c44_0 c44_1 c44_2 c44_3 c34_0 c34_1 c34_2 c34_3
         r_0 r_1 r_2 c_0 c_1 c_2 t_0 t_1 t_2 t_3
         hx hy hz hw vx vy vz fadd fmul feq].
    ring.
  - cbv [symmetric44 symmetric33 veq4 meq veq3 transpose col0 col1 col2
         CentralCamera.mat34_mat43 mat34_mat44
         vec4_mat44 dot4 c44_0 c44_1 c44_2 c44_3
         r_0 r_1 r_2 c_0 c_1 c_2 t_0 t_1 t_2 t_3
         hx hy hz hw vx vy vz fadd fmul feq].
    intros ((_ & S01 & S02 & S03) & (_ & _ & S12 & S13) & (_ & _ & _ & S23) & _).
    rewrite S01, S02, S03, S12, S13, S23.
    repeat split; ring.
Qed.

(** The default camera and a sphere in front of it. *)
Lemma project_conic_congruence_witness :
  fin34 (CentralCamera.C default_camera None) /\ fin44 sphere /\
  CentralCamera.project_conic default_camera None = Raise ValueError /\
  exists a,
    CentralCamera.project_conic default_camera (Some sphere) = Ok a /\
    fin33 a /\
    (forall l : vec3, fin3 l ->
       quadratic_form3 a l
       =~ quadratic_form4 sphere (vec3_mat34 l (CentralCamera.C default_camera None))) /\
    (symmetric44 sphere -> symmetric33 a).
Proof.
  assert (H1 : fin34 (CentralCamera.C default_camera None)) by (vm_compute; tauto).
  assert (H2 : fin44 sphere) by (vm_compute; tauto).
  split; [exact H1|]. split; [exact H2|].
  apply (project_conic_congruence default_camera sphere H1 H2).
Defined.

(* ================================================================= *)
(** ** The projection equation *)

(** [C @ P] in terms of the coordinates of the point in the camera frame. *)
Lemma C_times_point (self : camera) (T : SE3) (Pw : vec4) (a b u v : Q) :
  meq (CentralCamera.K self) (intrinsic a b u v) ->
  finSE3 T -> fin4 Pw ->
  exists x y z w,
    camera_frame T Pw = V4 (Fin x) (Fin y) (Fin z) (Fin w) /\
    veq3 (mat34_vec (CentralCamera.C self (Some T)) Pw)
         (V3 (Fin (a * x + u * z)) (Fin (b * y + v * z)) (Fin z)) /\
    fin3 (mat34_vec (CentralCamera.C self (Some T)) Pw).
Proof.
  unfold CentralCamera.C. generalize (CentralCamera.K self) as Km.
  intros Km HK [HRf Htf] HP.
  destruct T as [R t]. cbv [SE3_R SE3_t] in *.
  open33 R HRf r00 r01 r02 r10 r11 r12 r20 r21 r22.
  open3 t Htf tx ty tz. open4 Pw HP px py pz pw. clear_trivial.
  destruct Km as [[k00 k01 k02] [k10 k11 k12] [k20 k21 k22]].
  cbv [meq veq3 intrinsic r_0 r_1 r_2 vx vy vz fzero fone] in HK.
  destruct HK as [[H00 [H01 H02]] [[H10 [H11 H12]] [H20 [H21 H22]]]].
  apply feq_fin_l in H00, H01, H02, H10, H11, H12, H20, H21, H22.
  destruct H00 as (q00 & -> & H00), H01 as (q01 & -> & H01), H02 as (q02 & -> & H02).
  destruct H10 as (q10 & -> & H10), H11 as (q11 & -> & H11), H12 as (q12 & -> & H12).
  destruct H20 as (q20 & -> & H20), H21 as (q21 & -> & H21), H22 as (q22 & -> & H22).
  do 4 eexists. split; [la_unfold; reflexivity|].
  la_unfold.
  rewrite H00, H01, H02, H10, H11, H12, H20, H21, H22.
  split; [|tauto]. repeat split; ring.
Qed.

(** One column of [project_point]: for a point in front of the camera the
    behind check changes nothing, and the division gives the projection
    equation. *)
Lemma pinhole_column (self : camera) (T : SE3) (Pw : vec4) (a b u v : Q) :
  meq (CentralCamera.K self) (intrinsic a b u v) ->
  finSE3 T -> fin4 Pw ->
  fltb fzero (depth T Pw) = true ->
  let X := camera_frame T Pw in
  let c := mat34_vec (CentralCamera.C self (Some T)) Pw in
  (CentralCamera.mark_behind c = c) /\
  (e0 (h2e c) =~ Fin a * (hx X / hz X) + Fin u) /\
  (e1 (h2e c) =~ Fin b * (hy X / hz X) + Fin v).
Proof.
  intros HK HT HP Hz X c.
  destruct (C_times_point self _ Pw a b u v HK HT HP) as (x & y & z & w & HX & Hx & Hxf).
  subst X. unfold depth in Hz. rewrite HX in *. cbv [hx hy hz] in *.
  apply fltb_fin in Hz. fold c in Hx, Hxf.
  split.
  - unfold CentralCamera.mark_behind.
    destruct Hx as (_ & _ & Hc).
    rewrite (fltb_feq_l _ _ fzero Hc). cbv [vz].
    destruct (fltb (Fin z) fzero) eqn:E; [|reflexivity].
    apply fltb_fin in E. lra.
  - destruct c as [c0 c1 c2]. destruct Hx as (H0 & H1 & H2).
    cbv [vx vy vz] in H0, H1, H2.
    apply feq_fin_l in H0, H1, H2.
    destruct H0 as (q0 & -> & H0), H1 as (q1 & -> & H1), H2 as (q2 & -> & H2).
    assert (Hq2 : ~ (q2 == 0)%Q) by lra.
    assert (Hz0 : ~ (z == 0)%Q) by lra.
    cbv [h2e e0 e1 vx vy vz]. rewrite !fdiv_fin by assumption.
    cbv [fmul fadd feq]. rewrite H0, H1, H2.
    split; field; assumption.
Qed.

(** X4.  The projection equation.  A point in front of a noise-free camera with
    intrinsic matrix [[a, 0, u], [0, b, v], [0, 0, 1]] is imaged at
    [(a * X / Z + u, b * Y / Z + v)], where [(X, Y, Z)] are its coordinates
    in the frame of the camera; the behind check changes nothing. *)
Theorem project_point_pinhole :
  forall (self : camera) (rng : nat -> vec2) (P : points)
         (pose' objpose : option SE3) (behind visibility : bool)
         (i : nat) (Pw : vec4) (a b u v : Q),
    meq (CentralCamera.K self) (intrinsic a b u v) ->
    noise self = None ->
    finSE3 (pose_used self pose') ->
    fin4 Pw ->
    nth_error (CentralCamera.world_points P objpose) i = Some Pw ->
    fltb fzero (depth (pose_used self pose') Pw) = true ->
    let X := camera_frame (pose_used self pose') Pw in
    exists p,
      nth_error (image_of (CentralCamera.project_point
                             self rng P pose' objpose behind visibility)) i = Some p /\
      e0 p =~ Fin a * (hx X / hz X) + Fin u /\
      e1 p =~ Fin b * (hy X / hz X) + Fin v.
Proof.
  intros self rng P pose' objpose behind visibility i Pw a b u v
         HK Hnoise HT HP Hi Hz X.
  destruct (pinhole_column self _ Pw a b u v HK HT HP Hz) as (Hmark & H0 & H1).
  rewrite project_point_image. cbv zeta.
  unfold CentralCamera.add_noise_distortion. rewrite Hnoise.
  eexists. split.
  - destruct behind; rewrite !nth_error_map, Hi; cbv [option_map];
      [rewrite Hmark|]; reflexivity.
  - split; [exact H0 | exact H1].
Qed.

(** The second view and a point three units in front of it. *)
Lemma project_point_pinhole_witness :
  meq (CentralCamera.K second_view) (intrinsic 800 800 512 512) /\
  finSE3 (pose_used second_view None) /\
  fin4 (e2h point_in_front) /\
  fltb fzero (depth (pose_used second_view None) (e2h point_in_front)) = true /\
  exists p,
    nth_error (image_of (CentralCamera.project_point
                           second_view no_draw (Cartesian [point_in_front])
                           None None true false)) 0 = Some p /\
    e0 p =~ Fin 800 * (hx (camera_frame (pose_used second_view None) (e2h point_in_front))
                       / hz (camera_frame (pose_used second_view None) (e2h point_in_front)))
            + Fin 512 /\
    e1 p =~ Fin 800 * (hy (camera_frame (pose_used second_view None) (e2h point_in_front))
                       / hz (camera_frame (pose_used second_view None) (e2h point_in_front)))
            + Fin 512.
Proof.
  assert (H1 : meq (CentralCamera.K second_view) (intrinsic 800 800 512 512))
    by (vm_compute; repeat split; reflexivity).
  assert (H2 : finSE3 (pose_used second_view None)) by (vm_compute; tauto).
  assert (H3 : fin4 (e2h point_in_front)) by (vm_compute; tauto).
  assert (H4 : fltb fzero (depth (pose_used second_view None) (e2h point_in_front))
               = true) by reflexivity.
  split; [exact H1|]. split; [exact H2|]. split; [exact H3|]. split; [exact H4|].
  apply (project_point_pinhole second_view no_draw (Cartesian [point_in_front])
           None None true false 0%nat (e2h point_in_front) 800 800 512 512
           H1 eq_refl H2 H3 eq_refl H4).
Defined.

(* ================================================================= *)
(** ** The epipolar constraint *)

(** The inverse of an intrinsic matrix. *)
Lemma inv_intrinsic (Km : mat33) (a b u v : Q) :
  meq Km (intrinsic a b u v) ->
  ~ (a == 0)%Q -> ~ (b == 0)%Q ->
  exists Kinv,
    inv Km = Ok Kinv /\
    meq Kinv (M33 (V3 (Fin (1 / a)) fzero (Fin (- u / a)))
                  (V3 fzero (Fin (1 / b)) (Fin (- v / b)))
                  (V3 fzero fzero fone)).
Proof.
  intros HK Ha Hb.
  pose proof (inv_compat _ _ HK) as Hinv.
  unfold intrinsic, fzero, fone in Hinv.
  assert (Hd : ~ (a * (b * 1 + - (v * 0)) + - (0 * (0 * 1 + - (v * 0)))
                  + u * (0 * 0 + - (b * 0)) == 0)%Q).
  { intros H. assert (Hab : (a * b == 0)%Q) by (rewrite <- H; ring).
    apply Qmult_integral in Hab. tauto. }
  rewrite (inv_finite_value _ _ _ _ _ _ _ _ _ Hd) in Hinv.
  destruct (inv Km) as [Kinv | e]; [|contradiction].
  exists Kinv. split; [reflexivity|].
  unfold req in Hinv.
  apply meq_trans with (1 := Hinv).
  cbv [meq veq3 r_0 r_1 r_2 vx vy vz feq fzero fone].
  repeat split; field; tauto.
Qed.

(** The motion [T2.inv() * T1] takes the coordinates of a point in the frame
    of the first pose to its coordinates in the frame of the second. *)
Lemma relative_motion_of_frames (T1 T2 : SE3) (P : vec3) :
  finSE3 T1 -> finSE3 T2 -> orthogonal (SE3_R T1) -> fin3 P ->
  let T21 := SE3_mul (SE3_inv T2) T1 in
  finSE3 T21 /\
  veq4 (camera_frame T2 (e2h P)) (mat44_vec (SE3_A T21) (camera_frame T1 (e2h P))).
Proof.
  intros [HR1 Ht1] [HR2 Ht2] [_ HO] HP.
  destruct T1 as [R1 t1], T2 as [R2 t2].
  cbv [SE3_R SE3_t] in HR1, Ht1, HR2, Ht2, HO.
  open33 R1 HR1 a00 a01 a02 a10 a11 a12 a20 a21 a22.
  open33 R2 HR2 b00 b01 b02 b10 b11 b12 b20 b21 b22.
  open3 t1 Ht1 p0 p1 p2. open3 t2 Ht2 q0 q1 q2. open3 P HP px py pz.
  clear_trivial.
  q_in HO.
  destruct HO as [[R00 [R01 R02]] [[_ [R11 R12]] [_ [_ R22]]]].
  pose proof (orthonormal_rows _ _ _ _ _ _ _ _ _ R00 R01 R02 R11 R12 R22)
    as (R00' & R01' & R02' & R11' & R12' & R22').
  clear R00 R01 R02 R11 R12 R22.
  la_unfold.
  split; [tauto|].
  repeat split; try ring; nsatz.
Qed.

Lemma veq3_fin (x : vec3) (a b c : Q) :
  veq3 x (V3 (Fin a) (Fin b) (Fin c)) ->
  exists a' b' c', x = V3 (Fin a') (Fin b') (Fin c') /\
                   (a' == a)%Q /\ (b' == b)%Q /\ (c' == c)%Q.
Proof.
  destruct x as [x0 x1 x2]. cbv [veq3 vx vy vz].
  intros (H0 & H1 & H2).
  apply feq_fin_l in H0, H1, H2.
  destruct H0 as (a' & -> & H0), H1 as (b' & -> & H1), H2 as (c' & -> & H2).
  exists a', b', c'. auto.
Qed.

(** [y.T @ (A.T @ E @ B) @ x] is [(A @ y).T @ E @ (B @ x)]. *)
Lemma bilinear_form_assoc (A Em B : mat33) (x y : vec3) :
  fin33 A -> fin33 Em -> fin33 B -> fin3 x -> fin3 y ->
  dot3 y (mat33_vec (matmul (matmul (transpose A) Em) B) x)
  =~ dot3 (mat33_vec A y) (mat33_vec Em (mat33_vec B x)).
Proof.
  intros HA HE HB Hx Hy.
  open33 A HA a00 a01 a02 a10 a11 a12 a20 a21 a22.
  open33 Em HE e00 e01 e02 e10 e11 e12 e20 e21 e22.
  open33 B HB b00 b01 b02 b10 b11 b12 b20 b21 b22.
  open3 x Hx x0 x1 x2. open3 y Hy y0 y1 y2. clear_trivial.
  la_unfold. ring.
Qed.

Lemma meq_fin (a b : mat33) : meq a b -> fin33 b -> fin33 a.
Proof.
  destruct a as [[a00 a01 a02] [a10 a11 a12] [a20 a21 a22]].
  destruct b as [[b00 b01 b02] [b10 b11 b12] [b20 b21 b22]].
  cbv [meq veq3 fin33 fin3 r_0 r_1 r_2 vx vy vz].
  intros [[H00 [H01 H02]] [[H10 [H11 H12]] [H20 [H21 H22]]]]
         [[F00 [F01 F02]] [[F10 [F11 F12]] [F20 [F21 F22]]]].
  fin_as b00; fin_as b01; fin_as b02; fin_as b10; fin_as b11; fin_as b12;
    fin_as b20; fin_as b21; fin_as b22.
  apply feq_fin_l in H00, H01, H02, H10, H11, H12, H20, H21, H22.
  destruct H00 as (? & -> & _), H01 as (? & -> & _), H02 as (? & -> & _).
  destruct H10 as (? & -> & _), H11 as (? & -> & _), H12 as (? & -> & _).
  destruct H20 as (? & -> & _), H21 as (? & -> & _), H22 as (? & -> & _).
  cbv [is_fin]. tauto.
Qed.

(** The image point of the projection equation, in normalised coordinates:
    [inv(K) @ (u, v, 1)] is [(X/Z, Y/Z, 1)]. *)
Lemma normalised_image_point (Kinv : mat33) (p : vec2) (a b u v x y z : Q) :
  ~ (a == 0)%Q -> ~ (b == 0)%Q -> ~ (z == 0)%Q ->
  meq Kinv (M33 (V3 (Fin (1 / a)) fzero (Fin (- u / a)))
                (V3 fzero (Fin (1 / b)) (Fin (- v / b)))
                (V3 fzero fzero fone)) ->
  e0 p =~ Fin a * (Fin x / Fin z) + Fin u ->
  e1 p =~ Fin b * (Fin y / Fin z) + Fin v ->
  fin3 (e2h2 p) /\
  veq3 (mat33_vec Kinv (e2h2 p)) (V3 (Fin (x / z)) (Fin (y / z)) (Fin 1)).
Proof.
  intros Ha Hb Hz HK H0 H1.
  rewrite fdiv_fin in H0, H1 by exact Hz.
  cbv [fmul fadd] in H0, H1.
  destruct p as [p0 p1]. cbv [e0 e1] in H0, H1.
  apply feq_fin_l in H0, H1.
  destruct H0 as (q0 & -> & H0), H1 as (q1 & -> & H1).
  split; [cbv; tauto|].
  destruct Kinv as [[k00 k01 k02] [k10 k11 k12] [k20 k21 k22]].
  cbv [meq veq3 r_0 r_1 r_2 vx vy vz fzero fone] in HK.
  destruct HK as [[H00 [H01 H02]] [[H10 [H11 H12]] [H20 [H21 H22]]]].
  apply feq_fin_l in H00, H01, H02, H10, H11, H12, H20, H21, H22.
  destruct H00 as (q00 & -> & H00), H01 as (q01 & -> & H01), H02 as (q02 & -> & H02).
  destruct H10 as (q10 & -> & H10), H11 as (q11 & -> & H11), H12 as (q12 & -> & H12).
  destruct H20 as (q20 & -> & H20), H21 as (q21 & -> & H21), H22 as (q22 & -> & H22).
  la_unfold.
  rewrite H00, H01, H02, H10, H11, H12, H20, H21, H22, H0, H1.
  repeat split; field; tauto.
Qed.

Section Epipolar.
Variables r00 r01 r02 r10 r11 r12 r20 r21 r22 t0 t1 t2 : Q.
Variables x1 y1 z1 x2 y2 z2 : Q.
Hypothesis X : (x2 == r00 * x1 + r01 * y1 + r02 * z1 + t0)%Q.
Hypothesis Y : (y2 == r10 * x1 + r11 * y1 + r12 * z1 + t1)%Q.
Hypothesis Z : (z2 == r20 * x1 + r21 * y1 + r22 * z1 + t2)%Q.

(** A point, the translation and the rotated point are coplanar. *)
Lemma coplanarity :
  (x2 * (t1 * (r20 * x1 + r21 * y1 + r22 * z1) - t2 * (r10 * x1 + r11 * y1 + r12 * z1))
   + y2 * (t2 * (r00 * x1 + r01 * y1 + r02 * z1) - t0 * (r20 * x1 + r21 * y1 + r22 * z1))
   + z2 * (t0 * (r10 * x1 + r11 * y1 + r12 * z1) - t1 * (r00 * x1 + r01 * y1 + r02 * z1))
   == 0)%Q.
Proof using All. rewrite X, Y, Z. ring. Qed.
End Epipolar.

Lemma camera_frame_finite (T : SE3) (P : vec3) :
  finSE3 T -> fin3 P ->
  fin4 (camera_frame T (e2h P)) /\ hw (camera_frame T (e2h P)) =~ fone.
Proof.
  intros [HR Ht] HP. destruct T as [R t]. cbv [SE3_R SE3_t] in *.
  open33 R HR r00 r01 r02 r10 r11 r12 r20 r21 r22. open3 t Ht tx ty tz.
  open3 P HP px py pz. clear_trivial.
  la_unfold. split; [tauto|]. cbv [hw fadd fmul fzero fone feq]. ring.
Qed.

(** X7.  The epipolar constraint.  Two noise-free cameras with rigid poses see a
    point that lies in front of both; [p1] and [p2] are its images and [Fm]
    the fundamental matrix [F] computes for the pair.  Then
    [(p2, 1).T @ Fm @ (p1, 1) = 0]. *)
Theorem F_epipolar_constraint :
  forall (c1 c2 : camera) (rng : nat -> vec2) (P : vec3)
         (a1 b1 u1 v1 a2 b2 u2 v2 : Q),
    meq (CentralCamera.K c1) (intrinsic a1 b1 u1 v1) ->
    meq (CentralCamera.K c2) (intrinsic a2 b2 u2 v2) ->
    ~ (a1 == 0)%Q -> ~ (b1 == 0)%Q -> ~ (a2 == 0)%Q -> ~ (b2 == 0)%Q ->
    noise c1 = None -> noise c2 = None ->
    finSE3 (pose c1) -> finSE3 (pose c2) ->
    orthogonal (SE3_R (pose c1)) ->
    fin3 P ->
    fltb fzero (depth (pose c1) (e2h P)) = true ->
    fltb fzero (depth (pose c2) (e2h P)) = true ->
    exists p1 p2 Fm,
      CentralCamera.project_point c1 rng (Cartesian [P]) None None true false
      = Image [p1] /\
      CentralCamera.project_point c2 rng (Cartesian [P]) None None true false
      = Image [p2] /\
      CentralCamera.F c1 (ViewCamera c2) = Ok Fm /\
      dot3 (e2h2 p2) (mat33_vec Fm (e2h2 p1)) =~ fzero.
Proof.
  intros c1 c2 rng P a1 b1 u1 v1 a2 b2 u2 v2
         HK1 HK2 Ha1 Hb1 Ha2 Hb2 Hn1 Hn2 HT1 HT2 HO HP Hz1 Hz2.
  assert (HPw : fin4 (e2h P)).
  { destruct P as [px py pz]. cbv [fin3 vx vy vz] in HP. cbv. tauto. }
  destruct (pinhole_column c1 _ _ a1 b1 u1 v1 HK1 HT1 HPw Hz1) as (Hm1 & H10 & H11).
  destruct (pinhole_column c2 _ _ a2 b2 u2 v2 HK2 HT2 HPw Hz2) as (Hm2 & H20 & H21).
  destruct (relative_motion_of_frames _ _ P HT1 HT2 HO HP) as (HT21 & Hrel).
  destruct (inv_intrinsic _ a1 b1 u1 v1 HK1 Ha1 Hb1) as (K1inv & HI1 & HK1i).
  destruct (inv_intrinsic _ a2 b2 u2 v2 HK2 Ha2 Hb2) as (K2inv & HI2 & HK2i).
  unfold CentralCamera.project_point, CentralCamera.add_noise_distortion,
    CentralCamera.world_points, CentralCamera.F, CentralCamera.E.
  rewrite Hn1, Hn2, HI1, HI2. cbv [bind map].
  rewrite Hm1, Hm2.
  do 3 eexists. split; [reflexivity|]. split; [reflexivity|]. split; [reflexivity|].
  set (p1 := h2e (mat34_vec (CentralCamera.C c1 (Some (pose c1))) (e2h P))) in *.
  set (p2 := h2e (mat34_vec (CentralCamera.C c2 (Some (pose c2))) (e2h P))) in *.
  set (T21 := SE3_mul (SE3_inv (pose c2)) (pose c1)) in *.
  unfold depth in Hz1, Hz2.
  pose proof (camera_frame_finite (pose c1) P HT1 HP) as (HX1 & HW1).
  destruct (camera_frame (pose c1) (e2h P)) as [fx1 fy1 fz1 fw1].
  destruct (camera_frame (pose c2) (e2h P)) as [fx2 fy2 fz2 fw2].
  clear Hm1 Hm2 HK1 HK2 HI1 HI2 Hn1 Hn2.
  cbv [fin4 hx hy hz hw] in HX1, HW1. destruct HX1 as (? & ? & ? & ?).
  fin_as fx1; fin_as fy1; fin_as fz1; fin_as fw1.
  cbv [feq fone] in HW1.
  destruct T21 as [R21 t21]. destruct HT21 as [HRf Htf]. cbv [SE3_R SE3_t] in HRf, Htf.
  open33 R21 HRf r00 r01 r02 r10 r11 r12 r20 r21 r22.
  open3 t21 Htf t0 t1 t2. clear_trivial.
  cbv [veq4 mat44_vec SE3_A SE3_R SE3_t dot4 t_0 t_1 t_2 t_3
       r_0 r_1 r_2 vx vy vz hx hy hz hw fadd fmul fzero fone] in Hrel.
  destruct Hrel as (E0 & E1 & E2 & E3).
  apply feq_fin_l in E0, E1, E2, E3.
  destruct E0 as (x2 & -> & E0), E1 as (y2 & -> & E1),
           E2 as (z2 & -> & E2), E3 as (w2 & -> & E3).
  cbv [hx hy hz] in *.
  apply fltb_fin in Hz1, Hz2.
  assert (Hz1' : ~ (fz1 == 0)%Q) by lra.
  assert (Hz2' : ~ (z2 == 0)%Q) by lra.
  destruct (normalised_image_point K1inv p1 a1 b1 u1 v1 fx1 fy1 fz1
              Ha1 Hb1 Hz1' HK1i H10 H11) as (Hp1 & Hn1).
  destruct (normalised_image_point K2inv p2 a2 b2 u2 v2 x2 y2 z2
              Ha2 Hb2 Hz2' HK2i H20 H21) as (Hp2 & Hn2).
  assert (HK1f : fin33 K1inv) by (apply (meq_fin _ _ HK1i); cbv; tauto).
  assert (HK2f : fin33 K2inv) by (apply (meq_fin _ _ HK2i); cbv; tauto).
  eapply feq_trans.
  { apply bilinear_form_assoc; try assumption. cbv. tauto. }
  apply veq3_fin in Hn1, Hn2.
  destruct Hn1 as (n10 & n11 & n12 & -> & N10 & N11 & N12).
  destruct Hn2 as (n20 & n21 & n22 & -> & N20 & N21 & N22).
  cbv [SE3_R SE3_t matmul skew mat33_vec vec_mat33 dot3 col0 col1 col2
       r_0 r_1 r_2 vx vy vz fadd fmul fopp fzero feq].
  rewrite N10, N11, N12, N20, N21, N22.
  pose proof (coplanarity r00 r01 r02 r10 r11 r12 r20 r21 r22 t0 t1 t2
                          fx1 fy1 fz1 x2 y2 z2) as Hco.
  feed Hco ltac:(rewrite ?E0, ?E1, ?E2, HW1; ring).
  clear - Hco Hz1' Hz2'.
  assert (Hgoal : forall g : Q, (g * (fz1 * z2) == 0)%Q -> (g == 0)%Q).
  { intros g Hg. apply Qmult_integral in Hg. destruct Hg as [Hg | Hg]; [exact Hg|].
    apply Qmult_integral in Hg. tauto. }
  apply Hgoal.
  match type of Hco with
  | (?L == 0)%Q => transitivity L; [field; tauto | exact Hco]
  end.
Qed.

(** The default camera, the second view and a point in front of both. *)
Lemma F_epipolar_constraint_witness :
  meq (CentralCamera.K default_camera) (intrinsic 800 800 512 512) /\
  meq (CentralCamera.K second_view) (intrinsic 800 800 512 512) /\
  ~ (800 == 0)%Q /\
  finSE3 (pose default_camera) /\ finSE3 (pose second_view) /\
  orthogonal (SE3_R (pose default_camera)) /\
  fin3 point_in_front /\
  fltb fzero (depth (pose default_camera) (e2h point_in_front)) = true /\
  fltb fzero (depth (pose second_view) (e2h point_in_front)) = true /\
  exists p1 p2 Fm,
    CentralCamera.project_point default_camera no_draw (Cartesian [point_in_front])
                                None None true false = Image [p1] /\
    CentralCamera.project_point second_view no_draw (Cartesian [point_in_front])
                                None None true false = Image [p2] /\
    CentralCamera.F default_camera (ViewCamera second_view) = Ok Fm /\
    dot3 (e2h2 p2) (mat33_vec Fm (e2h2 p1)) =~ fzero.
Proof.
  assert (H1 : meq (CentralCamera.K default_camera) (intrinsic 800 800 512 512))
    by (vm_compute; repeat split; reflexivity).
  assert (H2 : meq (CentralCamera.K second_view) (intrinsic 800 800 512 512))
    by (vm_compute; repeat split; reflexivity).
  assert (H3 : ~ (800 == 0)%Q) by discriminate.
  assert (H4 : finSE3 (pose default_camera)) by (vm_compute; tauto).
  assert (H5 : finSE3 (pose second_view)) by (vm_compute; tauto).
  assert (H6 : orthogonal (SE3_R (pose default_camera)))
    by (vm_compute; repeat split; reflexivity).
  assert (H7 : fin3 point_in_front) by (vm_compute; tauto).
  assert (H8 : fltb fzero (depth (pose default_camera) (e2h point_in_front)) = true)
    by reflexivity.
  assert (H9 : fltb fzero (depth (pose second_view) (e2h point_in_front)) = true)
    by reflexivity.
  split; [exact H1|]. split; [exact H2|]. split; [exact H3|]. split; [exact H4|].
  split; [exact H5|]. split; [exact H6|]. split; [exact H7|]. split; [exact H8|].
  split; [exact H9|].
  apply (F_epipolar_constraint default_camera second_view no_draw point_in_front
           800 800 512 512 800 800 512 512
           H1 H2 H3 H3 H3 H3 eq_refl eq_refl H4 H5 H6 H7 H8 H9).
Defined.

(* ================================================================= *)
(** ** From the fundamental matrix back to the essential matrix *)

Lemma SE3_inv_finite (T : SE3) : finSE3 T -> finSE3 (SE3_inv T).
Proof.
  intros [HR Ht]. destruct T as [R t]. cbv [SE3_R SE3_t] in *.
  open33 R HR r00 r01 r02 r10 r11 r12 r20 r21 r22. open3 t Ht tx ty tz.
  la_unfold. tauto.
Qed.

Lemma SE3_mul_finite (T1 T2 : SE3) : finSE3 T1 -> finSE3 T2 -> finSE3 (SE3_mul T1 T2).
Proof.
  intros [HR1 Ht1] [HR2 Ht2]. destruct T1 as [R1 t1], T2 as [R2 t2].
  cbv [SE3_R SE3_t] in *.
  open33 R1 HR1 a00 a01 a02 a10 a11 a12 a20 a21 a22.
  open33 R2 HR2 b00 b01 b02 b10 b11 b12 b20 b21 b22.
  open3 t1 Ht1 p0 p1 p2. open3 t2 Ht2 q0 q1 q2.
  la_unfold. tauto.
Qed.

Lemma essential_finite (T : SE3) : finSE3 T -> fin33 (matmul (skew (SE3_t T)) (SE3_R T)).
Proof.
  intros [HR Ht]. destruct T as [R t]. cbv [SE3_R SE3_t] in *.
  open33 R HR r00 r01 r02 r10 r11 r12 r20 r21 r22. open3 t Ht tx ty tz.
  la_unfold. tauto.
Qed.

(** [K.T @ (inv(K).T @ E @ inv(K)) @ K] is [E]. *)
Lemma intrinsics_cancel (Km Ka Kb Em : mat33) (a b u v : Q) :
  ~ (a == 0)%Q -> ~ (b == 0)%Q ->
  meq Km (intrinsic a b u v) ->
  meq Ka (M33 (V3 (Fin (1 / a)) fzero (Fin (- u / a)))
              (V3 fzero (Fin (1 / b)) (Fin (- v / b)))
              (V3 fzero fzero fone)) ->
  meq Kb (M33 (V3 (Fin (1 / a)) fzero (Fin (- u / a)))
              (V3 fzero (Fin (1 / b)) (Fin (- v / b)))
              (V3 fzero fzero fone)) ->
  fin33 Em ->
  meq (matmul (matmul (transpose Km) (matmul (matmul (transpose Ka) Em) Kb)) Km) Em.
Proof.
  intros Ha Hb HK HKa HKb HE.
  eapply meq_trans.
  { apply matmul_compat; [apply matmul_compat|]; 
      [ apply transpose_compat; exact HK
      | apply matmul_compat; [apply matmul_compat|];
          [apply transpose_compat; exact HKa | apply meq_refl | exact HKb]
      | exact HK ]. }
  open33 Em HE e00 e01 e02 e10 e11 e12 e20 e21 e22. clear_trivial.
  cbv [intrinsic]. la_unfold.
  cbv [fadd fmul fzero fone feq].
  repeat split; field; tauto.
Qed.

(** X8.  [E(F)] undoes [F]: for a second view given as a motion, or as a camera
    with the same intrinsic matrix, the essential matrix recovered from the
    fundamental matrix is the essential matrix of the pair. *)
Theorem E_of_F_round_trip :
  forall (self : camera) (other : view) (a b u v : Q),
    meq (CentralCamera.K self) (intrinsic a b u v) ->
    ~ (a == 0)%Q -> ~ (b == 0)%Q ->
    match other with
    | ViewSE3 T => finSE3 T
    | ViewCamera o =>
        finSE3 (pose self) /\ finSE3 (pose o) /\
        meq (CentralCamera.K o) (CentralCamera.K self)
    | _ => False
    end ->
    exists Fm Em,
      CentralCamera.F self other = Ok Fm /\
      CentralCamera.E self other = Ok Em /\
      req meq (CentralCamera.E self (ViewArray Fm)) (Ok Em).
Proof.
  intros self other a b u v HK Ha Hb Hother.
  destruct (inv_intrinsic _ a b u v HK Ha Hb) as (Kinv & HI & HKi).
  destruct other as [o | T | Fm | ]; try contradiction.
  - destruct Hother as (HT1 & HT2 & HKo).
    pose proof (meq_trans _ _ _ HKo HK) as HK2.
    destruct (inv_intrinsic _ a b u v HK2 Ha Hb) as (K2inv & HI2 & HK2i).
    unfold CentralCamera.F, CentralCamera.E. cbv [bind]. rewrite HI, HI2.
    do 2 eexists. split; [reflexivity|]. split; [reflexivity|].
    cbv [req].
    apply (intrinsics_cancel _ _ _ _ a b u v Ha Hb HK HK2i HKi).
    apply essential_finite. apply SE3_mul_finite; [apply SE3_inv_finite|]; assumption.
  - unfold CentralCamera.F, CentralCamera.E. cbv [bind]. rewrite HI.
    do 2 eexists. split; [reflexivity|]. split; [reflexivity|].
    cbv [req].
    apply (intrinsics_cancel _ _ _ _ a b u v Ha Hb HK HKi HKi).
    apply essential_finite. apply SE3_inv_finite. exact Hother.
Qed.

(** The default camera and the second view, which has the same intrinsic
    matrix. *)
Lemma E_of_F_round_trip_witness :
  meq (CentralCamera.K default_camera) (intrinsic 800 800 512 512) /\
  ~ (800 == 0)%Q /\
  (finSE3 (pose default_camera) /\ finSE3 (pose second_view) /\
   meq (CentralCamera.K second_view) (CentralCamera.K default_camera)) /\
  exists Fm Em,
    CentralCamera.F default_camera (ViewCamera second_view) = Ok Fm /\
    CentralCamera.E default_camera (ViewCamera second_view) = Ok Em /\
    req meq (CentralCamera.E default_camera (ViewArray Fm)) (Ok Em).
Proof.
  assert (H1 : meq (CentralCamera.K default_camera) (intrinsic 800 800 512 512))
    by (vm_compute; repeat split; reflexivity).
  assert (H2 : ~ (800 == 0)%Q) by discriminate.
  assert (H3 : finSE3 (pose default_camera) /\ finSE3 (pose second_view) /\
               meq (CentralCamera.K second_view) (CentralCamera.K default_camera))
    by (vm_compute; repeat split; reflexivity).
  split; [exact H1|]. split; [exact H2|]. split; [exact H3|].
  apply (E_of_F_round_trip default_camera (ViewCamera second_view)
           800 800 512 512 H1 H2 H2 H3).
Defined.

(* ================================================================= *)
(** ** More sample inputs *)



(** The default camera and the second view. *)
Lemma E_of_camera_is_E_of_relative_motion_witness :
  finSE3 (pose default_camera) /\ finSE3 (pose second_view) /\
  orthogonal (SE3_R (pose default_camera)) /\
  req meq (CentralCamera.E default_camera (ViewCamera second_view))
          (CentralCamera.E default_camera
             (ViewSE3 (SE3_mul (SE3_inv (pose default_camera)) (pose second_view)))).
Proof.
  assert (H1 : finSE3 (pose default_camera)) by (vm_compute; tauto).
  assert (H2 : finSE3 (pose second_view)) by (vm_compute; tauto).
  assert (H3 : orthogonal (SE3_R (pose default_camera)))
    by (vm_compute; repeat split; reflexivity).
  split; [exact H1|]. split; [exact H2|]. split; [exact H3|].
  apply (E_of_camera_is_E_of_relative_motion default_camera second_view H1 H2 H3).
Defined.

(* ================================================================= *)
(** ** The RQ factorisation *)

(** X14.  What the comment of [rq] promises, given what [np.linalg.qr] promises:
    the factors [U], [Q] of a finite matrix [S] are an upper triangular and an
    orthogonal matrix with [det(Q) = 1 > 0] and [U @ Q = S]. *)
Theorem rq_factorisation :
  forall (la : linalg) (S : mat33),
    fin33 S ->
    qr_contract la (CentralCamera.flip (transpose S)) ->
    exists U Qm,
      CentralCamera.rq la S = (U, Qm) /\
      upper_triangular U /\ orthogonal Qm /\ det Qm =~ fone /\
      meq (matmul U Qm) S.
Proof. intros la S HS Hqr. exact (rq_spec la S HS Hqr). Qed.

(** The intrinsic matrix of the default camera, which is upper triangular. *)
Lemma rq_factorisation_witness :
  fin33 (CentralCamera.K default_camera) /\
  qr_contract default_backend (CentralCamera.flip (transpose (CentralCamera.K default_camera))) /\
  exists U Qm,
    CentralCamera.rq default_backend (CentralCamera.K default_camera) = (U, Qm) /\
    upper_triangular U /\ orthogonal Qm /\ det Qm =~ fone /\
    meq (matmul U Qm) (CentralCamera.K default_camera).
Proof.
  assert (H1 : fin33 (CentralCamera.K default_camera)) by (vm_compute; tauto).
  assert (H2 : qr_contract default_backend
                 (CentralCamera.flip (transpose (CentralCamera.K default_camera))))
    by (vm_compute; repeat split; reflexivity).
  split; [exact H1|]. split; [exact H2|].
  apply (rq_factorisation default_backend (CentralCamera.K default_camera) H1 H2).
Defined.

(* ================================================================= *)
(** ** Calibration from noise-free data *)

Lemma dotl_compat (row : list fl) :
  forall c c', Forall2 feq c c' -> CentralCamera.dotl row c =~ CentralCamera.dotl row c'.
Proof.
  induction row as [|x row IH]; intros c c' Hc; simpl.
  - reflexivity.
  - destruct Hc as [|y y' c c' Hy Hc]; [reflexivity|].
    apply fadd_compat; [apply fmul_compat; [apply feq_refl | exact Hy] | apply IH; exact Hc].
Qed.

Lemma residual_compat (A : list (list fl)) :
  forall b c c', Forall2 feq c c' ->
    Forall2 feq (CentralCamera.residual A c b) (CentralCamera.residual A c' b).
Proof.
  induction A as [|row A IH]; intros b c c' Hc; simpl.
  - constructor.
  - destruct b as [|bi b]; [constructor|].
    constructor; [|apply IH; exact Hc].
    apply fsub_compat; [apply dotl_compat; exact Hc | apply feq_refl].
Qed.

Lemma Forall2_feq_zero (r r' : list fl) :
  Forall2 feq r r' -> Forall (fun x => x =~ fzero) r' -> Forall (fun x => x =~ fzero) r.
Proof.
  induction 1 as [|x x' r r' Hx _ IH]; intros H0; [constructor|].
  inversion H0; subst. constructor; [|apply IH; assumption].
  apply feq_trans with x'; assumption.
Qed.

(** The two rows one correspondence contributes are satisfied by the matrix
    that made the image point. *)
Lemma dlt_rows_exact (Cm : mat34) (X : vec3) (A : list (list fl)) (b : list fl) :
  fin34 Cm -> hw (c_2 Cm) =~ fone -> fin3 X ->
  ~ vz (mat34_vec Cm (e2h X)) =~ fzero ->
  let uv := h2e (mat34_vec Cm (e2h X)) in
  exists r0 r1,
    CentralCamera.residual (CentralCamera.dlt_rows uv X ++ A) (entries11 Cm)
                           (e0 uv :: e1 uv :: b)
    = r0 :: r1 :: CentralCamera.residual A (entries11 Cm) b /\
    r0 =~ fzero /\ r1 =~ fzero.
Proof.
  intros HCf Hone HX Hz uv. subst uv.
  open34 Cm HCf m00 m01 m02 m03 m10 m11 m12 m13 m20 m21 m22 m23.
  open3 X HX px py pz. clear_trivial.
  cbv [c_2 hw feq fone] in Hone.
  cbv [mat34_vec e2h dot4 c_0 c_1 c_2 hx hy hz hw vx vy vz fmul fadd fone feq fzero]
    in Hz |- *.
  cbv [h2e vx vy vz]. rewrite !fdiv_fin by exact Hz.
  do 2 eexists. split; [reflexivity|].
  cbv [CentralCamera.dotl CentralCamera.dlt_rows entries11 e0 e1
       c_0 c_1 c_2 hx hy hz hw vx vy vz fmul fadd fsub fopp fone fzero feq].
  rewrite Hone in Hz. rewrite !Hone.
  split; field; exact Hz.
Qed.

(** X15.  Calibration from exact data.  Image points made by a finite matrix
    [Cm] whose last entry is 1, from points at nonzero depth, give a system
    that the entries of [Cm] solve with residual zero; and when [lstsq]
    answers with these entries, [points2C] returns [Cm] and a zero
    residual. *)
Theorem points2C_exact_on_noise_free_data :
  forall (la : linalg) (Cm : mat34) (P : list vec3) (c : list fl),
    fin34 Cm -> hw (c_2 Cm) =~ fone ->
    Forall (fun X => fin3 X /\ ~ vz (mat34_vec Cm (e2h X)) =~ fzero) P ->
    let p := map (fun X => h2e (mat34_vec Cm (e2h X))) P in
    let A := fst (CentralCamera.dlt_system p P) in
    let b := snd (CentralCamera.dlt_system p P) in
    Forall (fun r => r =~ fzero) (CentralCamera.residual A (entries11 Cm) b) /\
    (lstsq la A b = Ok c -> Forall2 feq c (entries11 Cm) ->
     exists C' r,
       CentralCamera.points2C la P p = Ok (C', r) /\
       meq34 C' Cm /\ Forall (fun x => x =~ fzero) r).
Proof.
  intros la Cm P c HCf Hone HP p A b.
  assert (Hres : Forall (fun r => r =~ fzero)
                        (CentralCamera.residual A (entries11 Cm) b)).
  { subst p A b. induction HP as [|X P [HX Hz] HP IH]; [constructor|].
    cbn [map CentralCamera.dlt_system].
    destruct (CentralCamera.dlt_system _ P) as [A b]. cbn [fst snd] in *.
    destruct (dlt_rows_exact Cm X A b HCf Hone HX Hz) as (r0 & r1 & -> & H0 & H1).
    repeat constructor; assumption. }
  split; [exact Hres|].
  intros Hls Hc.
  unfold CentralCamera.points2C.
  subst A b. destruct (CentralCamera.dlt_system p P) as [A b]. cbn [fst snd] in *.
  rewrite Hls. cbv [bind].
  pose proof (Forall2_feq_zero _ _ (residual_compat A b _ _ Hc) Hres) as Hr.
  clear Hres Hls.
  unfold entries11 in Hc.
  repeat match goal with
         | H : Forall2 _ _ (_ :: _) |- _ => inversion H; subst; clear H
         | H : Forall2 _ _ [] |- _ => inversion H; subst; clear H
         end.
  cbn [app CentralCamera.reshape34].
  do 2 eexists. split; [reflexivity|]. split; [|exact Hr].
  cbv [meq34 veq4 c_0 c_1 c_2 hx hy hz hw].
  repeat split; try assumption. apply feq_sym. exact Hone.
Qed.

(** Seven points seen by a camera with identity intrinsics. *)
Lemma points2C_exact_on_noise_free_data_witness :
  fin34 unit_camera_matrix /\ hw (c_2 unit_camera_matrix) =~ fone /\
  Forall (fun X => fin3 X /\ ~ vz (mat34_vec unit_camera_matrix (e2h X)) =~ fzero)
         calibration_target /\
  exists C' r,
    CentralCamera.points2C exact_backend calibration_target
      (map (fun X => h2e (mat34_vec unit_camera_matrix (e2h X))) calibration_target)
    = Ok (C', r) /\
    meq34 C' unit_camera_matrix /\ Forall (fun x => x =~ fzero) r.
Proof.
  assert (H1 : fin34 unit_camera_matrix) by (vm_compute; tauto).
  assert (H2 : hw (c_2 unit_camera_matrix) =~ fone) by reflexivity.
  assert (H3 : Forall (fun X => fin3 X /\
                                ~ vz (mat34_vec unit_camera_matrix (e2h X)) =~ fzero)
                      calibration_target).
  { repeat constructor; vm_compute; discriminate. }
  split; [exact H1|]. split; [exact H2|]. split; [exact H3|].
  apply (proj2 (points2C_exact_on_noise_free_data exact_backend unit_camera_matrix
                  calibration_target (entries11 unit_camera_matrix) H1 H2 H3)).
  - reflexivity.
  - repeat constructor; reflexivity.
Defined.

(* ================================================================= *)
(** ** Homography of a pure rotation *)

Lemma mat33_vec_assoc (A B : mat33) (x : vec3) :
  fin33 A -> fin33 B -> fin3 x ->
  veq3 (mat33_vec (matmul A B) x) (mat33_vec A (mat33_vec B x)).
Proof.
  intros HA HB Hx.
  open33 A HA a00 a01 a02 a10 a11 a12 a20 a21 a22.
  open33 B HB b00 b01 b02 b10 b11 b12 b20 b21 b22.
  open3 x Hx x0 x1 x2. clear_trivial.
  la_unfold. cbv [fadd fmul feq]. repeat split; ring.
Qed.

Lemma mat33_vec_compat (A A' : mat33) (x x' : vec3) :
  meq A A' -> veq3 x x' -> veq3 (mat33_vec A x) (mat33_vec A' x').
Proof.
  intros HA Hx.
  destruct A as [[a00 a01 a02] [a10 a11 a12] [a20 a21 a22]].
  destruct A' as [[b00 b01 b02] [b10 b11 b12] [b20 b21 b22]].
  destruct x as [x0 x1 x2], x' as [y0 y1 y2].
  cbv [meq veq3 r_0 r_1 r_2 vx vy vz] in HA, Hx.
  destruct HA as [[? [? ?]] [[? [? ?]] [? [? ?]]]]. destruct Hx as [? [? ?]].
  cbv [veq3 mat33_vec dot3 r_0 r_1 r_2 vx vy vz].
  repeat split; feq_auto.
Qed.

Lemma veq3_trans (a b c : vec3) : veq3 a b -> veq3 b c -> veq3 a c.
Proof.
  intros (H0 & H1 & H2) (G0 & G1 & G2).
  repeat split; eapply feq_trans; eassumption.
Qed.

Lemma h2e_compat (x x' : vec3) : veq3 x x' -> veq2 (h2e x) (h2e x').
Proof.
  intros (H0 & H1 & H2). split; apply fdiv_compat; assumption.
Qed.

Lemma transpose_finite (A : mat33) : fin33 A -> fin33 (transpose A).
Proof.
  destruct A as [[a00 a01 a02] [a10 a11 a12] [a20 a21 a22]].
  cbv [fin33 fin3 transpose col0 col1 col2 r_0 r_1 r_2 vx vy vz]. tauto.
Qed.

Lemma matmul_finite (A B : mat33) : fin33 A -> fin33 B -> fin33 (matmul A B).
Proof.
  intros HA HB.
  open33 A HA a00 a01 a02 a10 a11 a12 a20 a21 a22.
  open33 B HB b00 b01 b02 b10 b11 b12 b20 b21 b22.
  la_unfold. tauto.
Qed.

(** Dividing a finite matrix by its last entry and applying it to a finite
    vector: the quotient is finite only when that entry is not zero, and
    then the image point [h2e] makes of the product is the one of the
    matrix before the division. *)
Lemma normalised_matrix_image (M : mat33) (x : vec3) :
  fin33 M -> fin3 x ->
  ~ vz (mat33_vec M x) =~ fzero ->
  fin33 (mmap (fun h => h / vz (r_2 M)) M) ->
  veq2 (h2e (mat33_vec (mmap (fun h => h / vz (r_2 M)) M) x))
       (h2e (mat33_vec M x)).
Proof.
  intros HM Hx Hc Hfin.
  open33 M HM m00 m01 m02 m10 m11 m12 m20 m21 m22.
  open3 x Hx x0 x1 x2. clear_trivial.
  cbv [mmap vmap r_0 r_1 r_2 vx vy vz] in Hfin |- *.
  cbv [mat33_vec dot3 r_0 r_1 r_2 vx vy vz fmul fadd feq fzero] in Hc.
  destruct (Qeq_dec m22 0) as [Hz | Hnz].
  - exfalso. destruct Hfin as (_ & _ & _ & _ & Hf).
    cbv [vz] in Hf.
    destruct (fdiv_zero_not_finite m22 m22 Hz) as [E | [E | E]];
      rewrite E in Hf; exact Hf.
  - clear Hfin. rewrite !fdiv_fin by exact Hnz.
    cbv [mat33_vec dot3 r_0 r_1 r_2 vx vy vz fmul fadd h2e].
    assert (Hc' : ~ (m20 / m22 * x0 + m21 / m22 * x1 + m22 / m22 * x2 == 0)%Q).
    { intros E. apply Hc.
      transitivity ((m20 / m22 * x0 + m21 / m22 * x1 + m22 / m22 * x2) * m22)%Q.
      - field. exact Hnz.
      - rewrite E. ring. }
    rewrite !fdiv_fin by assumption.
    cbv [veq2 e0 e1 feq]. split; field; split; assumption.
Qed.

(** A translation that is zero adds nothing to the rotation in [H]. *)
Lemma H_rotation_part (R : mat33) (t N : vec3) (s : Q) :
  fin33 R -> veq3 t (V3 fzero fzero fzero) -> fin3 N ->
  meq (mmap (fun r => r + dot3 (vscale (Fin s) (mat33_vec (mmap fopp R) t)) N) R) R.
Proof.
  intros HR Ht HN.
  open33 R HR r00 r01 r02 r10 r11 r12 r20 r21 r22.
  apply veq3_fin in Ht. destruct Ht as (t0 & t1 & t2 & -> & Ht0 & Ht1 & Ht2).
  open3 N HN n0 n1 n2. clear_trivial.
  la_unfold. cbv [fadd fmul fopp feq].
  rewrite Ht0, Ht1, Ht2. repeat split; ring.
Qed.

(** The frame of a camera turned about its centre. *)
Lemma rotated_frame (T1 T : SE3) (P : vec3) :
  finSE3 T1 -> fin33 (SE3_R T) -> veq3 (SE3_t T) (V3 fzero fzero fzero) -> fin3 P ->
  let X1 := camera_frame T1 (e2h P) in
  let X2 := camera_frame (SE3_mul T1 T) (e2h P) in
  finSE3 (SE3_mul T1 T) /\
  veq3 (V3 (hx X2) (hy X2) (hz X2))
       (mat33_vec (transpose (SE3_R T)) (V3 (hx X1) (hy X1) (hz X1))).
Proof.
  intros [HR1 Ht1] HR Ht HP.
  destruct T1 as [R1 t1], T as [R t]. cbv [SE3_R SE3_t] in *.
  open33 R1 HR1 a00 a01 a02 a10 a11 a12 a20 a21 a22.
  open33 R HR r00 r01 r02 r10 r11 r12 r20 r21 r22.
  open3 t1 Ht1 p0 p1 p2.
  apply veq3_fin in Ht. destruct Ht as (t0 & t1 & t2 & -> & Ht0 & Ht1 & Ht2).
  open3 P HP px py pz. clear_trivial.
  la_unfold. split; [tauto|].
  cbv [hx hy hz fadd fmul fopp fzero fone feq].
  rewrite Ht0, Ht1, Ht2. repeat split; ring.
Qed.

Lemma intrinsic_times (Km : mat33) (a b u v x y z : Q) :
  meq Km (intrinsic a b u v) ->
  veq3 (mat33_vec Km (V3 (Fin x) (Fin y) (Fin z)))
       (V3 (Fin (a * x + u * z)) (Fin (b * y + v * z)) (Fin z)).
Proof.
  intros HK.
  eapply veq3_trans.
  { apply mat33_vec_compat; [exact HK | repeat split; apply feq_refl]. }
  cbv [intrinsic mat33_vec dot3 veq3 r_0 r_1 r_2 vx vy vz fadd fmul fzero fone feq].
  repeat split; ring.
Qed.

(** X16.  The homography of a camera turned about its centre.  [T] is a motion
    without translation, [p1] the image of a point in front of the camera
    and [p2] its image in the copy [move] makes of the camera at the pose
    [pose * T].  Whatever plane is named, the matrix [H] returns, when it is
    finite, takes [p1] to [p2]. *)
Theorem H_pure_rotation_transfers_points :
  forall (self : camera) (T : SE3) (N : vec3) (d : fl) (rng : nat -> vec2)
         (P : vec3) (a b u v : Q),
    meq (CentralCamera.K self) (intrinsic a b u v) ->
    ~ (a == 0)%Q -> ~ (b == 0)%Q ->
    noise self = None ->
    finSE3 (pose self) ->
    fin33 (SE3_R T) -> veq3 (SE3_t T) (V3 fzero fzero fzero) ->
    fin3 N -> fltb (vz N) fzero = false -> positive d ->
    fin3 P ->
    fltb fzero (depth (pose self) (e2h P)) = true ->
    fltb fzero (depth (SE3_mul (pose self) T) (e2h P)) = true ->
    exists p1 p2 Hm,
      CentralCamera.project_point self rng (Cartesian [P]) None None true false
      = Image [p1] /\
      CentralCamera.project_point
        (CentralCamera.move self (SE3_mul (pose self) T) None)
        rng (Cartesian [P]) None None true false
      = Image [p2] /\
      CentralCamera.H self T N d = Ok Hm /\
      (fin33 Hm -> veq2 (h2e (mat33_vec Hm (e2h2 p1))) p2).
Proof.
  intros self T N d rng P a b u v HK Ha Hb Hnoise HT1 HR Ht HN HNz Hd HP Hz1 Hz2.
  change (CentralCamera.project_point
            (CentralCamera.move self (SE3_mul (pose self) T) None)
            rng (Cartesian [P]) None None true false)
    with (CentralCamera.project_point self rng (Cartesian [P])
            (Some (SE3_mul (pose self) T)) None true false).
  assert (HPw : fin4 (e2h P)).
  { destruct P as [px py pz]. cbv [fin3 vx vy vz] in HP. cbv. tauto. }
  destruct (rotated_frame (pose self) T P HT1 HR Ht HP) as (HT2 & Hrel).
  destruct (pinhole_column self _ _ a b u v HK HT1 HPw Hz1) as (Hm1 & H10 & H11).
  destruct (pinhole_column self _ _ a b u v HK HT2 HPw Hz2) as (Hm2 & H20 & H21).
  destruct (inv_intrinsic _ a b u v HK Ha Hb) as (Kinv & HI & HKi).
  assert (HKf : fin33 (CentralCamera.K self))
    by (apply (meq_fin _ _ HK); cbv; tauto).
  assert (HKif : fin33 Kinv) by (apply (meq_fin _ _ HKi); cbv; tauto).
  destruct d as [q| | |]; try contradiction. cbv [positive] in Hd.
  unfold CentralCamera.project_point, CentralCamera.add_noise_distortion,
    CentralCamera.world_points, CentralCamera.H.
  rewrite Hnoise, HNz, HI.
  assert (Hq : fltb (Fin q) fzero = false).
  { destruct (fltb (Fin q) fzero) eqn:E; [|reflexivity]. apply fltb_fin in E. lra. }
  rewrite Hq. unfold CentralCamera.py_div. rewrite (Qsign_of_pos q q (Qeq_refl q) Hd).
  cbv [bind map]. rewrite Hm1, Hm2.
  do 3 eexists. split; [reflexivity|]. split; [reflexivity|]. split; [reflexivity|].
  set (p1 := h2e (mat34_vec (CentralCamera.C self (Some (pose self))) (e2h P))) in *.
  set (p2 := h2e (mat34_vec (CentralCamera.C self (Some (SE3_mul (pose self) T)))
                            (e2h P))) in *.
  change (fone / Fin q) with (Fin 1 / Fin q). rewrite fdiv_fin by lra.
  set (R' := SE3_R (SE3_inv T)).
  set (HH0 := mmap _ R').
  assert (HR' : fin33 R').
  { apply (SE3_inv_finite (Rt (SE3_R T) (V3 fzero fzero fzero))).
    split; [exact HR | cbv; tauto]. }
  assert (HH0eq : meq HH0 R').
  { subst HH0 R'. unfold SE3_inv. cbv [SE3_R SE3_t].
    apply H_rotation_part; [|exact Ht|exact HN].
    apply transpose_finite. exact HR. }
  assert (HH0f : fin33 HH0) by (apply (meq_fin _ _ HH0eq); exact HR').
  set (HH := matmul (matmul (CentralCamera.K self) HH0) Kinv).
  assert (HHf : fin33 HH) by (repeat apply matmul_finite; assumption).
  unfold depth in Hz1, Hz2.
  pose proof (camera_frame_finite (pose self) P HT1 HP) as (HX1 & _).
  pose proof (camera_frame_finite _ P HT2 HP) as (HX2 & _).
  destruct (camera_frame (pose self) (e2h P)) as [fx1 fy1 fz1 fw1].
  destruct (camera_frame (SE3_mul (pose self) T) (e2h P)) as [fx2 fy2 fz2 fw2].
  cbv [fin4 hx hy hz hw] in HX1, HX2, Hrel, Hz1, Hz2, H10, H11, H20, H21.
  destruct HX1 as (? & ? & ? & ?). destruct HX2 as (? & ? & ? & ?).
  fin_as fx1; fin_as fy1; fin_as fz1; fin_as fw1.
  fin_as fx2; fin_as fy2; fin_as fz2; fin_as fw2. clear_trivial.
  apply fltb_fin in Hz1, Hz2.
  assert (Hz1' : ~ (fz1 == 0)%Q) by lra.
  assert (Hz2' : ~ (fz2 == 0)%Q) by lra.
  destruct (normalised_image_point Kinv p1 a b u v fx1 fy1 fz1
              Ha Hb Hz1' HKi H10 H11) as (Hp1 & Hn1).
  (* HH @ (p1, 1) is K @ R.T @ X1 / Z1 *)
  assert (Hprod : veq3 (mat33_vec HH (e2h2 p1))
                       (V3 (Fin ((a * fx2 + u * fz2) / fz1))
                           (Fin ((b * fy2 + v * fz2) / fz1))
                           (Fin (fz2 / fz1)))).
  { subst HH.
    eapply veq3_trans; [apply mat33_vec_assoc; try assumption;
                        apply matmul_finite; assumption|].
    eapply veq3_trans; [apply mat33_vec_compat; [apply meq_refl | exact Hn1]|].
    eapply veq3_trans; [apply mat33_vec_assoc; try assumption; cbv; tauto|].
    assert (Hrot : veq3 (mat33_vec HH0 (V3 (Fin (fx1 / fz1)) (Fin (fy1 / fz1)) (Fin 1)))
                        (V3 (Fin (fx2 / fz1)) (Fin (fy2 / fz1)) (Fin (fz2 / fz1)))).
    { eapply veq3_trans; [apply mat33_vec_compat;
                          [exact HH0eq | repeat split; apply feq_refl]|].
      subst R'. change (SE3_R (SE3_inv T)) with (transpose (SE3_R T)).
      clear - Hrel HR Hz1'.
      revert Hrel HR. generalize (SE3_R T). intros R Hrel HR.
      open33 R HR r00 r01 r02 r10 r11 r12 r20 r21 r22. clear_trivial.
      cbv [veq3 transpose mat33_vec dot3 col0 col1 col2 r_0 r_1 r_2
           vx vy vz fadd fmul feq] in Hrel |- *.
      destruct Hrel as (E0 & E1 & E2). rewrite E0, E1, E2.
      repeat split; field; exact Hz1'. }
    eapply veq3_trans; [apply mat33_vec_compat; [apply meq_refl | exact Hrot]|].
    eapply veq3_trans; [apply intrinsic_times; exact HK|].
    cbv [veq3 vx vy vz feq]. repeat split; field; exact Hz1'. }
  intros Hfin.
  assert (Hthird : ~ vz (mat33_vec HH (e2h2 p1)) =~ fzero).
  { destruct Hprod as (_ & _ & E). intros E0.
    pose proof (feq_trans _ _ _ (feq_sym _ _ E) E0) as E1.
    cbv [feq fzero vz] in E1.
    apply Hz2'. transitivity (fz2 / fz1 * fz1)%Q; [field; exact Hz1'|].
    rewrite E1. ring. }
  pose proof (normalised_matrix_image HH (e2h2 p1) HHf Hp1 Hthird Hfin) as (G0 & G1).
  pose proof (h2e_compat _ _ Hprod) as (F0 & F1).
  cbv [h2e vx vy vz] in F0, F1.
  assert (Hq' : ~ (fz2 / fz1 == 0)%Q).
  { intros E. apply Hz2'. transitivity (fz2 / fz1 * fz1)%Q; [field; exact Hz1'|].
    rewrite E. ring. }
  rewrite !fdiv_fin in F0, F1 by exact Hq'.
  rewrite !fdiv_fin in H20, H21 by exact Hz2'.
  cbv [fmul fadd] in H20, H21.
  split.
  - eapply feq_trans; [exact G0|]. eapply feq_trans; [exact F0|].
    eapply feq_trans; [|apply feq_sym; exact H20].
    cbv [feq e0 e1]. field. split; assumption.
  - eapply feq_trans; [exact G1|]. eapply feq_trans; [exact F1|].
    eapply feq_trans; [|apply feq_sym; exact H21].
    cbv [feq e0 e1]. field. split; assumption.
Qed.

(** The default camera rolled a quarter turn about its optical axis. *)
Lemma H_pure_rotation_transfers_points_witness :
  meq (CentralCamera.K default_camera) (intrinsic 800 800 512 512) /\
  ~ (800 == 0)%Q /\
  finSE3 (pose default_camera) /\
  fin33 (SE3_R quarter_roll) /\ veq3 (SE3_t quarter_roll) (V3 fzero fzero fzero) /\
  fin3 facing_plane /\ fltb (vz facing_plane) fzero = false /\ positive fone /\
  fin3 point_in_front /\
  fltb fzero (depth (pose default_camera) (e2h point_in_front)) = true /\
  fltb fzero (depth (SE3_mul (pose default_camera) quarter_roll) (e2h point_in_front))
  = true /\
  exists p1 p2 Hm,
    CentralCamera.project_point default_camera no_draw (Cartesian [point_in_front])
                                None None true false = Image [p1] /\
    CentralCamera.project_point
      (CentralCamera.move default_camera (SE3_mul (pose default_camera) quarter_roll) None)
      no_draw (Cartesian [point_in_front]) None None true false = Image [p2] /\
    CentralCamera.H default_camera quarter_roll facing_plane fone = Ok Hm /\
    fin33 Hm /\ veq2 (h2e (mat33_vec Hm (e2h2 p1))) p2.
Proof.
  assert (H1 : meq (CentralCamera.K default_camera) (intrinsic 800 800 512 512))
    by (vm_compute; repeat split; reflexivity).
  assert (H2 : ~ (800 == 0)%Q) by discriminate.
  assert (H3 : finSE3 (pose default_camera)) by (vm_compute; tauto).
  assert (H4 : fin33 (SE3_R quarter_roll)) by (vm_compute; tauto).
  assert (H5 : veq3 (SE3_t quarter_roll) (V3 fzero fzero fzero))
    by (vm_compute; repeat split; reflexivity).
  assert (H6 : fin3 facing_plane) by (vm_compute; tauto).
  assert (H7 : positive fone) by reflexivity.
  assert (H8 : fin3 point_in_front) by (vm_compute; tauto).
  assert (H9 : fltb fzero (depth (pose default_camera) (e2h point_in_front)) = true)
    by reflexivity.
  assert (H10 : fltb fzero (depth (SE3_mul (pose default_camera) quarter_roll)
                                  (e2h point_in_front)) = true)
    by reflexivity.
  split; [exact H1|]. split; [exact H2|]. split; [exact H3|]. split; [exact H4|].
  split; [exact H5|]. split; [exact H6|]. split; [reflexivity|]. split; [exact H7|].
  split; [exact H8|]. split; [exact H9|]. split; [exact H10|].
  destruct (H_pure_rotation_transfers_points default_camera quarter_roll facing_plane
              fone no_draw point_in_front 800 800 512 512
              H1 H2 H2 eq_refl H3 H4 H5 H6 eq_refl H7 H8 H9 H10)
    as (p1 & p2 & Hm & Hp1 & Hp2 & HH & Htransfer).
  exists p1, p2, Hm. split; [exact Hp1|]. split; [exact Hp2|]. split; [exact HH|].
  assert (Hfin : fin33 Hm).
  { vm_compute in HH. injection HH as <-. vm_compute. tauto. }
  split; [exact Hfin | exact (Htransfer Hfin)].
Defined.

(* ================================================================= *)
(** ** Homogeneous world points *)

(** X5.  [project_point] on a homogeneous point and on a multiple of it.  The
    image is the same for a positive factor.  For a negative factor it is
    the same only with the behind check off: the check looks at the sign of
    the third coordinate of [C @ P], which the factor flips, so a point in
    front of the camera comes out as NaN. *)
Theorem project_point_homogeneous_scale :
  forall (self : camera) (rng : nat -> vec2) (pose' : option SE3)
         (Pw : vec4) (k : Q) (behind : bool),
    fin33 (CentralCamera.K self) ->
    finSE3 (pose_used self pose') ->
    fin4 Pw ->
    noise self = None ->
    fltb fzero (vz (mat34_vec (CentralCamera.C self (Some (pose_used self pose'))) Pw))
    = true ->
    exists p p',
      CentralCamera.project_point self rng (Homogeneous [Pw]) pose' None behind false
      = Image [p] /\
      CentralCamera.project_point self rng (Homogeneous [scale4 (Fin k) Pw])
                                  pose' None behind false
      = Image [p'] /\
      is_fin (e0 p) /\ is_fin (e1 p) /\
      ((0 < k)%Q -> veq2 p' p) /\
      ((k < 0)%Q -> behind = false -> veq2 p' p) /\
      ((k < 0)%Q -> behind = true -> p' = V2 NaN NaN).
Proof.
  intros self rng pose' Pw k behind HK HT HP Hnoise Hz.
  pose proof (C_finite self _ HK HT) as HCf.
  unfold CentralCamera.project_point, CentralCamera.add_noise_distortion,
    CentralCamera.world_points.
  rewrite Hnoise.
  change (match pose' with Some T => T | None => pose self end)
    with (pose_used self pose').
  generalize dependent (CentralCamera.C self (Some (pose_used self pose'))).
  intros Cm Hz HCf.
  open34 Cm HCf m00 m01 m02 m03 m10 m11 m12 m13 m20 m21 m22 m23.
  open4 Pw HP px py pz pw. clear_trivial.
  cbv [map scale4 mat34_vec dot4 c_0 c_1 c_2 hx hy hz hw vx vy vz fmul fadd] in Hz |- *.
  set (x0 := (m00 * px + m01 * py + m02 * pz + m03 * pw)%Q) in *.
  set (x1 := (m10 * px + m11 * py + m12 * pz + m13 * pw)%Q) in *.
  set (x2 := (m20 * px + m21 * py + m22 * pz + m23 * pw)%Q) in *.
  set (y0 := (m00 * (k * px) + m01 * (k * py) + m02 * (k * pz) + m03 * (k * pw))%Q).
  set (y1 := (m10 * (k * px) + m11 * (k * py) + m12 * (k * pz) + m13 * (k * pw))%Q).
  set (y2 := (m20 * (k * px) + m21 * (k * py) + m22 * (k * pz) + m23 * (k * pw))%Q).
  assert (E0 : (y0 == k * x0)%Q) by (subst y0 x0; ring).
  assert (E1 : (y1 == k * x1)%Q) by (subst y1 x1; ring).
  assert (E2 : (y2 == k * x2)%Q) by (subst y2 x2; ring).
  clearbody x0 x1 x2 y0 y1 y2.
  apply fltb_fin in Hz.
  assert (Hx2 : ~ (x2 == 0)%Q) by lra.
  assert (Hmark : CentralCamera.mark_behind (V3 (Fin x0) (Fin x1) (Fin x2))
                  = V3 (Fin x0) (Fin x1) (Fin x2)).
  { unfold CentralCamera.mark_behind. cbv [vz].
    destruct (fltb (Fin x2) fzero) eqn:E; [|reflexivity].
    apply fltb_fin in E. lra. }
  assert (Hsame : ~ (k == 0)%Q ->
                  veq2 (h2e (V3 (Fin y0) (Fin y1) (Fin y2)))
                       (h2e (V3 (Fin x0) (Fin x1) (Fin x2)))).
  { intros Hk.
    assert (Hy2 : ~ (y2 == 0)%Q).
    { rewrite E2. intros E. apply Qmult_integral in E. tauto. }
    cbv [h2e vx vy vz]. rewrite !fdiv_fin by assumption.
    cbv [veq2 e0 e1 feq]. rewrite E0, E1, E2. split; field; tauto. }
  assert (Hp : h2e (V3 (Fin x0) (Fin x1) (Fin x2)) = V2 (Fin (x0 / x2)) (Fin (x1 / x2))).
  { cbv [h2e vx vy vz]. rewrite !fdiv_fin by assumption. reflexivity. }
  exists (V2 (Fin (x0 / x2)) (Fin (x1 / x2))).
  destruct behind.
  - rewrite Hmark, Hp.
    eexists. split; [reflexivity|]. split; [reflexivity|].
    split; [exact I|]. split; [exact I|].
    split; [|split].
    + intros Hk. rewrite <- Hp.
      assert (Hmark' : CentralCamera.mark_behind (V3 (Fin y0) (Fin y1) (Fin y2))
                       = V3 (Fin y0) (Fin y1) (Fin y2)).
      { unfold CentralCamera.mark_behind. cbv [vz].
        destruct (fltb (Fin y2) fzero) eqn:E; [|reflexivity].
        apply fltb_fin in E. rewrite E2 in E.
        assert (0 < k * x2)%Q by (apply Qmult_lt_0_compat; assumption). lra. }
      rewrite Hmark'. apply Hsame. lra.
    + intros _ Hb. discriminate Hb.
    + intros Hk _.
      apply behind_column. cbv [vz]. apply fltb_fin. rewrite E2.
      assert (0 < (- k) * x2)%Q by (apply Qmult_lt_0_compat; lra). lra.
  - rewrite Hp.
    eexists. split; [reflexivity|]. split; [reflexivity|].
    split; [exact I|]. split; [exact I|].
    split; [|split].
    + intros Hk. rewrite <- Hp. apply Hsame. lra.
    + intros Hk _. rewrite <- Hp. apply Hsame. lra.
    + intros _ Hb. discriminate Hb.
Qed.

(** The default camera and the homogeneous point [(2, 1, 3, 1)]. *)
Lemma project_point_homogeneous_scale_witness :
  fin33 (CentralCamera.K default_camera) /\
  finSE3 (pose_used default_camera None) /\
  fin4 (e2h point_in_front) /\
  fltb fzero (vz (mat34_vec (CentralCamera.C default_camera
                                              (Some (pose_used default_camera None)))
                            (e2h point_in_front))) = true /\
  exists p p',
    CentralCamera.project_point default_camera no_draw
      (Homogeneous [e2h point_in_front]) None None true false = Image [p] /\
    CentralCamera.project_point default_camera no_draw
      (Homogeneous [scale4 (Fin (-2)) (e2h point_in_front)]) None None true false
    = Image [p'] /\
    is_fin (e0 p) /\ is_fin (e1 p) /\ p' = V2 NaN NaN.
Proof.
  assert (H1 : fin33 (CentralCamera.K default_camera)) by (vm_compute; tauto).
  assert (H2 : finSE3 (pose_used default_camera None)) by (vm_compute; tauto).
  assert (H3 : fin4 (e2h point_in_front)) by (vm_compute; tauto).
  assert (H4 : fltb fzero (vz (mat34_vec (CentralCamera.C default_camera
                                            (Some (pose_used default_camera None)))
                                         (e2h point_in_front))) = true)
    by reflexivity.
  split; [exact H1|]. split; [exact H2|]. split; [exact H3|]. split; [exact H4|].
  destruct (project_point_homogeneous_scale default_camera no_draw None
              (e2h point_in_front) (-2) true H1 H2 H3 eq_refl H4)
    as (p & p' & Hp & Hp' & F0 & F1 & _ & _ & Hneg).
  exists p, p'. split; [exact Hp|]. split; [exact Hp'|].
  split; [exact F0|]. split; [exact F1|].
  apply Hneg; reflexivity.
Defined.

(* ================================================================= *)
(** ** Choosing among the poses of an essential matrix *)

(** What one round of the loop of [decomposeE] looks at. *)
Lemma candidate_image (self : camera) (rng : nat -> vec2) (P : vec3) (T : SE3) :
  exists p,
    CentralCamera.project_point self rng (Cartesian [P]) (Some T) None true false
    = Image [p] /\
    (fltb (vz (mat34_vec (CentralCamera.C self (Some T)) (e2h P))) fzero = true ->
     isnan (e0 p) = true) /\
    (fin33 (CentralCamera.K self) -> finSE3 T -> fin3 P ->
     is_fin (e0 (rng 0%nat)) ->
     fltb fzero (depth T (e2h P)) = true ->
     isnan (e0 p) = false).
Proof.
  unfold CentralCamera.project_point, CentralCamera.world_points,
    CentralCamera.add_noise_distortion.
  cbv [map].
  set (x := mat34_vec (CentralCamera.C self (Some T)) (e2h P)).
  assert (Hfront : fin33 (CentralCamera.K self) -> finSE3 T -> fin3 P ->
                   fltb fzero (depth T (e2h P)) = true ->
                   is_fin (e0 (h2e (CentralCamera.mark_behind x)))).
  { intros HK HT HP Hz.
    assert (HPw : fin4 (e2h P)).
    { destruct P as [px py pz]. cbv [fin3 vx vy vz] in HP. cbv. tauto. }
    pose proof (third_coordinate_is_depth self T (e2h P) HT HPw) as Hd.
    pose proof (mat34_vec_finite _ (e2h P) (C_finite self T HK HT) HPw) as Hx.
    fold x in Hd, Hx.
    unfold depth in Hz, Hd.
    destruct (camera_frame T (e2h P)) as [fx fy fz fw]. cbv [hz] in Hz, Hd.
    destruct x as [x0 x1 x2]. cbv [fin3 vx vy vz] in Hx, Hd.
    destruct Hx as (? & ? & ?). fin_as x0; fin_as x1; fin_as x2.
    destruct fz as [fz| | |]; try contradiction.
    cbv [feq] in Hd. apply fltb_fin in Hz.
    assert (Hx2 : ~ (x2 == 0)%Q) by lra.
    assert (Hmark : CentralCamera.mark_behind (V3 (Fin x0) (Fin x1) (Fin x2))
                    = V3 (Fin x0) (Fin x1) (Fin x2)).
    { unfold CentralCamera.mark_behind. cbv [vz].
      destruct (fltb (Fin x2) fzero) eqn:E; [|reflexivity].
      apply fltb_fin in E. lra. }
    rewrite Hmark. cbv [h2e e0 vx vy vz]. rewrite !fdiv_fin by exact Hx2. exact I. }
  destruct (noise self).
  - cbv [CentralCamera.add_noise_from].
    eexists. split; [reflexivity|]. cbv [e0]. split.
    + intros Hb. rewrite (behind_column x Hb). reflexivity.
    + intros HK HT HP Hrng Hz. specialize (Hfront HK HT HP Hz).
      cbv [e0] in Hfront, Hrng.
      destruct (let (e0, _) := h2e (CentralCamera.mark_behind x) in e0);
        try contradiction.
      destruct (let (e0, _) := rng 0%nat in e0); try contradiction.
      reflexivity.
  - eexists. split; [reflexivity|]. split.
    + intros Hb. rewrite (behind_column x Hb). reflexivity.
    + intros HK HT HP _ Hz. specialize (Hfront HK HT HP Hz).
      destruct (e0 (h2e (CentralCamera.mark_behind x))); try contradiction.
      reflexivity.
Qed.

Lemma first_pose_in_front_spec (self : camera) (rng : nat -> vec2) (P : vec3) :
  fin33 (CentralCamera.K self) -> fin3 P ->
  (forall k, is_fin (e0 (rng k))) ->
  forall (l : list (mat33 * vec3)) (j : nat),
    Forall (fun c => fin33 (fst c) /\ fin3 (snd c)) l ->
    (forall T, CentralCamera.first_pose_in_front self rng P j l = Some T ->
       exists c, In c l /\ T = SE3_inv (Rt (fst c) (snd c)) /\
                 fltb (depth T (e2h P)) fzero = false) /\
    ((exists c, In c l /\
                fltb fzero (depth (SE3_inv (Rt (fst c) (snd c))) (e2h P)) = true) ->
     exists T, CentralCamera.first_pose_in_front self rng P j l = Some T).
Proof.
  intros HK HP Hrng l.
  assert (HPw : fin4 (e2h P)).
  { destruct P as [px py pz]. cbv [fin3 vx vy vz] in HP. cbv. tauto. }
  induction l as [|[R t] l IH]; intros j Hl.
  - split.
    + intros T H. discriminate H.
    + intros (c & [] & _).
  - inversion Hl as [|c l' [HR Ht] Hl']; subst. cbn [fst snd] in HR, Ht.
    assert (HT : finSE3 (SE3_inv (Rt R t))).
    { apply SE3_inv_finite. split; assumption. }
    destruct (IH (S j) Hl') as [IH1 IH2].
    cbn [CentralCamera.first_pose_in_front].
    destruct (candidate_image self (fun i => rng (j + i)%nat) P (SE3_inv (Rt R t)))
      as (p & -> & Hbehind & Hfront).
    cbn [CentralCamera.first_image_coordinate_is_nan].
    destruct (isnan (e0 p)) eqn:Hnan; cbn [negb].
    + split.
      * intros T H. destruct (IH1 T H) as (c & Hin & Hc). exists c.
        split; [right; exact Hin | exact Hc].
      * intros (c & [Hc | Hc] & Hz).
        -- subst c. cbn [fst snd] in Hz.
           pose proof (Hfront HK HT HP (Hrng _) Hz) as Hn'. congruence.
        -- apply IH2. exists c. split; assumption.
    + split.
      * intros T H. injection H as <-. exists (R, t).
        split; [left; reflexivity|]. split; [reflexivity|].
        destruct (fltb (depth (SE3_inv (Rt R t)) (e2h P)) fzero) eqn:E; [|reflexivity].
        rewrite <- (fltb_feq_l _ _ fzero
                      (third_coordinate_is_depth self _ (e2h P) HT HPw)) in E.
        pose proof (Hbehind E) as Hn'. congruence.
      * intros _. eexists. reflexivity.
Qed.

(** X11.  [decomposeE] with a world point.  Whatever [cv.decomposeEssentialMat]
    answers, as long as it is finite: a pose that is returned is the inverse
    of one of the four candidates and does not have the point behind the
    camera; and a pose is returned whenever one of the candidates has the
    point strictly in front of the camera. *)
Theorem decomposeE_returns_a_pose_in_front :
  forall (decompose : mat33 -> mat33 * mat33 * vec3)
         (self : camera) (rng : nat -> vec2) (Em : mat33) (P : vec3),
    fin33 (CentralCamera.K self) -> fin3 P ->
    (forall k, is_fin (e0 (rng k))) ->
    Forall (fun c => fin33 (fst c) /\ fin3 (snd c))
           (CentralCamera.possibles decompose Em) ->
    (forall T, CentralCamera.decomposeE decompose self rng Em P = Some T ->
       exists c, In c (CentralCamera.possibles decompose Em) /\
                 T = SE3_inv (Rt (fst c) (snd c)) /\
                 fltb (depth T (e2h P)) fzero = false) /\
    ((exists c, In c (CentralCamera.possibles decompose Em) /\
                fltb fzero (depth (SE3_inv (Rt (fst c) (snd c))) (e2h P)) = true) ->
     exists T, CentralCamera.decomposeE decompose self rng Em P = Some T).
Proof.
  intros decompose self rng Em P HK HP Hrng Hl.
  exact (first_pose_in_front_spec self rng P HK HP Hrng _ 0%nat Hl).
Qed.

(** The default camera and a point that the first candidate has in front
    of the camera. *)
Lemma decomposeE_returns_a_pose_in_front_witness :
  fin33 (CentralCamera.K default_camera) /\ fin3 point_in_front /\
  (forall k, is_fin (e0 (no_draw k))) /\
  Forall (fun c => fin33 (fst c) /\ fin3 (snd c))
         (CentralCamera.possibles sample_decompose eye3) /\
  exists T c,
    CentralCamera.decomposeE sample_decompose default_camera no_draw eye3 point_in_front
    = Some T /\
    In c (CentralCamera.possibles sample_decompose eye3) /\
    T = SE3_inv (Rt (fst c) (snd c)) /\
    fltb (depth T (e2h point_in_front)) fzero = false.
Proof.
  assert (H1 : fin33 (CentralCamera.K default_camera)) by (vm_compute; tauto).
  assert (H2 : fin3 point_in_front) by (vm_compute; tauto).
  assert (H3 : forall k, is_fin (e0 (no_draw k))) by (intros k; exact I).
  assert (H4 : Forall (fun c => fin33 (fst c) /\ fin3 (snd c))
                      (CentralCamera.possibles sample_decompose eye3)).
  { repeat constructor. }
  split; [exact H1|]. split; [exact H2|]. split; [exact H3|]. split; [exact H4|].
  destruct (decomposeE_returns_a_pose_in_front sample_decompose default_camera no_draw
              eye3 point_in_front H1 H2 H3 H4) as [Hsound Hsome].
  destruct Hsome as (T & HT).
  { exists (eye3, V3 fzero fzero fone). split; [left; reflexivity | reflexivity]. }
  destruct (Hsound T HT) as (c & Hin & Hc & Hd).
  exists T, c. repeat split; assumption.
Defined.

(* ================================================================= *)
(** ** The image Jacobian in pixel coordinates *)

(** The Jacobian of one point in terms of the pixel coordinates [(x, y)],
    the focal lengths [a], [b] in pixels and the principal point
    [(pu, pv)]. *)
Lemma point_jacobian_in_pixels (Km Kinv : mat33) (a b pu pv x y z : Q) :
  meq Km (intrinsic a b pu pv) ->
  meq Kinv (M33 (V3 (Fin (1 / a)) fzero (Fin (- pu / a)))
                (V3 fzero (Fin (1 / b)) (Fin (- pv / b)))
                (V3 fzero fzero fone)) ->
  ~ (a == 0)%Q -> ~ (b == 0)%Q -> ~ (z == 0)%Q ->
  let L := CentralCamera.point_jacobian Km Kinv (Fin z) (V2 (Fin x) (Fin y)) in
  veq6 (l_0 L)
       (V6 (Fin (- a / z)) fzero (Fin ((x - pu) / z))
           (Fin ((x - pu) * (y - pv) / b))
           (Fin (- (a * a + (x - pu) * (x - pu)) / a))
           (Fin (a * (y - pv) / b))) /\
  veq6 (l_1 L)
       (V6 fzero (Fin (- b / z)) (Fin ((y - pv) / z))
           (Fin ((b * b + (y - pv) * (y - pv)) / b))
           (Fin (- (x - pu) * (y - pv) / a))
           (Fin (- b * (x - pu) / a))).
Proof.
  intros HK HKi Ha Hb Hz L. subst L.
  destruct Km as [[k00 k01 k02] [k10 k11 k12] [k20 k21 k22]].
  cbv [meq veq3 intrinsic r_0 r_1 r_2 vx vy vz fzero fone] in HK.
  destruct HK as [[H00 [H01 H02]] [[H10 [H11 H12]] [H20 [H21 H22]]]].
  apply feq_fin_l in H00, H01, H02, H10, H11, H12, H20, H21, H22.
  destruct H00 as (q00 & -> & H00), H01 as (q01 & -> & H01), H02 as (q02 & -> & H02).
  destruct H10 as (q10 & -> & H10), H11 as (q11 & -> & H11), H12 as (q12 & -> & H12).
  destruct H20 as (q20 & -> & H20), H21 as (q21 & -> & H21), H22 as (q22 & -> & H22).
  destruct Kinv as [[i00 i01 i02] [i10 i11 i12] [i20 i21 i22]].
  cbv [meq veq3 r_0 r_1 r_2 vx vy vz fzero fone] in HKi.
  destruct HKi as [[G00 [G01 G02]] [[G10 [G11 G12]] [G20 [G21 G22]]]].
  apply feq_fin_l in G00, G01, G02, G10, G11, G12, G20, G21, G22.
  destruct G00 as (p00 & -> & G00), G01 as (p01 & -> & G01), G02 as (p02 & -> & G02).
  destruct G10 as (p10 & -> & G10), G11 as (p11 & -> & G11), G12 as (p12 & -> & G12).
  destruct G20 as (p20 & -> & G20), G21 as (p21 & -> & G21), G22 as (p22 & -> & G22).
  cbv [CentralCamera.point_jacobian CentralCamera.mat22_mat26 CentralCamera.K22
       mat33_vec e2h2 dot3 dot2 veq6 l_0 l_1 a_0 a_1 j0 j1 j2 j3 j4 j5
       r_0 r_1 r_2 vx vy vz e0 e1 fone fzero fmul fadd fopp].
  rewrite !fdiv_fin by exact Hz.
  cbv [fmul fadd fopp feq].
  rewrite H00, H01, H10, H11, G00, G01, G02, G10, G11, G12.
  split; repeat split; field; auto.
Qed.

Lemma depth_vector_kept (Z : list fl) (n : nat) :
  List.length Z = n ->
  (if Nat.eqb (List.length Z) 1 then Ok (repeat (hd fzero Z) n)
   else if negb (Nat.eqb (List.length Z) n) then Raise ValueError
        else Ok Z) = Ok Z.
Proof.
  intros Hlen. destruct (Nat.eqb (List.length Z) 1) eqn:E1.
  - apply Nat.eqb_eq in E1. rewrite <- Hlen, E1.
    destruct Z as [|z [|z' Z]]; try discriminate. reflexivity.
  - rewrite (proj2 (Nat.eqb_eq _ _) Hlen). reflexivity.
Qed.

(** X18.  [visjac_p] in pixel coordinates.  For a camera with focal lengths [a],
    [b] in pixels and principal point [(pu, pv)], and one depth per point,
    the two rows of the point [(x, y)] at depth [z] are
    [[-a/z, 0, X/z, X*Y/b, -(a^2 + X^2)/a, a*Y/b]] and
    [[0, -b/z, Y/z, (b^2 + Y^2)/b, -X*Y/a, -b*X/a]] with [X = x - pu],
    [Y = y - pv]. *)
Theorem visjac_p_in_pixels :
  forall (self : camera) (uv : list vec2) (Z : list fl) (a b pu pv : Q),
    meq (CentralCamera.K self) (intrinsic a b pu pv) ->
    ~ (a == 0)%Q -> ~ (b == 0)%Q ->
    List.length Z = List.length uv ->
    exists L,
      CentralCamera.visjac_p self uv Z = Ok L /\
      forall (i : nat) (x y z : Q),
        nth_error uv i = Some (V2 (Fin x) (Fin y)) ->
        nth_error Z i = Some (Fin z) ->
        ~ (z == 0)%Q ->
        exists r0 r1,
          nth_error L (2 * i) = Some r0 /\
          nth_error L (2 * i + 1) = Some r1 /\
          veq6 r0 (V6 (Fin (- a / z)) fzero (Fin ((x - pu) / z))
                      (Fin ((x - pu) * (y - pv) / b))
                      (Fin (- (a * a + (x - pu) * (x - pu)) / a))
                      (Fin (a * (y - pv) / b))) /\
          veq6 r1 (V6 fzero (Fin (- b / z)) (Fin ((y - pv) / z))
                      (Fin ((b * b + (y - pv) * (y - pv)) / b))
                      (Fin (- (x - pu) * (y - pv) / a))
                      (Fin (- b * (x - pu) / a))).
Proof.
  intros self uv Z a b pu pv HK Ha Hb Hlen.
  destruct (inv_intrinsic _ a b pu pv HK Ha Hb) as (Kinv & HI & HKi).
  unfold CentralCamera.visjac_p.
  rewrite (depth_vector_kept Z _ Hlen), HI. cbv [bind].
  eexists. split; [reflexivity|].
  intros i x y z Hp Hz Hz0.
  destruct (stack_jacobians_nth (CentralCamera.K self) Kinv Z uv i _ _ Hz Hp)
    as [H0 H1].
  do 2 eexists. split; [exact H0|]. split; [exact H1|].
  apply (point_jacobian_in_pixels _ _ a b pu pv x y z HK HKi Ha Hb Hz0).
Qed.

(** The default camera, two points and their depths; the rows of the second
    point, which is 100 pixels right of and above the principal point. *)
Lemma visjac_p_in_pixels_witness :
  meq (CentralCamera.K default_camera) (intrinsic 800 800 512 512) /\
  ~ (800 == 0)%Q /\
  List.length two_depths = List.length two_image_points /\
  exists L r0 r1,
    CentralCamera.visjac_p default_camera two_image_points two_depths = Ok L /\
    nth_error L 2 = Some r0 /\ nth_error L 3 = Some r1 /\
    veq6 r0 (V6 (Fin (-200)) fzero (Fin 25) (Fin (- 25 # 2)) (Fin (- 1625 # 2))
                (Fin (-100))) /\
    veq6 r1 (V6 fzero (Fin (-200)) (Fin (-25)) (Fin (1625 # 2)) (Fin (25 # 2))
                (Fin (-100))).
Proof.
  assert (H1 : meq (CentralCamera.K default_camera) (intrinsic 800 800 512 512))
    by (vm_compute; repeat split; reflexivity).
  assert (H2 : ~ (800 == 0)%Q) by discriminate.
  assert (H3 : List.length two_depths = List.length two_image_points) by reflexivity.
  split; [exact H1|]. split; [exact H2|]. split; [exact H3|].
  destruct (visjac_p_in_pixels default_camera two_image_points two_depths
              800 800 512 512 H1 H2 H2 H3) as (L & HL & Hrows).
  destruct (Hrows 1%nat 612 412 4 eq_refl eq_refl) as (r0 & r1 & Hr0 & Hr1 & E0 & E1).
  { discriminate. }
  exists L, r0, r1. split; [exact HL|]. split; [exact Hr0|]. split; [exact Hr1|].
  split.
  - destruct r0 as [a0 a1 a2 a3 a4 a5].
    cbv [veq6 j0 j1 j2 j3 j4 j5] in E0 |- *.
    destruct E0 as (F0 & F1 & F2 & F3 & F4 & F5).
    repeat split; (eapply feq_trans; [eassumption|]); vm_compute; reflexivity.
  - destruct r1 as [a0 a1 a2 a3 a4 a5].
    cbv [veq6 j0 j1 j2 j3 j4 j5] in E1 |- *.
    destruct E1 as (F0 & F1 & F2 & F3 & F4 & F5).
    repeat split; (eapply feq_trans; [eassumption|]); vm_compute; reflexivity.
Defined.

(* ================================================================= *)
(** ** The constructor *)



(* ================================================================= *)
(** ** Pixel noise *)

(** X6.  The noise of a camera is added to the image points after the
    projection, one draw per point in the order of the points: image point
    [i] is image point [i] of the same camera without noise plus draw [i]. *)
Theorem project_point_noise_is_additive :
  forall (self : camera) (sigma : fl) (rng : nat -> vec2) (P : points)
         (pose' objpose : option SE3) (behind visibility : bool) (i : nat),
    noise self = Some sigma ->
    nth_error (image_of (CentralCamera.project_point
                           self rng P pose' objpose behind visibility)) i
    = option_map (fun p => V2 (e0 p + e0 (rng i)) (e1 p + e1 (rng i)))
        (nth_error (image_of (CentralCamera.project_point
                                (noise_free self) rng P pose' objpose behind visibility))
                   i).
Proof.
  intros self sigma rng P pose' objpose behind visibility i Hnoise.
  rewrite !project_point_image. cbv zeta.
  unfold CentralCamera.add_noise_distortion. rewrite Hnoise.
  change (noise (noise_free self)) with (@None fl). cbv iota.
  change (pose_used (noise_free self) pose') with (pose_used self pose').
  change (CentralCamera.C (noise_free self)) with (CentralCamera.C self).
  rewrite nth_error_add_noise_from. reflexivity.
Qed.

(** Two points seen by a camera with noise: the second draw moves the
    second image point. *)
Lemma project_point_noise_is_additive_witness :
  noise noisy_camera = Some (Fin (1 # 2)) /\
  nth_error (image_of (CentralCamera.project_point
                         noisy_camera counting_draw
                         (Cartesian [origin; point_in_front]) None None true false)) 1
  = option_map (fun p => V2 (e0 p + e0 (counting_draw 1)) (e1 p + e1 (counting_draw 1)))
      (nth_error (image_of (CentralCamera.project_point
                              (noise_free noisy_camera) counting_draw
                              (Cartesian [origin; point_in_front]) None None true false))
                 1).
Proof.
  split; [reflexivity|].
  apply (project_point_noise_is_additive noisy_camera (Fin (1 # 2)) counting_draw
           (Cartesian [origin; point_in_front]) None None true false 1%nat eq_refl).
Defined.

(* ================================================================= *)
(** ** Rank of the essential and the fundamental matrix *)

Lemma det_matmul (A B : mat33) :
  fin33 A -> fin33 B -> det (matmul A B) =~ det A * det B.
Proof.
  intros HA HB.
  open33 A HA a00 a01 a02 a10 a11 a12 a20 a21 a22.
  open33 B HB b00 b01 b02 b10 b11 b12 b20 b21 b22. clear_trivial.
  cbv [det matmul vec_mat33 dot3 col0 col1 col2 r_0 r_1 r_2 vx vy vz
       fadd fsub fmul fopp feq].
  ring.
Qed.

Lemma det_finite_value (A : mat33) : fin33 A -> exists q, det A = Fin q.
Proof.
  intros HA. open33 A HA a00 a01 a02 a10 a11 a12 a20 a21 a22.
  rewrite det_finite. eexists. reflexivity.
Qed.

Lemma det_skew (t : vec3) : fin3 t -> det (skew t) =~ fzero.
Proof.
  intros Ht. open3 t Ht t0 t1 t2.
  cbv [det skew vx vy vz fadd fsub fmul fopp fzero feq]. ring.
Qed.

(** A product with a singular finite factor in the middle is singular. *)
Lemma det_of_product_with_singular (A Em B : mat33) :
  fin33 A -> fin33 Em -> fin33 B -> det Em =~ fzero ->
  det (matmul (matmul A Em) B) =~ fzero.
Proof.
  intros HA HE HB H0.
  pose proof (matmul_finite _ _ HA HE) as HAE.
  eapply feq_trans; [apply det_matmul; assumption|].
  destruct (det_finite_value B HB) as (qb & ->).
  assert (H1 : det (matmul A Em) =~ fzero).
  { eapply feq_trans; [apply det_matmul; assumption|].
    destruct (det_finite_value A HA) as (qa & ->).
    destruct (det Em) as [qe| | |]; try contradiction.
    cbv [feq fzero fmul] in H0 |- *. rewrite H0. ring. }
  destruct (det (matmul A Em)) as [q| | |]; try contradiction.
  cbv [feq fzero fmul] in H1 |- *. rewrite H1. ring.
Qed.

Lemma essential_singular (T : SE3) :
  finSE3 T -> det (matmul (skew (SE3_t T)) (SE3_R T)) =~ fzero.
Proof.
  intros [HR Ht].
  assert (Hs : fin33 (skew (SE3_t T))).
  { clear HR. destruct (SE3_t T) as [t0 t1 t2]. open3 (V3 t0 t1 t2) Ht q0 q1 q2.
    cbv. tauto. }
  eapply feq_trans; [apply det_matmul; assumption|].
  pose proof (det_skew _ Ht) as H0.
  destruct (det_finite_value _ HR) as (qr & ->).
  destruct (det (skew (SE3_t T))) as [q| | |]; try contradiction.
  cbv [feq fzero fmul] in H0 |- *. rewrite H0. ring.
Qed.

(** X9.  The essential matrix [E] computes for a second view given as a motion
    or as a camera is singular, and so is the fundamental matrix [F]
    computes for it. *)
Theorem E_and_F_are_singular :
  forall (self : camera) (other : view) (a b u v : Q),
    meq (CentralCamera.K self) (intrinsic a b u v) ->
    ~ (a == 0)%Q -> ~ (b == 0)%Q ->
    match other with
    | ViewSE3 T => finSE3 T
    | ViewCamera o =>
        finSE3 (pose self) /\ finSE3 (pose o) /\
        exists a' b' u' v',
          meq (CentralCamera.K o) (intrinsic a' b' u' v') /\
          ~ (a' == 0)%Q /\ ~ (b' == 0)%Q
    | _ => False
    end ->
    exists Em Fm,
      CentralCamera.E self other = Ok Em /\
      CentralCamera.F self other = Ok Fm /\
      det Em =~ fzero /\ det Fm =~ fzero.
Proof.
  intros self other a b u v HK Ha Hb Hother.
  destruct (inv_intrinsic _ a b u v HK Ha Hb) as (Kinv & HI & HKi).
  assert (HKif : fin33 Kinv) by (apply (meq_fin _ _ HKi); cbv; tauto).
  destruct other as [o | T | Fm | ]; try contradiction.
  - destruct Hother as (HT1 & HT2 & a' & b' & u' & v' & HK2 & Ha' & Hb').
    destruct (inv_intrinsic _ a' b' u' v' HK2 Ha' Hb') as (K2inv & HI2 & HK2i).
    assert (HK2if : fin33 K2inv) by (apply (meq_fin _ _ HK2i); cbv; tauto).
    unfold CentralCamera.F, CentralCamera.E. cbv [bind]. rewrite HI, HI2.
    set (T21 := SE3_mul (SE3_inv (pose o)) (pose self)).
    assert (HT21 : finSE3 T21)
      by (apply SE3_mul_finite; [apply SE3_inv_finite|]; assumption).
    do 2 eexists. split; [reflexivity|]. split; [reflexivity|].
    pose proof (essential_singular T21 HT21) as H0.
    split; [exact H0|].
    apply det_of_product_with_singular; try assumption.
    + apply transpose_finite. exact HK2if.
    + apply essential_finite. exact HT21.
  - unfold CentralCamera.F, CentralCamera.E. cbv [bind]. rewrite HI.
    assert (HT' : finSE3 (SE3_inv T)) by (apply SE3_inv_finite; exact Hother).
    do 2 eexists. split; [reflexivity|]. split; [reflexivity|].
    pose proof (essential_singular _ HT') as H0.
    split; [exact H0|].
    apply det_of_product_with_singular; try assumption.
    + apply transpose_finite. exact HKif.
    + apply essential_finite. exact HT'.
Qed.

(** The default camera and the second view. *)
Lemma E_and_F_are_singular_witness :
  meq (CentralCamera.K default_camera) (intrinsic 800 800 512 512) /\
  ~ (800 == 0)%Q /\
  (finSE3 (pose default_camera) /\ finSE3 (pose second_view) /\
   exists a' b' u' v',
     meq (CentralCamera.K second_view) (intrinsic a' b' u' v') /\
     ~ (a' == 0)%Q /\ ~ (b' == 0)%Q) /\
  exists Em Fm,
    CentralCamera.E default_camera (ViewCamera second_view) = Ok Em /\
    CentralCamera.F default_camera (ViewCamera second_view) = Ok Fm /\
    det Em =~ fzero /\ det Fm =~ fzero.
Proof.
  assert (H1 : meq (CentralCamera.K default_camera) (intrinsic 800 800 512 512))
    by (vm_compute; repeat split; reflexivity).
  assert (H2 : ~ (800 == 0)%Q) by discriminate.
  assert (H3 : finSE3 (pose default_camera) /\ finSE3 (pose second_view) /\
               exists a' b' u' v',
                 meq (CentralCamera.K second_view) (intrinsic a' b' u' v') /\
                 ~ (a' == 0)%Q /\ ~ (b' == 0)%Q).
  { split; [vm_compute; tauto|]. split; [vm_compute; tauto|].
    exists 800, 800, 512, 512.
    split; [vm_compute; repeat split; reflexivity|]. split; discriminate. }
  split; [exact H1|]. split; [exact H2|]. split; [exact H3|].
  apply (E_and_F_are_singular default_camera (ViewCamera second_view)
           800 800 512 512 H1 H2 H2 H3).
Defined.

(* ================================================================= *)
(** ** Normalisation of the homography *)

Lemma normalised_last_entry (M : mat33) :
  fin33 (mmap (fun h => h / vz (r_2 M)) M) ->
  vz (r_2 (mmap (fun h => h / vz (r_2 M)) M)) =~ fone.
Proof.
  destruct M as [[h00 h01 h02] [h10 h11 h12] [h20 h21 h22]].
  cbv [mmap vmap fin33 fin3 r_0 r_1 r_2 vx vy vz].
  intros (_ & _ & _ & _ & Hf).
  destruct h22 as [q| | |]; try contradiction.
  destruct (Qeq_dec q 0) as [Hz | Hnz].
  - exfalso. destruct (fdiv_zero_not_finite q q Hz) as [E | [E | E]];
      rewrite E in Hf; exact Hf.
  - rewrite fdiv_fin by exact Hnz. cbv [feq fone]. field. exact Hnz.
Qed.

(** X17.  The matrix [H] returns is divided by its last entry: when it is finite,
    that entry is 1. *)
Theorem H_result_is_normalised :
  forall (self : camera) (T : SE3) (N : vec3) (d : fl) (Hm : mat33),
    CentralCamera.H self T N d = Ok Hm ->
    fin33 Hm ->
    vz (r_2 Hm) =~ fone.
Proof.
  intros self T N d Hm HH Hfin.
  unfold CentralCamera.H in HH.
  destruct (fltb d fzero); [discriminate HH|].
  destruct (fltb (vz N) fzero); [discriminate HH|].
  destruct (CentralCamera.py_div fone d) as [s|e]; [|discriminate HH].
  cbv [bind] in HH.
  destruct (inv (CentralCamera.K self)) as [Kinv|e]; [|discriminate HH].
  apply (f_equal (fun r => match r with Ok m => m | Raise _ => eye3 end)) in HH.
  cbv beta iota zeta in HH. subst Hm.
  apply normalised_last_entry. exact Hfin.
Qed.

(** The default camera rolled a quarter turn, and the plane [z = 1]. *)
Lemma H_result_is_normalised_witness :
  exists Hm,
    CentralCamera.H default_camera quarter_roll facing_plane fone = Ok Hm /\
    fin33 Hm /\ vz (r_2 Hm) =~ fone.
Proof.
  assert (HH : exists Hm,
             CentralCamera.H default_camera quarter_roll facing_plane fone = Ok Hm /\
             fin33 Hm).
  { eexists. split; [vm_compute; reflexivity|]. vm_compute. tauto. }
  destruct HH as (Hm & HH & Hfin).
  exists Hm. split; [exact HH|]. split; [exact Hfin|].
  apply (H_result_is_normalised default_camera quarter_roll facing_plane fone Hm HH Hfin).
Defined.
